(** * LatestFiles: the channel-pointer updater of cbhacks/misc-scripts

    A shallow embedding of [latestfiles_update.py].  The script is an AWS
    Lambda handler: it receives an S3 ObjectCreated notification (possibly
    wrapped in an SNS envelope), queries the DynamoDB table [LatestFiles]
    for every channel registered for the bucket, and advances the
    [ObjectKey] attribute of every channel whose [Pattern] matches the new
    object key, through a conditioned [UpdateItem].

    Layout of the development:
    - [Bytes]: the byte-wise order on strings that DynamoDB uses for [S]
      attributes;
    - [Python]: the fragment of Python's dynamic semantics the handler
      relies on (subscripts, [len], [in], exceptions) over JSON values;
    - [Dynamo]: a model of the table and of the two store operations the
      handler calls, [query] and [update_item];
    - [LatestFiles]: the handler itself, line by line, and its properties. *)

From Stdlib Require Import String Ascii ZArith List Lia Bool.
From stdpp Require Import base option list strings gmap sorting.

Local Open Scope string_scope.
Set Warnings "-register-all".

(* ===================================================================== *)
(** * Byte-wise string order *)
(* ===================================================================== *)

Module Bytes.

(** The script's header: "ObjectKey comparison is done bytewise using the
    UTF-8 encoding of the string".  Strings are modelled as their UTF-8
    byte sequences, so the order is the lexicographic order on bytes,
    [String.compare]. *)

Definition lt (a b : string) : Prop := String.ltb a b = true.
Definition le (a b : string) : Prop := String.ltb b a = false.

Lemma ascii_compare_refl (c : ascii) : Ascii.compare c c = Eq.
Proof. unfold Ascii.compare. apply N.compare_refl. Qed.

Lemma ascii_compare_lt_trans (a b c : ascii) :
  Ascii.compare a b = Lt -> Ascii.compare b c = Lt -> Ascii.compare a c = Lt.
Proof.
  unfold Ascii.compare. rewrite !N.compare_lt_iff. apply N.lt_trans.
Qed.

Lemma compare_refl (s : string) : String.compare s s = Eq.
Proof.
  induction s as [|c s IH]; simpl; [reflexivity|].
  now rewrite ascii_compare_refl.
Qed.

Lemma compare_eq (a b : string) : String.compare a b = Eq <-> a = b.
Proof.
  split; [apply String.compare_eq_iff|]. intros ->. apply compare_refl.
Qed.

Lemma compare_lt_trans (a b c : string) :
  String.compare a b = Lt -> String.compare b c = Lt -> String.compare a c = Lt.
Proof.
  revert b c. induction a as [|x a IH]; intros [|y b] [|z c]; simpl;
    try discriminate; try reflexivity.
  destruct (Ascii.compare x y) eqn:Hxy; try discriminate;
    destruct (Ascii.compare y z) eqn:Hyz; try discriminate; intros H1 H2.
  - apply Ascii.compare_eq_iff in Hxy, Hyz. subst.
    rewrite ascii_compare_refl. eapply IH; eassumption.
  - apply Ascii.compare_eq_iff in Hxy. subst. now rewrite Hyz.
  - apply Ascii.compare_eq_iff in Hyz. subst. now rewrite Hxy.
  - now rewrite (ascii_compare_lt_trans _ _ _ Hxy Hyz).
Qed.

Lemma compare_gt_lt (a b : string) :
  String.compare a b = Gt <-> String.compare b a = Lt.
Proof.
  rewrite (String.compare_antisym a b).
  destruct (String.compare b a); simpl; split; congruence.
Qed.

Lemma ltb_lt (a b : string) : String.ltb a b = true <-> String.compare a b = Lt.
Proof. unfold String.ltb. destruct (String.compare a b); split; congruence. Qed.

Lemma ltb_irrefl (a : string) : String.ltb a a = false.
Proof. unfold String.ltb. now rewrite compare_refl. Qed.

Lemma ltb_trans (a b c : string) :
  String.ltb a b = true -> String.ltb b c = true -> String.ltb a c = true.
Proof. rewrite !ltb_lt. apply compare_lt_trans. Qed.

Lemma ltb_asym (a b : string) :
  String.ltb a b = true -> String.ltb b a = false.
Proof.
  intros H. destruct (String.ltb b a) eqn:E; [|reflexivity].
  pose proof (ltb_trans _ _ _ H E) as F. now rewrite ltb_irrefl in F.
Qed.

Lemma ltb_total (a b : string) :
  String.ltb a b = false -> String.ltb b a = false -> a = b.
Proof.
  unfold String.ltb. destruct (String.compare a b) eqn:E.
  - intros _ _. now apply compare_eq.
  - discriminate.
  - apply compare_gt_lt in E. now rewrite E.
Qed.

Lemma ltb_le_trans (a b c : string) :
  String.ltb a b = true -> String.ltb c b = false -> String.ltb a c = true.
Proof.
  intros Hab Hcb. destruct (String.ltb b c) eqn:Hbc.
  - eapply ltb_trans; eassumption.
  - pose proof (ltb_total _ _ Hbc Hcb). now subst.
Qed.

Lemma le_ltb_trans (a b c : string) :
  String.ltb b a = false -> String.ltb b c = true -> String.ltb a c = true.
Proof.
  intros Hba Hbc. destruct (String.ltb a b) eqn:Hab.
  - eapply ltb_trans; eassumption.
  - pose proof (ltb_total _ _ Hab Hba). now subst.
Qed.

Lemma le_refl (a : string) : le a a.
Proof. apply ltb_irrefl. Qed.

Lemma le_trans (a b c : string) : le a b -> le b c -> le a c.
Proof.
  unfold le. intros Hab Hbc. destruct (String.ltb c a) eqn:E; [|reflexivity].
  pose proof (ltb_le_trans _ _ _ E Hab) as F. congruence.
Qed.

Lemma lt_le (a b : string) : lt a b -> le a b.
Proof. apply ltb_asym. Qed.

(** The greater of two strings, and the greatest of a list. *)
Definition max (a b : string) : string := if String.ltb a b then b else a.

Definition max_opt (o : option string) (b : string) : string :=
  match o with None => b | Some a => max a b end.

Definition maximum (l : list string) : option string :=
  fold_left (fun o b => Some (max_opt o b)) l None.

(** [greatest l o]: [o] is the byte-wise greatest element of [l], or
    nothing when [l] is empty. *)
Definition greatest (l : list string) (o : option string) : Prop :=
  match o with
  | None => l = []
  | Some m => In m l /\ forall x, In x l -> le x m
  end.

Lemma max_ge_l (a b : string) : le a (max a b).
Proof.
  unfold max, le. destruct (String.ltb a b) eqn:E.
  - now apply ltb_asym.
  - apply ltb_irrefl.
Qed.

Lemma max_ge_r (a b : string) : le b (max a b).
Proof.
  unfold max, le. destruct (String.ltb a b) eqn:E.
  - apply ltb_irrefl.
  - exact E.
Qed.

Lemma max_cases (a b : string) : max a b = a \/ max a b = b.
Proof. unfold max. destruct (String.ltb a b); auto. Qed.

Lemma fold_max_greatest (l : list string) (m : string) :
  let r := fold_left (fun o b => Some (max_opt o b)) l (Some m) in
  exists g, r = Some g /\ (g = m \/ In g l) /\ le m g /\ forall x, In x l -> le x g.
Proof.
  revert m. induction l as [|a l IH]; intros m; cbn [fold_left].
  - exists m. repeat split; auto using le_refl. intros x [].
  - cbn [max_opt]. destruct (IH (max m a)) as (g & Hg & Hin & Hle & Hall).
    exists g. split; [exact Hg|]. split; [|split].
    + destruct Hin as [->|Hin]; [|right; now right].
      destruct (max_cases m a) as [->| ->]; [now left|right; now left].
    + eapply le_trans; [apply max_ge_l|exact Hle].
    + intros x [<-|Hx]; [|now apply Hall].
      eapply le_trans; [apply max_ge_r|exact Hle].
Qed.

(** [maximum] computes the greatest element. *)
Lemma maximum_greatest (l : list string) : greatest l (maximum l).
Proof.
  unfold maximum. destruct l as [|a l]; [reflexivity|].
  cbn [fold_left max_opt].
  destruct (fold_max_greatest l a) as (g & -> & Hin & Hle & Hall).
  split.
  - destruct Hin as [->|Hin]; [now left|now right].
  - intros x [<-|Hx]; auto.
Qed.

End Bytes.

(* ===================================================================== *)
(** * The Python fragment *)
(* ===================================================================== *)

Module Python.

(** Values that reach the handler: what Lambda passes as [event], and what
    [json.loads] returns.  A [dict] is kept as its items in insertion
    order; the first binding of a key is the one a lookup sees. *)
Inductive json : Type :=
  | JNull
  | JBool (b : bool)
  | JInt (n : Z)
  | JFloat (literal : string)
  | JStr (s : string)
  | JArr (elems : list json)
  | JObj (items : list (string * json)).

(** A subscript: the handler only ever writes [x['name']] and [x[0]]. *)
Inductive index : Type :=
  | IStr (k : string)
  | IInt (i : Z).

Definition index_value (i : index) : json :=
  match i with IStr k => JStr k | IInt n => JInt n end.

(** Exceptions.  [KeyError] carries the key that was looked up;
    [ClientError] carries [e.response['Error']['Code']]. *)
Inductive exn : Type :=
  | AssertionError
  | KeyError (key : json)
  | IndexError
  | TypeError
  | JSONDecodeError
  | re_error
  | ParamValidationError
  | ClientError (code : string)
  | OtherError (name : string).

(** Result of running a piece of code: a value, a raised exception, or
    [Timeout] when the fuel bounding the [while True] loop ran out. *)
Inductive outcome (A : Type) : Type :=
  | Ret (a : A)
  | Raise (e : exn)
  | Timeout.
Arguments Ret {A} a.
Arguments Raise {A} e.
Arguments Timeout {A}.

Definition obind {A B} (o : outcome A) (k : A -> outcome B) : outcome B :=
  match o with
  | Ret a => k a
  | Raise e => Raise e
  | Timeout => Timeout
  end.

(** ** UTF-8 helpers: Python's [str] counts code points, not bytes *)

(** A continuation byte is [10xxxxxx]. *)
Definition is_continuation (c : ascii) : bool :=
  match c with Ascii _ _ _ _ _ _ b6 b7 => b7 && negb b6 end.

(** Split a byte string into one string per code point. *)
Fixpoint utf8_chars_aux (cur : string) (s : string) : list string :=
  match s with
  | EmptyString => [cur]
  | String c rest =>
      if is_continuation c
      then utf8_chars_aux (cur +:+ String c EmptyString) rest
      else cur :: utf8_chars_aux (String c EmptyString) rest
  end.

Definition utf8_chars (s : string) : list string :=
  match s with
  | EmptyString => []
  | String c rest => utf8_chars_aux (String c EmptyString) rest
  end.

(** [needle in haystack] on strings: substring test. *)
Fixpoint contains (needle haystack : string) : bool :=
  String.prefix needle haystack ||
  match haystack with
  | EmptyString => false
  | String _ rest => contains needle rest
  end.

(** ** Dictionaries *)

Fixpoint dict_get (k : string) (items : list (string * json)) : option json :=
  match items with
  | [] => None
  | (k', v) :: rest => if String.eqb k k' then Some v else dict_get k rest
  end.

Definition dict_keys (items : list (string * json)) : list string :=
  remove_dups (map fst items).

(** ** Sequences: [l[i]] with Python's negative indices *)

Definition seq_get {A} (l : list A) (i : Z) : option A :=
  let n := Z.of_nat (length l) in
  let j := if (i <? 0)%Z then (i + n)%Z else i in
  if (j <? 0)%Z then None else nth_error l (Z.to_nat j).

(** ** The three operations of the handler *)

(** [x[i]] *)
Definition py_getitem (x : json) (i : index) : outcome json :=
  match x, i with
  | JObj items, IStr k =>
      match dict_get k items with
      | Some v => Ret v
      | None => Raise (KeyError (JStr k))
      end
  | JObj _, IInt n => Raise (KeyError (JInt n))
  | JArr l, IInt n =>
      match seq_get l n with Some v => Ret v | None => Raise IndexError end
  | JStr s, IInt n =>
      match seq_get (utf8_chars s) n with
      | Some c => Ret (JStr c)
      | None => Raise IndexError
      end
  | _, _ => Raise TypeError
  end.

(** [len(x)] *)
Definition py_len (x : json) : outcome Z :=
  match x with
  | JObj items => Ret (Z.of_nat (length (dict_keys items)))
  | JArr l => Ret (Z.of_nat (length l))
  | JStr s => Ret (Z.of_nat (length (utf8_chars s)))
  | _ => Raise TypeError
  end.

(** ['k' in x] *)
Definition py_in (k : string) (x : json) : outcome bool :=
  match x with
  | JObj items => Ret (bool_decide (is_Some (dict_get k items)))
  | JArr l =>
      Ret (existsb (fun v => match v with JStr s => String.eqb s k | _ => false end) l)
  | JStr s => Ret (contains k s)
  | _ => Raise TypeError
  end.

(** [assert b] *)
Definition py_assert (b : bool) : outcome unit :=
  if b then Ret tt else Raise AssertionError.

(** ** Library functions

    [re] and [json] are Python's standard library, not code of the
    repository; the handler is verified against any implementation of
    this interface.  [re_compile p] is [None] when [p] is not a valid
    regular expression ([re.error]); [regex_search r s] tells whether
    [r.search(s)] finds a match; [json_loads] is [json.loads] on a [str];
    [py_str] is [str(v)], used when an f-string formats a value. *)
Class Lib : Type := {
  regex : Type;
  re_compile : string -> option regex;
  regex_search : regex -> string -> bool;
  json_loads : string -> outcome json;
  py_str : json -> string
}.

Section WithLib.
Context {L : Lib}.

(** [re.search(pattern, subject)]: the pattern is compiled first, then
    the subject must be a [str].  The result is the truth value of the
    match object. *)
Definition re_search (pattern : string) (subject : json) : outcome bool :=
  match re_compile pattern with
  | None => Raise re_error
  | Some r =>
      match subject with
      | JStr s => Ret (regex_search r s)
      | _ => Raise TypeError
      end
  end.

(** [json.loads(x)] *)
Definition py_json_loads (x : json) : outcome json :=
  match x with
  | JStr s => json_loads s
  | _ => Raise TypeError
  end.

(** [f'{v}'] *)
Definition format_value (v : json) : string :=
  match v with
  | JStr s => s
  | _ => py_str v
  end.

End WithLib.

End Python.

(* ===================================================================== *)
(** * A small implementation of the library interface *)
(* ===================================================================== *)

Module Small.
Import Python.

(** An instance of [Lib] to run the handler on concrete inputs: a regular
    expression engine for literals, [.] and a leading [^], and a JSON
    reader for objects, arrays, strings with the escapes of a quote, a
    backslash and a slash, integers, [true], [false] and [null].
    Everything else is rejected. *)

Record small_regex : Type := mkRegex {
  anchored : bool;
  atoms : list (option ascii)
}.

Definition is_meta (c : ascii) : bool :=
  existsb (Ascii.eqb c)
    ("092"%char :: list_ascii_of_string "()[]{}*+?|^$").

Fixpoint compile_atoms (p : string) : option (list (option ascii)) :=
  match p with
  | EmptyString => Some []
  | String c rest =>
      if is_meta c then None
      else
        match compile_atoms rest with
        | None => None
        | Some l => Some ((if Ascii.eqb c "." then None else Some c) :: l)
        end
  end.

Definition small_compile (p : string) : option small_regex :=
  match p with
  | String "^" rest => option_map (mkRegex true) (compile_atoms rest)
  | _ => option_map (mkRegex false) (compile_atoms p)
  end.

Fixpoint match_here (l : list (option ascii)) (s : string) : bool :=
  match l, s with
  | [], _ => true
  | _ :: _, EmptyString => false
  | None :: l', String _ s' => match_here l' s'
  | Some c :: l', String d s' => Ascii.eqb c d && match_here l' s'
  end.

Fixpoint match_anywhere (l : list (option ascii)) (s : string) : bool :=
  match_here l s ||
  match s with
  | EmptyString => false
  | String _ s' => match_anywhere l s'
  end.

Definition small_search (r : small_regex) (s : string) : bool :=
  if anchored r then match_here (atoms r) s else match_anywhere (atoms r) s.

(** *** JSON *)

Definition is_space (c : ascii) : bool :=
  existsb (Ascii.eqb c) [" "%char; "010"%char; "013"%char; "009"%char].

Fixpoint skip_ws (s : string) : string :=
  match s with
  | String c rest => if is_space c then skip_ws rest else s
  | EmptyString => s
  end.

Definition digit_of (c : ascii) : option Z :=
  let n := Z.of_N (N_of_ascii c) in
  if ((48 <=? n) && (n <=? 57))%Z then Some (n - 48)%Z else None.

Fixpoint read_digits (acc : Z) (s : string) : Z * string :=
  match s with
  | String c rest =>
      match digit_of c with
      | Some d => read_digits (10 * acc + d)%Z rest
      | None => (acc, s)
      end
  | EmptyString => (acc, s)
  end.

(** After the opening quote. *)
Fixpoint read_string (acc : string) (s : string) : option (string * string) :=
  match s with
  | EmptyString => None
  | String "034"%char rest => Some (acc, rest)
  | String "092"%char (String c rest) =>
      if Ascii.eqb c "034" || Ascii.eqb c "092" || Ascii.eqb c "/"
      then read_string (acc +:+ String c EmptyString) rest
      else None
  | String c rest => read_string (acc +:+ String c EmptyString) rest
  end.

Fixpoint dict_set (k : string) (v : json) (items : list (string * json))
  : list (string * json) :=
  match items with
  | [] => [(k, v)]
  | (k', v') :: rest =>
      if String.eqb k k' then (k, v) :: rest else (k', v') :: dict_set k v rest
  end.

Fixpoint read_value (fuel : nat) (s : string) : option (json * string) :=
  match fuel with
  | O => None
  | S fuel' =>
      match skip_ws s with
      | String "034"%char rest =>
          match read_string EmptyString rest with
          | Some (str, rest') => Some (JStr str, rest')
          | None => None
          end
      | String "[" rest =>
          match skip_ws rest with
          | String "]" rest' => Some (JArr [], rest')
          | _ => read_elems fuel' [] rest
          end
      | String "{" rest =>
          match skip_ws rest with
          | String "}" rest' => Some (JObj [], rest')
          | _ => read_members fuel' [] rest
          end
      | String "-" rest =>
          match rest with
          | String c _ =>
              match digit_of c with
              | Some _ => let (n, rest') := read_digits 0 rest in Some (JInt (- n), rest')
              | None => None
              end
          | EmptyString => None
          end
      | String c rest as s' =>
          if String.prefix "null" s' then Some (JNull, substring 4 (String.length s' - 4) s')
          else if String.prefix "true" s' then Some (JBool true, substring 4 (String.length s' - 4) s')
          else if String.prefix "false" s' then Some (JBool false, substring 5 (String.length s' - 5) s')
          else
            match digit_of c with
            | Some _ => let (n, rest') := read_digits 0 s' in Some (JInt n, rest')
            | None => None
            end
      | EmptyString => None
      end
  end
with read_elems (fuel : nat) (acc : list json) (s : string) : option (json * string) :=
  match fuel with
  | O => None
  | S fuel' =>
      match read_value fuel' s with
      | Some (v, rest) =>
          match skip_ws rest with
          | String "," rest' => read_elems fuel' (acc ++ [v]) rest'
          | String "]" rest' => Some (JArr (acc ++ [v]), rest')
          | _ => None
          end
      | None => None
      end
  end
with read_members (fuel : nat) (acc : list (string * json)) (s : string)
  : option (json * string) :=
  match fuel with
  | O => None
  | S fuel' =>
      match skip_ws s with
      | String "034"%char rest =>
          match read_string EmptyString rest with
          | Some (k, rest1) =>
              match skip_ws rest1 with
              | String ":" rest2 =>
                  match read_value fuel' rest2 with
                  | Some (v, rest3) =>
                      match skip_ws rest3 with
                      | String "," rest4 => read_members fuel' (dict_set k v acc) rest4
                      | String "}" rest4 => Some (JObj (dict_set k v acc), rest4)
                      | _ => None
                      end
                  | None => None
                  end
              | _ => None
              end
          | None => None
          end
      | _ => None
      end
  end.

Definition small_loads (s : string) : outcome json :=
  match read_value (S (String.length s)) s with
  | Some (v, rest) =>
      match skip_ws rest with
      | EmptyString => Ret v
      | _ => Raise JSONDecodeError
      end
  | None => Raise JSONDecodeError
  end.

Definition small_str (v : json) : string :=
  match v with
  | JNull => "None"
  | JBool true => "True"
  | JBool false => "False"
  | JStr s => s
  | _ => "<object>"
  end.

#[global] Instance small_lib : Lib := {|
  regex := small_regex;
  re_compile := small_compile;
  regex_search := small_search;
  json_loads := small_loads;
  py_str := small_str
|}.

End Small.

(* ===================================================================== *)
(** * The store: a model of the DynamoDB table *)
(* ===================================================================== *)

Module Dynamo.
Import Python.

(** The handler reaches the table through [boto3]; neither [boto3] nor
    DynamoDB is code of the repository.  This module fixes the model of
    the store the handler is verified against: the table documented in
    the script's header, the semantics of the expressions the handler
    sends, paging of [Query], and failures of either call. *)

(** An attribute value, the dict [{'S': ...}], [{'N': ...}], ... *)
Inductive AttributeValue : Type :=
  | AV_S (s : string)
  | AV_N (n : Z)
  | AV_BOOL (b : bool)
  | AV_NULL.

#[global] Instance AttributeValue_eq_dec : EqDecision AttributeValue.
Proof. solve_decision. Defined.

(** An item: attribute name to attribute value. *)
Abbreviation Item := (gmap string AttributeValue).

(** A stored item.  [Bucket] is the partition key and [Channel] the sort
    key, both strings; [row_attrs] holds the other attributes ([Pattern],
    [ObjectKey], ...). *)
Record Row : Type := mkRow {
  row_bucket : string;
  row_channel : string;
  row_attrs : Item
}.

Definition row_key (r : Row) : string * string := (row_bucket r, row_channel r).

Definition item_of_row (r : Row) : Item :=
  <["Bucket" := AV_S (row_bucket r)]>
    (<["Channel" := AV_S (row_channel r)]> (row_attrs r)).

Definition key_item (k : string * string) : Item :=
  <["Bucket" := AV_S k.1]> (<["Channel" := AV_S k.2]> ∅).

Definition parse_key (k : Item) : option (string * string) :=
  match k !! "Bucket", k !! "Channel" with
  | Some (AV_S b), Some (AV_S c) =>
      if Nat.eqb (size k) 2 then Some (b, c) else None
  | _, _ => None
  end.

(** Primary keys are ordered by partition, then by sort key, byte-wise. *)
Definition key_compare (a b : string * string) : comparison :=
  match String.compare a.1 b.1 with
  | Eq => String.compare a.2 b.2
  | c => c
  end.

Definition key_lt (a b : string * string) : Prop := key_compare a b = Lt.

(** ** Expressions, as the parsed form of the strings the handler sends *)

(** [SET attr = :value] *)
Inductive UpdateExpr : Type :=
  | SET (attr : string) (value : string).

(** [attribute_not_exists(attr)], [attr < :value], [c1 OR c2] *)
Inductive CondExpr : Type :=
  | attribute_not_exists (attr : string)
  | CE_lt (attr : string) (value : string)
  | CE_or (c1 c2 : CondExpr).

(** [#name = :value] *)
Inductive KeyCondExpr : Type :=
  | KC_eq (name : string) (value : string).

Record UpdateItemRequest : Type := mkUpdateItem {
  ui_TableName : string;
  ui_Key : Item;
  ui_UpdateExpression : UpdateExpr;
  ui_ConditionExpression : CondExpr;
  ui_ExpressionAttributeValues : Item
}.

Record QueryRequest : Type := mkQuery {
  q_TableName : string;
  q_ProjectionExpression : list string;
  q_KeyConditionExpression : KeyCondExpr;
  q_ExpressionAttributeValues : Item;
  q_ExpressionAttributeNames : gmap string string;
  q_ExclusiveStartKey : option Item
}.

Record QueryResponse : Type := mkResponse {
  Items : list Item;
  LastEvaluatedKey : option Item
}.

(** ** The state of the store

    - [table]: the items, in primary-key order;
    - [writes]: the [UpdateItem] requests received so far, oldest first,
      each with the answer it got;
    - [page_limits]: how the store cuts the next [Query] answers into
      pages: a query that finds [Some n] at the head evaluates at most
      [S n] items, and returns a [LastEvaluatedKey] when it stopped at
      that limit; with nothing left in the list, a query returns
      everything in one page;
    - [query_faults], [update_faults]: the failures (throttling, network,
      authentication, ...) the next calls will meet: a call that finds
      [Some e] at the head raises [e] and does nothing else. *)
Record db : Type := mkDb {
  table : list Row;
  writes : list (UpdateItemRequest * outcome unit);
  page_limits : list nat;
  query_faults : list (option exn);
  update_faults : list (option exn)
}.

Definition the_table : string := "LatestFiles".
Definition ConditionalCheckFailedException : string :=
  "ConditionalCheckFailedException".
Definition ValidationException : string := "ValidationException".
Definition ResourceNotFoundException : string := "ResourceNotFoundException".

(** ** Conditions *)

(** [x < y] on attribute values: byte-wise on strings, numeric on numbers,
    false across types. *)
Definition av_ltb (x y : AttributeValue) : bool :=
  match x, y with
  | AV_S a, AV_S b => String.ltb a b
  | AV_N a, AV_N b => (a <? b)%Z
  | _, _ => false
  end.

(** [None] when a placeholder is not bound (a [ValidationException]). *)
Fixpoint eval_cond (values : Item) (c : CondExpr) (item : Item) : option bool :=
  match c with
  | attribute_not_exists a => Some (bool_decide (item !! a = None))
  | CE_lt a v =>
      match values !! v with
      | None => None
      | Some y =>
          match item !! a with
          | None => Some false
          | Some x => Some (av_ltb x y)
          end
      end
  | CE_or c1 c2 =>
      match eval_cond values c1 item, eval_cond values c2 item with
      | Some b1, Some b2 => Some (b1 || b2)
      | _, _ => None
      end
  end.

(** ** Lookup and upsert in the ordered table *)

Fixpoint find_row (k : string * string) (t : list Row) : option Row :=
  match t with
  | [] => None
  | r :: t' => if decide (row_key r = k) then Some r else find_row k t'
  end.

(** The item a condition is evaluated on: no attribute at all when the
    key is not in the table. *)
Definition current_item (k : string * string) (t : list Row) : Item :=
  match find_row k t with
  | Some r => item_of_row r
  | None => ∅
  end.

(** Apply [f] to the attributes of the item with key [k], creating the
    item at its place in key order when there is none. *)
Fixpoint upsert (k : string * string) (f : Item -> Item) (t : list Row) : list Row :=
  match t with
  | [] => [mkRow k.1 k.2 (f ∅)]
  | r :: t' =>
      match key_compare k (row_key r) with
      | Eq => mkRow (row_bucket r) (row_channel r) (f (row_attrs r)) :: t'
      | Lt => mkRow k.1 k.2 (f ∅) :: r :: t'
      | Gt => r :: upsert k f t'
      end
  end.

(** ** UpdateItem *)

Definition run_update (req : UpdateItemRequest) (t : list Row) : outcome (list Row) :=
  if negb (String.eqb (ui_TableName req) the_table)
  then Raise (ClientError ResourceNotFoundException)
  else
    match parse_key (ui_Key req) with
    | None => Raise (ClientError ValidationException)
    | Some k =>
        match ui_UpdateExpression req with
        | SET attr v =>
            match ui_ExpressionAttributeValues req !! v with
            | None => Raise (ClientError ValidationException)
            | Some new =>
                if String.eqb attr "Bucket" || String.eqb attr "Channel"
                then Raise (ClientError ValidationException)
                else
                  match eval_cond (ui_ExpressionAttributeValues req)
                                  (ui_ConditionExpression req)
                                  (current_item k t) with
                  | None => Raise (ClientError ValidationException)
                  | Some false => Raise (ClientError ConditionalCheckFailedException)
                  | Some true => Ret (upsert k (insert attr new) t)
                  end
            end
        end
    end.

Definition update_item (req : UpdateItemRequest) (d : db) : outcome unit * db :=
  match update_faults d with
  | Some e :: rest =>
      (Raise e,
       mkDb (table d) (writes d ++ [(req, Raise e)]) (page_limits d)
            (query_faults d) rest)
  | _ =>
      match run_update req (table d) with
      | Ret t' =>
          (Ret tt,
           mkDb t' (writes d ++ [(req, Ret tt)]) (page_limits d)
                (query_faults d) (tail (update_faults d)))
      | Raise e =>
          (Raise e,
           mkDb (table d) (writes d ++ [(req, Raise e)]) (page_limits d)
                (query_faults d) (tail (update_faults d)))
      | Timeout => (Timeout, d)
      end
  end.

(** ** Query *)

(** The items of partition [b] that come after sort key [start]. *)
Definition in_range (b : string) (start : option string) (r : Row) : bool :=
  String.eqb (row_bucket r) b &&
  match start with
  | None => true
  | Some c => String.ltb c (row_channel r)
  end.

Definition rows_after (b : string) (start : option string) (t : list Row) : list Row :=
  List.filter (in_range b start) t.

(** Keep the attributes named by a projection. *)
Definition project (names : list string) (i : Item) : Item :=
  fold_right (fun a acc => match i !! a with
                           | Some v => <[a := v]> acc
                           | None => acc
                           end) ∅ names.

Definition cut_page (limit : option nat) (rows : list Row)
  : list Row * option Item :=
  match limit with
  | None => (rows, None)
  | Some n =>
      if Nat.leb (S n) (length rows)
      then (take (S n) rows,
            option_map (fun r => key_item (row_key r)) (last (take (S n) rows)))
      else (rows, None)
  end.

Definition run_query (req : QueryRequest) (limit : option nat) (t : list Row)
  : outcome QueryResponse :=
  if negb (String.eqb (q_TableName req) the_table)
  then Raise (ClientError ResourceNotFoundException)
  else
    match q_KeyConditionExpression req with
    | KC_eq name value =>
        match q_ExpressionAttributeNames req !! name,
              q_ExpressionAttributeValues req !! value with
        | Some "Bucket", Some (AV_S b) =>
            let start :=
              match q_ExclusiveStartKey req with
              | None => Some None
              | Some k =>
                  match parse_key k with
                  | Some (b', c) => if String.eqb b' b then Some (Some c) else None
                  | None => None
                  end
              end in
            match start with
            | None => Raise (ClientError ValidationException)
            | Some start =>
                let (page, lek) := cut_page limit (rows_after b start t) in
                Ret (mkResponse
                       (map (fun r => project (q_ProjectionExpression req) (item_of_row r)) page)
                       lek)
            end
        | _, _ => Raise (ClientError ValidationException)
        end
    end.

Definition query (req : QueryRequest) (d : db) : outcome QueryResponse * db :=
  match query_faults d with
  | Some e :: rest =>
      (Raise e, mkDb (table d) (writes d) (page_limits d) rest (update_faults d))
  | _ =>
      (run_query req (head (page_limits d)) (table d),
       mkDb (table d) (writes d) (tail (page_limits d))
            (tail (query_faults d)) (update_faults d))
  end.

(** ** Well-formed tables: strictly increasing primary keys *)
Definition row_lt (r r' : Row) : Prop := key_lt (row_key r) (row_key r').

Definition wf_table (t : list Row) : Prop := StronglySorted row_lt t.

(** The stored pointer of a channel: the [ObjectKey] attribute of the item
    with key [k], if there is such an item and it has the attribute. *)
Definition pointer (t : list Row) (k : string * string) : option AttributeValue :=
  current_item k t !! "ObjectKey".

(** What a query can see of an item: its key and its [Pattern]. *)
Definition registration (r : Row) : string * string * option AttributeValue :=
  (row_key r, row_attrs r !! "Pattern").

(** ** Facts about keys *)

Lemma key_compare_refl (a : string * string) : key_compare a a = Eq.
Proof. unfold key_compare. now rewrite !Bytes.compare_refl. Qed.

Lemma key_compare_eq (a b : string * string) : key_compare a b = Eq <-> a = b.
Proof.
  split; [|intros ->; apply key_compare_refl].
  destruct a as [a1 a2], b as [b1 b2]. unfold key_compare. cbn.
  destruct (String.compare a1 b1) eqn:E1; try discriminate.
  intros E2. apply Bytes.compare_eq in E1, E2. congruence.
Qed.

Lemma key_compare_same_bucket (b c1 c2 : string) :
  key_compare (b, c1) (b, c2) = String.compare c1 c2.
Proof. unfold key_compare. cbn. now rewrite Bytes.compare_refl. Qed.

Lemma key_lt_irrefl (a : string * string) : ~ key_lt a a.
Proof. unfold key_lt. now rewrite key_compare_refl. Qed.

Lemma key_lt_trans (a b c : string * string) :
  key_lt a b -> key_lt b c -> key_lt a c.
Proof.
  destruct a as [a1 a2], b as [b1 b2], c as [c1 c2].
  unfold key_lt, key_compare. cbn.
  destruct (String.compare a1 b1) eqn:E1; try discriminate;
    destruct (String.compare b1 c1) eqn:E2; try discriminate; intros H1 H2.
  - apply Bytes.compare_eq in E1, E2. subst. rewrite Bytes.compare_refl.
    eapply Bytes.compare_lt_trans; eassumption.
  - apply Bytes.compare_eq in E1. subst. now rewrite E2.
  - apply Bytes.compare_eq in E2. subst. now rewrite E1.
  - now rewrite (Bytes.compare_lt_trans _ _ _ E1 E2).
Qed.

Lemma wf_table_keys (t : list Row) :
  wf_table t <-> StronglySorted key_lt (map row_key t).
Proof.
  unfold wf_table. induction t as [|r t IH]; cbn [map].
  - split; constructor.
  - rewrite !StronglySorted_cons, IH, Forall_fmap. reflexivity.
Qed.

Lemma map_row_key_registration (t : list Row) :
  map row_key t = map fst (map registration t).
Proof. now rewrite map_map. Qed.

(** Being well formed only depends on the keys. *)
Lemma wf_table_registrations (t t' : list Row) :
  map registration t = map registration t' -> wf_table t -> wf_table t'.
Proof.
  intros H. rewrite !wf_table_keys, !map_row_key_registration. now rewrite H.
Qed.

Lemma row_key_eta (r : Row) : mkRow (row_key r).1 (row_key r).2 (row_attrs r) = r.
Proof. now destruct r. Qed.

(** ** Facts about lookup and upsert *)

Lemma find_row_key (k : string * string) (t : list Row) (r : Row) :
  find_row k t = Some r -> row_key r = k /\ In r t.
Proof.
  induction t as [|r' t IH]; cbn; [discriminate|].
  destruct (decide (row_key r' = k)) as [E|E].
  - intros [= ->]. auto.
  - intros H. destruct (IH H). auto.
Qed.

Lemma find_row_None (k : string * string) (t : list Row) :
  find_row k t = None <-> ~ In k (map row_key t).
Proof.
  induction t as [|r' t IH]; cbn; [tauto|].
  destruct (decide (row_key r' = k)) as [E|E].
  - split; [discriminate|]. intros H. exfalso. apply H. now left.
  - rewrite IH. tauto.
Qed.

(** After an upsert at [k], the item at [k] carries the attributes [f]
    produced; the items at other keys are as before.  This holds for any
    table, ordered or not. *)
Lemma find_row_upsert_eq (k : string * string) (f : Item -> Item) (t : list Row) :
  exists a, find_row k (upsert k f t) = Some (mkRow k.1 k.2 (f a)).
Proof.
  assert (Hk : forall a, row_key (mkRow k.1 k.2 a) = k) by (now destruct k).
  induction t as [|r t IH]; cbn [upsert].
  - exists ∅. cbn [find_row]. now rewrite decide_True by apply Hk.
  - destruct (key_compare k (row_key r)) eqn:E.
    + apply key_compare_eq in E. subst k. exists (row_attrs r).
      cbn [find_row]. now rewrite decide_True by reflexivity.
    + exists ∅. cbn [find_row]. now rewrite decide_True by apply Hk.
    + cbn [find_row]. rewrite decide_False; [exact IH|].
      intros Hr. rewrite <- Hr in E. now rewrite key_compare_refl in E.
Qed.

Lemma find_row_upsert_ne (k k' : string * string) (f : Item -> Item) (t : list Row) :
  k <> k' -> find_row k' (upsert k f t) = find_row k' t.
Proof.
  intros Hne.
  assert (Hk : forall a, row_key (mkRow k.1 k.2 a) <> k') by (now destruct k).
  induction t as [|r t IH]; cbn [upsert].
  - cbn [find_row]. now rewrite decide_False by apply Hk.
  - destruct (key_compare k (row_key r)) eqn:E.
    + apply key_compare_eq in E. subst k. cbn [find_row].
      rewrite decide_False by exact Hne.
      now rewrite decide_False by exact Hne.
    + cbn [find_row]. now rewrite (decide_False _ _ (Hk _)).
    + cbn [find_row]. now rewrite IH.
Qed.

Lemma pointer_find (t : list Row) (k : string * string) :
  pointer t k =
  match find_row k t with
  | Some r => row_attrs r !! "ObjectKey"
  | None => None
  end.
Proof.
  unfold pointer, current_item. destruct (find_row k t) as [r|]; [|reflexivity].
  unfold item_of_row. now rewrite !lookup_insert_ne by discriminate.
Qed.

Lemma pointer_upsert_eq (k : string * string) (v : AttributeValue) (t : list Row) :
  pointer (upsert k (insert "ObjectKey" v) t) k = Some v.
Proof.
  rewrite pointer_find.
  destruct (find_row_upsert_eq k (insert "ObjectKey" v) t) as [a ->]. cbn.
  apply lookup_insert_eq.
Qed.

Lemma pointer_upsert_ne (k k' : string * string) (f : Item -> Item) (t : list Row) :
  k <> k' -> pointer (upsert k f t) k' = pointer t k'.
Proof. intros H. rewrite !pointer_find. now rewrite find_row_upsert_ne. Qed.

(** Setting an attribute other than [Pattern] of an item that exists
    leaves every registration as it was. *)
Lemma upsert_registrations (k : string * string) (a : string) (v : AttributeValue)
    (t : list Row) :
  a <> "Pattern" ->
  wf_table t ->
  In k (map row_key t) ->
  map registration (upsert k (insert a v) t) = map registration t.
Proof.
  intros Ha. induction t as [|r t IH]; intros Hwf Hin; [destruct Hin|].
  apply StronglySorted_cons in Hwf as [Hall Hwf]. cbn [upsert].
  destruct (key_compare k (row_key r)) eqn:E.
  - cbn [map]. f_equal. unfold registration, row_key. cbn.
    now rewrite lookup_insert_ne.
  - exfalso. destruct Hin as [Hin|Hin].
    + rewrite Hin, key_compare_refl in E. discriminate.
    + apply in_map_iff in Hin as (r' & <- & Hr').
      rewrite Forall_forall in Hall. apply list_elem_of_In in Hr'.
      specialize (Hall r' Hr'). unfold row_lt in Hall.
      eapply key_lt_irrefl, key_lt_trans; [exact E|exact Hall].
  - cbn [map]. f_equal. apply IH; [assumption|].
    destruct Hin as [Hin|Hin]; [|assumption].
    rewrite Hin, key_compare_refl in E. discriminate.
Qed.

(** ** Facts about pages *)

Lemma in_rows_after (b : string) (start : option string) (t : list Row) (r : Row) :
  In r (rows_after b start t) <->
  In r t /\ row_bucket r = b /\
  match start with None => True | Some c => String.ltb c (row_channel r) = true end.
Proof.
  unfold rows_after. rewrite filter_In. unfold in_range.
  rewrite andb_true_iff, String.eqb_eq.
  destruct start; intuition.
Qed.

Lemma rows_after_sorted (b : string) (start : option string) (t : list Row) :
  wf_table t -> wf_table (rows_after b start t).
Proof.
  unfold wf_table, rows_after. induction 1 as [|r t Hs IH Hall]; cbn [List.filter].
  - constructor.
  - destruct (in_range b start r); [|assumption].
    constructor; [assumption|].
    rewrite List.Forall_forall in *. intros x Hx.
    apply filter_In in Hx as [Hx _]. auto.
Qed.

Lemma row_lt_same_bucket (r r' : Row) :
  row_bucket r = row_bucket r' ->
  row_lt r r' -> String.ltb (row_channel r) (row_channel r') = true.
Proof.
  unfold row_lt, key_lt, row_key. intros ->.
  rewrite key_compare_same_bucket. apply Bytes.ltb_lt.
Qed.

Lemma filter_none {A} (f : A -> bool) (l : list A) :
  (forall x, In x l -> f x = false) -> List.filter f l = [].
Proof.
  induction l as [|x l IH]; intros H; [reflexivity|]. cbn.
  rewrite (H x) by now left. apply IH. intros y Hy. apply H. now right.
Qed.

Lemma filter_all {A} (f : A -> bool) (l : list A) :
  (forall x, In x l -> f x = true) -> List.filter f l = l.
Proof.
  induction l as [|x l IH]; intros H; [reflexivity|]. cbn.
  rewrite (H x) by now left. f_equal. apply IH. intros y Hy. apply H. now right.
Qed.

(** Resuming after the last item of a page gives what the page left. *)
Lemma rows_after_next (b : string) (start : option string) (t : list Row)
    (l1 l2 : list Row) (r : Row) :
  wf_table t ->
  rows_after b start t = (l1 ++ r :: l2)%list ->
  rows_after b (Some (row_channel r)) t = l2.
Proof.
  intros Hwf Hrows.
  assert (Hr : In r (rows_after b start t)).
  { rewrite Hrows. apply in_or_app. right. now left. }
  apply in_rows_after in Hr as (_ & Hb & Hstart).
  assert (Hfilter : rows_after b (Some (row_channel r)) t =
          List.filter (fun x => String.ltb (row_channel r) (row_channel x))
                      (rows_after b start t)).
  { unfold rows_after. clear Hrows Hwf.
    induction t as [|x t IH]; [reflexivity|]. cbn [List.filter].
    assert (E : in_range b (Some (row_channel r)) x =
                in_range b start x && String.ltb (row_channel r) (row_channel x)).
    { unfold in_range. destruct (String.eqb (row_bucket x) b); [|reflexivity].
      cbn [andb]. destruct start as [c|]; [|reflexivity].
      destruct (String.ltb (row_channel r) (row_channel x)) eqn:E1.
      - now rewrite (Bytes.ltb_trans _ _ _ Hstart E1).
      - now rewrite andb_false_r. }
    rewrite E. destruct (in_range b start x); cbn [andb List.filter].
    - destruct (String.ltb (row_channel r) (row_channel x)); now rewrite IH.
    - exact IH. }
  rewrite Hfilter, Hrows.
  pose proof (rows_after_sorted b start t Hwf) as Hs. rewrite Hrows in Hs.
  unfold wf_table in Hs.
  apply StronglySorted_app in Hs as (H12 & _ & Hs2).
  apply StronglySorted_cons in Hs2 as [Hall2 _].
  assert (Hbucket : forall x, In x (l1 ++ r :: l2)%list -> row_bucket x = b).
  { intros x Hx. rewrite <- Hrows in Hx. now apply in_rows_after in Hx. }
  rewrite List.filter_app. cbn [List.filter]. rewrite Bytes.ltb_irrefl.
  rewrite filter_none, filter_all; [reflexivity| |].
  - intros x Hx. apply row_lt_same_bucket.
    + rewrite Hb. symmetry. apply Hbucket. apply in_or_app. right. now right.
    + rewrite Forall_forall in Hall2. apply Hall2. now apply list_elem_of_In.
  - intros x Hx. apply Bytes.ltb_asym, row_lt_same_bucket.
    + rewrite Hb. apply Hbucket. apply in_or_app. now left.
    + apply H12; [now apply list_elem_of_In|]. apply list_elem_of_In. now left.
Qed.

End Dynamo.

(* ===================================================================== *)
(** * The handler *)
(* ===================================================================== *)

Module LatestFiles.
Import Python Dynamo.

(** What an invocation can touch: the store behind the client [db], and
    the lines printed on standard output. *)
Record World : Type := mkWorld {
  store : db;
  stdout : list string
}.

(** Code that may print, call the store and raise. *)
Definition Py (A : Type) : Type := World -> outcome A * World.

#[global] Instance Py_ret : MRet Py := fun A a w => (Ret a, w).

#[global] Instance Py_bind : MBind Py := fun A B k m w =>
  match m w with
  | (Ret a, w') => k a w'
  | (Raise e, w') => (Raise e, w')
  | (Timeout, w') => (Timeout, w')
  end.

Definition lift {A} (o : outcome A) : Py A := fun w => (o, w).

Definition raise {A} (e : exn) : Py A := fun w => (Raise e, w).

(** [print(line)] *)
Definition print (line : string) : Py unit :=
  fun w => (Ret tt, mkWorld (store w) (stdout w ++ [line])).

(** [db.query(...)] and [db.update_item(...)] *)
Definition db_query (req : QueryRequest) : Py QueryResponse :=
  fun w => let (r, d) := query req (store w) in (r, mkWorld d (stdout w)).

Definition db_update_item (req : UpdateItemRequest) : Py unit :=
  fun w => let (r, d) := update_item req (store w) in (r, mkWorld d (stdout w)).

(** [try: body  except botocore.exceptions.ClientError as e: handler] *)
Definition try_except_ClientError {A} (body : Py A) (handler : string -> Py A) : Py A :=
  fun w =>
    match body w with
    | (Raise (ClientError code), w') => handler code w'
    | r => r
    end.

(** [for x in l: body] *)
Fixpoint for_each {A} (l : list A) (body : A -> Py unit) : Py unit :=
  match l with
  | [] => mret tt
  | x :: rest => body x;; for_each rest body
  end.

(** Subscripts on Python values and on items of the store. *)
Definition sub (x : json) (k : string) : Py json := lift (py_getitem x (IStr k)).
Definition sub0 (x : json) : Py json := lift (py_getitem x (IInt 0)).

Definition item_sub (i : Item) (k : string) : Py AttributeValue :=
  match i !! k with
  | Some v => mret v
  | None => raise (KeyError (JStr k))
  end.

(** [v['S']] on an attribute value *)
Definition av_sub_S (v : AttributeValue) : Py string :=
  match v with
  | AV_S s => mret s
  | _ => raise (KeyError (JStr "S"))
  end.

Definition av_has_S (v : AttributeValue) : bool :=
  match v with AV_S _ => true | _ => false end.

(** [{'S': v}] as a request parameter: [boto3] checks, before it sends
    anything, that [v] is a [str]. *)
Definition param_S (v : json) : Py AttributeValue :=
  match v with
  | JStr s => mret (AV_S s)
  | _ => raise ParamValidationError
  end.

Definition table_name : string := "LatestFiles".

Section Handler.
Context {L : Lib}.

(** Lines 80-86: check the record count, unwrap an SNS envelope, select
    the [s3] part of the record. *)
Definition normalize (event : json) : Py json :=
  records ← sub event "Records";
  n ← lift (py_len records);
  lift (py_assert (n =? 1)%Z);;
  records ← sub event "Records";
  record ← sub0 records;
  is_sns ← lift (py_in "Sns" record);
  event ← (if is_sns : bool then
             records ← sub event "Records";
             record ← sub0 records;
             sns ← sub record "Sns";
             message ← sub sns "Message";
             event ← lift (py_json_loads message);
             records ← sub event "Records";
             n ← lift (py_len records);
             lift (py_assert (n =? 1)%Z);;
             mret event
           else mret event);
  records ← sub event "Records";
  record ← sub0 records;
  sub record "s3".

(** [s3ev['bucket']['name']] and [s3ev['object']['key']] *)
Definition bucket_name (s3ev : json) : Py json :=
  bucket ← sub s3ev "bucket"; sub bucket "name".

Definition object_key (s3ev : json) : Py json :=
  object ← sub s3ev "object"; sub object "key".

(** Lines 87-91 *)
Definition banner (s3ev : json) : Py unit :=
  print "========================================";;
  name ← bucket_name s3ev;
  print ("Bucket:  " +:+ format_value name);;
  key ← object_key s3ev;
  print ("Key:     " +:+ format_value key);;
  print "========================================";;
  print EmptyString.

(** Lines 94-105 *)
Definition query_request (bucket : AttributeValue) (resume : option Item)
  : QueryRequest :=
  {| q_TableName := table_name;
     q_ProjectionExpression := ["Channel"; "Pattern"];
     q_KeyConditionExpression := KC_eq "#BKT" ":bucket";
     q_ExpressionAttributeValues := {[ ":bucket" := bucket ]};
     q_ExpressionAttributeNames := {[ "#BKT" := "Bucket" ]};
     q_ExclusiveStartKey := resume |}.

(** Lines 114-125 *)
Definition update_request (bucket channel key : AttributeValue)
  : UpdateItemRequest :=
  {| ui_TableName := table_name;
     ui_Key := <["Bucket" := bucket]> (<["Channel" := channel]> ∅);
     ui_UpdateExpression := SET "ObjectKey" ":key";
     ui_ConditionExpression :=
       CE_or (attribute_not_exists "ObjectKey") (CE_lt "ObjectKey" ":key");
     ui_ExpressionAttributeValues := {[ ":key" := key ]} |}.

(** Lines 107-130: the body of [for item in qr['Items']]. *)
Definition process_item (s3ev : json) (item : Item) : Py unit :=
  lift (py_assert (bool_decide (is_Some (item !! "Channel"))));;
  lift (py_assert (bool_decide (is_Some (item !! "Pattern"))));;
  pattern ← item_sub item "Pattern";
  lift (py_assert (av_has_S pattern));;
  pattern ← item_sub item "Pattern";
  pattern ← av_sub_S pattern;
  key ← object_key s3ev;
  found ← lift (re_search pattern key);
  if negb found then mret tt
  else
    try_except_ClientError
      (channel ← item_sub item "Channel";
       channel ← av_sub_S channel;
       print ("    Updating " +:+ channel +:+ "...");;
       name ← bucket_name s3ev;
       channel ← item_sub item "Channel";
       key ← object_key s3ev;
       bucket ← param_S name;
       key ← param_S key;
       db_update_item (update_request bucket channel key);;
       print "        OK")
      (fun code =>
         if negb (String.eqb code "ConditionalCheckFailedException")
         then raise (ClientError code)
         else print "        Already up to date.").

(** Lines 92-134: the paging loop.  [fuel] bounds the number of queries. *)
Fixpoint query_loop (fuel : nat) (s3ev : json) (resume : option Item) : Py unit :=
  match fuel with
  | O => fun w => (Timeout, w)
  | S fuel' =>
      name ← bucket_name s3ev;
      bucket ← param_S name;
      qr ← db_query (query_request bucket resume);
      for_each (Items qr) (process_item s3ev);;
      match LastEvaluatedKey qr with
      | Some k => query_loop fuel' s3ev (Some k)
      | None => mret tt
      end
  end.

(** The Channel Pointer Updater: lines 92-134, from [resume = {}]. *)
Definition apply (fuel : nat) (s3ev : json) : Py unit :=
  query_loop fuel s3ev None.

(** Lines 79-134.  [context], the Lambda context object, is never used. *)
Definition lambda_handler (fuel : nat) (event context : json) : Py unit :=
  s3ev ← normalize event;
  banner s3ev;;
  apply fuel s3ev.

End Handler.

(** Lines 140-151: the event built by the bootstrap entry point from a
    bucket name and an object key. *)
Definition direct_event (bucket key : string) : json :=
  JObj [("Records",
         JArr [JObj [("s3",
                      JObj [("bucket", JObj [("name", JStr bucket)]);
                            ("object", JObj [("key", JStr key)])])]])].

Definition creation_event (bucket key : string) : json :=
  JObj [("bucket", JObj [("name", JStr bucket)]);
        ("object", JObj [("key", JStr key)])].

(* --------------------------------------------------------------------- *)
(** ** The Normalizer *)
(* --------------------------------------------------------------------- *)

Section Normalizer.
Context {L : Lib}.

(** Running pure code leaves the world alone. *)
Lemma bind_lift {A B} (o : outcome A) (k : A -> Py B) (w : World) :
  (lift o ≫= k) w =
  match o with
  | Ret a => k a w
  | Raise e => (Raise e, w)
  | Timeout => (Timeout, w)
  end.
Proof. unfold mbind, Py_bind, lift. destruct o; reflexivity. Qed.

Lemma bind_sub {B} (x : json) (k : string) (f : json -> Py B) (w : World) :
  (sub x k ≫= f) w =
  match py_getitem x (IStr k) with
  | Ret a => f a w
  | Raise e => (Raise e, w)
  | Timeout => (Timeout, w)
  end.
Proof. apply bind_lift. Qed.

Lemma bind_sub0 {B} (x : json) (f : json -> Py B) (w : World) :
  (sub0 x ≫= f) w =
  match py_getitem x (IInt 0) with
  | Ret a => f a w
  | Raise e => (Raise e, w)
  | Timeout => (Timeout, w)
  end.
Proof. apply bind_lift. Qed.

Lemma bind_ret {A B} (a : A) (k : A -> Py B) (w : World) :
  (mret a ≫= k) w = k a w.
Proof. reflexivity. Qed.

Lemma bind_assoc {A B C} (m : Py A) (f : A -> Py B) (g : B -> Py C) (w : World) :
  ((m ≫= f) ≫= g) w = (m ≫= (fun a => f a ≫= g)) w.
Proof.
  unfold mbind, Py_bind. destruct (m w) as [[a|e|] w']; reflexivity.
Qed.

(** [effect_free m]: running [m] never touches the world, and what it
    returns does not depend on the world it runs in. *)
Definition effect_free {A} (m : Py A) : Prop :=
  exists o : outcome A, forall w : World, m w = (o, w).

Lemma effect_free_lift {A} (o : outcome A) : effect_free (lift o).
Proof. exists o. reflexivity. Qed.

Lemma effect_free_ret {A} (a : A) : effect_free (mret a : Py A).
Proof. exists (Ret a). reflexivity. Qed.

Lemma effect_free_bind {A B} (m : Py A) (k : A -> Py B) :
  effect_free m -> (forall a, effect_free (k a)) -> effect_free (m ≫= k).
Proof.
  intros [o Ho] Hk. destruct o as [a|e|].
  - destruct (Hk a) as [o' Ho']. exists o'. intros w.
    unfold mbind, Py_bind. rewrite Ho. apply Ho'.
  - exists (Raise e). intros w. unfold mbind, Py_bind. now rewrite Ho.
  - exists Timeout. intros w. unfold mbind, Py_bind. now rewrite Ho.
Qed.

Lemma effect_free_if {A} (b : bool) (m1 m2 : Py A) :
  effect_free m1 -> effect_free m2 -> effect_free (if b then m1 else m2).
Proof. destruct b; auto. Qed.

Lemma normalize_effect_free (event : json) : effect_free (normalize event).
Proof.
  unfold normalize, sub, sub0.
  repeat first
    [ apply effect_free_lift
    | apply effect_free_ret
    | apply effect_free_if
    | apply effect_free_bind; [|intros ?] ].
Qed.

(** [event['Records']] has exactly one element, [record]. *)
Definition single_record (event records record : json) : Prop :=
  py_getitem event (IStr "Records") = Ret records /\
  py_len records = Ret 1%Z /\
  py_getitem records (IInt 0) = Ret record.

(** [record] is an SNS envelope around the serialized payload [inner]. *)
Definition envelope_of (record inner : json) : Prop :=
  py_in "Sns" record = Ret true /\
  exists sns message,
    py_getitem record (IStr "Sns") = Ret sns /\
    py_getitem sns (IStr "Message") = Ret message /\
    py_json_loads message = Ret inner.

Ltac py_run :=
  repeat first
    [ rewrite bind_assoc
    | rewrite bind_sub | rewrite bind_sub0 | rewrite bind_lift
    | rewrite bind_ret
    | match goal with
      | H : ?x = _ |- context [ match ?x with _ => _ end ] => rewrite H
      | H : ?x = _ |- context [ if ?x then _ else _ ] => rewrite H
      end
    | progress cbn [py_assert] ].

Lemma normalize_bad_count (event records : json) (n : Z) (w : World) :
  py_getitem event (IStr "Records") = Ret records ->
  py_len records = Ret n ->
  n <> 1%Z ->
  normalize event w = (Raise AssertionError, w).
Proof.
  intros Hr Hn Hne. unfold normalize. py_run.
  destruct (Z.eqb_spec n 1) as [->|_]; [congruence|]. reflexivity.
Qed.

(** Without an envelope the result is whatever [record['s3']] gives. *)
Lemma normalize_direct (event records record : json) (w : World) :
  single_record event records record ->
  py_in "Sns" record = Ret false ->
  normalize event w = (py_getitem record (IStr "s3"), w).
Proof.
  intros (Hr & Hn & H0) Hin. unfold normalize. py_run.
  cbn. py_run. unfold sub, lift. reflexivity.
Qed.

(** An envelope with a bad inner record count. *)
Lemma normalize_envelope_bad_count
    (event records record inner irecords : json) (n : Z) (w : World) :
  single_record event records record ->
  envelope_of record inner ->
  py_getitem inner (IStr "Records") = Ret irecords ->
  py_len irecords = Ret n ->
  n <> 1%Z ->
  normalize event w = (Raise AssertionError, w).
Proof.
  intros (Hr & Hn & H0) (Hin & sns & msg & Hsns & Hmsg & Hload) Hir Hlen Hne.
  unfold normalize. py_run. cbn. py_run.
  destruct (Z.eqb_spec n 1) as [->|_]; [congruence|]. reflexivity.
Qed.

(** With an envelope the result is whatever [irecord['s3']] gives, where
    [irecord] is the single record of the inner payload: the inner record
    is not looked at for a second envelope. *)
Lemma normalize_envelope
    (event records record inner irecords irecord : json) (w : World) :
  single_record event records record ->
  envelope_of record inner ->
  single_record inner irecords irecord ->
  normalize event w = (py_getitem irecord (IStr "s3"), w).
Proof.
  intros (Hr & Hn & H0) (Hin & sns & msg & Hsns & Hmsg & Hload) (Hir & Hlen & Hi0).
  unfold normalize. py_run. cbn. py_run. unfold sub, lift. reflexivity.
Qed.

(** [record] is a dict without the key ['s3']. *)
Definition lacks_s3 (record : json) : Prop :=
  exists items, record = JObj items /\ dict_get "s3" items = None.

Lemma lacks_s3_KeyError (record : json) :
  lacks_s3 record -> py_getitem record (IStr "s3") = Raise (KeyError (JStr "s3")).
Proof. intros (items & -> & H). cbn. now rewrite H. Qed.

(** An exception in [normalize] is the outcome of the whole handler, and
    nothing has been printed or sent by then. *)
Lemma lambda_handler_normalize_raise
    (fuel : nat) (event context : json) (e : exn) (w : World) :
  normalize event w = (Raise e, w) ->
  lambda_handler fuel event context w = (Raise e, w).
Proof. intros H. unfold lambda_handler, mbind, Py_bind. now rewrite H. Qed.

End Normalizer.

(* --------------------------------------------------------------------- *)
(** ** The conditioned write *)
(* --------------------------------------------------------------------- *)

(** The precondition in the spec's words: the pointer is absent, or the
    stored pointer is strictly less than the new key, byte-wise. *)
Definition precondition (stored : option AttributeValue) (key : string) : Prop :=
  stored = None \/ exists s, stored = Some (AV_S s) /\ Bytes.lt s key.

Definition precondition_b (stored : option AttributeValue) (key : string) : bool :=
  match stored with
  | None => true
  | Some (AV_S s) => String.ltb s key
  | Some _ => false
  end.

Lemma precondition_spec (stored : option AttributeValue) (key : string) :
  precondition_b stored key = true <-> precondition stored key.
Proof.
  unfold precondition, Bytes.lt. destruct stored as [[s|n|b|]|]; cbn.
  - split; [intros H; right; eauto|]. intros [|(s' & [= ->] & H)]; [discriminate|auto].
  - split; [discriminate|]. intros [|(s' & [=] & _)]. discriminate.
  - split; [discriminate|]. intros [|(s' & [=] & _)]. discriminate.
  - split; [discriminate|]. intros [|(s' & [=] & _)]. discriminate.
  - split; auto.
Qed.

Lemma parse_key_pair (b c : string) :
  parse_key (<["Bucket" := AV_S b]> (<["Channel" := AV_S c]> ∅)) = Some (b, c).
Proof.
  unfold parse_key.
  rewrite lookup_insert_eq, lookup_insert_ne, lookup_insert_eq by discriminate.
  rewrite map_size_insert_None.
  2:{ rewrite lookup_insert_ne by discriminate. apply lookup_empty. }
  rewrite map_size_insert_None by apply lookup_empty.
  now rewrite map_size_empty.
Qed.

(** The handler's [ConditionExpression], evaluated on an item, is the
    precondition on the item's [ObjectKey]. *)
Lemma eval_cond_request (key : string) (item : Item) :
  eval_cond {[ ":key" := AV_S key ]}
            (CE_or (attribute_not_exists "ObjectKey") (CE_lt "ObjectKey" ":key"))
            item
  = Some (precondition_b (item !! "ObjectKey") key).
Proof.
  cbn. rewrite lookup_singleton_eq.
  destruct (item !! "ObjectKey") as [[s|n|b|]|]; reflexivity.
Qed.

Lemma run_update_request (b ch key : string) (t : list Row) :
  run_update (update_request (AV_S b) (AV_S ch) (AV_S key)) t =
  if precondition_b (pointer t (b, ch)) key
  then Ret (upsert (b, ch) (insert "ObjectKey" (AV_S key)) t)
  else Raise (ClientError ConditionalCheckFailedException).
Proof.
  unfold run_update, update_request. cbn -[eval_cond parse_key].
  rewrite parse_key_pair, lookup_singleton_eq, eval_cond_request.
  fold (pointer t (b, ch)).
  destruct (precondition_b (pointer t (b, ch)) key); reflexivity.
Qed.

(* --------------------------------------------------------------------- *)
(** ** One registration *)
(* --------------------------------------------------------------------- *)

Definition say (line : string) (w : World) : World :=
  mkWorld (store w) (stdout w ++ [line]).

Definition line_updating (channel : string) : string :=
  "    Updating " +:+ channel +:+ "...".
Definition line_ok : string := "        OK".
Definition line_current : string := "        Already up to date.".

(** Lines 112-130 for a matching registration: announce the channel, send
    the conditioned write, and report how it went. *)
Definition attempt (b ch key : string) (w : World) : outcome unit * World :=
  let w1 := say (line_updating ch) w in
  match update_item (update_request (AV_S b) (AV_S ch) (AV_S key)) (store w1) with
  | (Ret _, d) => (Ret tt, mkWorld d (stdout w1 ++ [line_ok]))
  | (Raise (ClientError code), d) =>
      if String.eqb code ConditionalCheckFailedException
      then (Ret tt, mkWorld d (stdout w1 ++ [line_current]))
      else (Raise (ClientError code), mkWorld d (stdout w1))
  | (Raise e, d) => (Raise e, mkWorld d (stdout w1))
  | (Timeout, d) => (Timeout, mkWorld d (stdout w1))
  end.

(** The answer of the store to the handler's conditioned write. *)
Lemma update_item_request (b ch key : string) (d : db) :
  let req := update_request (AV_S b) (AV_S ch) (AV_S key) in
  update_item req d =
  match update_faults d with
  | Some e :: rest =>
      (Raise e,
       mkDb (table d) (writes d ++ [(req, Raise e)]) (page_limits d)
            (query_faults d) rest)
  | _ =>
      if precondition_b (pointer (table d) (b, ch)) key
      then (Ret tt,
            mkDb (upsert (b, ch) (insert "ObjectKey" (AV_S key)) (table d))
                 (writes d ++ [(req, Ret tt)]) (page_limits d)
                 (query_faults d) (tail (update_faults d)))
      else (Raise (ClientError ConditionalCheckFailedException),
            mkDb (table d)
                 (writes d ++ [(req, Raise (ClientError ConditionalCheckFailedException))])
                 (page_limits d) (query_faults d) (tail (update_faults d)))
  end.
Proof.
  intros req. unfold update_item. subst req. rewrite run_update_request.
  destruct (update_faults d) as [|[e|] rest];
    destruct (precondition_b (pointer (table d) (b, ch)) key); reflexivity.
Qed.

(** Changing how the store will page and fail queries. *)
Definition repage (pl : list nat) (qf : list (option exn)) (w : World) : World :=
  mkWorld (mkDb (table (store w)) (writes (store w)) pl qf
                (update_faults (store w)))
          (stdout w).

Lemma repage_id (w : World) :
  repage (page_limits (store w)) (query_faults (store w)) w = w.
Proof. destruct w as [[] ?]. reflexivity. Qed.

Lemma repage_repage (pl pl' : list nat) (qf qf' : list (option exn)) (w : World) :
  repage pl qf (repage pl' qf' w) = repage pl qf w.
Proof. reflexivity. Qed.

(** A conditioned write neither reads nor changes the paging state. *)
Lemma attempt_repage (b ch key : string) (pl : list nat) (qf : list (option exn))
    (w : World) :
  attempt b ch key (repage pl qf w) =
  let (o, w') := attempt b ch key w in (o, repage pl qf w').
Proof.
  unfold attempt, say. cbn [store stdout repage].
  rewrite !update_item_request. cbn [update_faults table writes].
  destruct (update_faults (store w)) as [|[e|] rest].
  - destruct (precondition_b _ _); reflexivity.
  - destruct e; try reflexivity.
    destruct (String.eqb code _); reflexivity.
  - destruct (precondition_b _ _); reflexivity.
Qed.

Section Registration.
Context {L : Lib}.

Lemma bucket_name_creation_event (b key : string) (w : World) :
  bucket_name (creation_event b key) w = (Ret (JStr b), w).
Proof. reflexivity. Qed.

Lemma object_key_creation_event (b key : string) (w : World) :
  object_key (creation_event b key) w = (Ret (JStr key), w).
Proof. reflexivity. Qed.

(** What [process_item] does, case by case, on an event with string
    identifiers. *)
Lemma process_item_eq (b key : string) (item : Item) (w : World) :
  process_item (creation_event b key) item w =
  match item !! "Channel", item !! "Pattern" with
  | None, _ => (Raise AssertionError, w)
  | Some _, None => (Raise AssertionError, w)
  | Some chv, Some (AV_S p) =>
      match re_compile p with
      | None => (Raise re_error, w)
      | Some rx =>
          if regex_search rx key then
            match chv with
            | AV_S ch => attempt b ch key w
            | _ => (Raise (KeyError (JStr "S")), w)
            end
          else (Ret tt, w)
      end
  | Some _, Some _ => (Raise AssertionError, w)
  end.
Proof.
  unfold process_item.
  destruct (item !! "Channel") as [chv|] eqn:Hch; [|reflexivity].
  destruct (item !! "Pattern") as [pat|] eqn:Hpat; [|reflexivity].
  rewrite bind_lift. cbn [py_assert bool_decide].
  rewrite bool_decide_eq_true_2 by eauto. cbn [py_assert].
  rewrite bind_lift. rewrite bool_decide_eq_true_2 by eauto. cbn [py_assert].
  unfold item_sub. rewrite Hpat, Hch. rewrite bind_ret.
  destruct pat as [p|n|bb|]; try reflexivity.
  rewrite bind_lift. cbn [av_has_S py_assert]. rewrite !bind_ret.
  cbn [av_sub_S]. rewrite bind_ret.
  unfold mbind at 1. unfold Py_bind at 1. rewrite object_key_creation_event.
  rewrite bind_lift. unfold re_search.
  destruct (re_compile p) as [rx|]; [|reflexivity].
  destruct (regex_search rx key); [|reflexivity].
  cbn [negb]. unfold try_except_ClientError.
  destruct chv as [ch|n|bb|]; try reflexivity.
  unfold attempt, say, db_update_item, print, line_updating.
  unfold mbind, Py_bind, mret, Py_ret.
  cbn -[update_item update_request String.eqb append bucket_name object_key].
  rewrite bucket_name_creation_event, object_key_creation_event.
  cbn -[update_item update_request String.eqb append].
  destruct (update_item _ _) as [[[]|e|] d].
  - reflexivity.
  - destruct e; try reflexivity.
    unfold ConditionalCheckFailedException, raise.
    destruct (String.eqb code _); reflexivity.
  - reflexivity.
Qed.

Lemma process_item_repage (b key : string) (item : Item)
    (pl : list nat) (qf : list (option exn)) (w : World) :
  process_item (creation_event b key) item (repage pl qf w) =
  let (o, w') := process_item (creation_event b key) item w in
  (o, repage pl qf w').
Proof.
  rewrite !process_item_eq.
  destruct (item !! "Channel") as [chv|]; [|reflexivity].
  destruct (item !! "Pattern") as [[p|n|bb|]|]; try reflexivity.
  destruct (re_compile p) as [rx|]; [|reflexivity].
  destruct (regex_search rx key); [|reflexivity].
  destruct chv; try reflexivity. apply attempt_repage.
Qed.

(** ** The loop over a page *)

Lemma for_each_nil {A} (body : A -> Py unit) (w : World) :
  for_each [] body w = (Ret tt, w).
Proof. reflexivity. Qed.

Lemma for_each_cons {A} (x : A) (l : list A) (body : A -> Py unit) (w : World) :
  for_each (x :: l) body w =
  match body x w with
  | (Ret _, w') => for_each l body w'
  | (Raise e, w') => (Raise e, w')
  | (Timeout, w') => (Timeout, w')
  end.
Proof. reflexivity. Qed.

(** A loop over [l1 ++ l2] runs [l1], and goes on with [l2] only when the
    loop over [l1] came to its end. *)
Lemma for_each_app {A} (l1 l2 : list A) (body : A -> Py unit) (w : World) :
  for_each (l1 ++ l2) body w =
  match for_each l1 body w with
  | (Ret _, w') => for_each l2 body w'
  | (Raise e, w') => (Raise e, w')
  | (Timeout, w') => (Timeout, w')
  end.
Proof.
  revert w. induction l1 as [|x l1 IH]; intros w; [reflexivity|].
  cbn [app]. rewrite !for_each_cons.
  destruct (body x w) as [[[]|e|] w']; auto.
Qed.

Lemma for_each_repage (b key : string) (items : list Item)
    (pl : list nat) (qf : list (option exn)) (w : World) :
  for_each items (process_item (creation_event b key)) (repage pl qf w) =
  let (o, w') := for_each items (process_item (creation_event b key)) w in
  (o, repage pl qf w').
Proof.
  revert w. induction items as [|item items IH]; intros w; [reflexivity|].
  rewrite !for_each_cons, process_item_repage.
  destruct (process_item _ item w) as [[[]|e|] w']; auto.
Qed.

End Registration.

(* --------------------------------------------------------------------- *)
(** ** The query and its pages *)
(* --------------------------------------------------------------------- *)

(** What the query returns for a stored item. *)
Definition reg_item (r : Row) : Item :=
  project ["Channel"; "Pattern"] (item_of_row r).

(** The continuation token after sort key [c] of partition [b]. *)
Definition resume_of (b : string) (start : option string) : option Item :=
  option_map (fun c => key_item (b, c)) start.

Lemma reg_item_eq (r : Row) :
  reg_item r =
  <["Channel" := AV_S (row_channel r)]>
    (match row_attrs r !! "Pattern" with
     | Some v => <["Pattern" := v]> ∅
     | None => ∅
     end).
Proof.
  unfold reg_item, project, item_of_row. cbn [fold_right].
  rewrite lookup_insert_ne, lookup_insert_eq by discriminate.
  now rewrite !lookup_insert_ne by discriminate.
Qed.

Lemma reg_item_Channel (r : Row) :
  reg_item r !! "Channel" = Some (AV_S (row_channel r)).
Proof. rewrite reg_item_eq. apply lookup_insert_eq. Qed.

Lemma reg_item_Pattern (r : Row) :
  reg_item r !! "Pattern" = row_attrs r !! "Pattern".
Proof.
  rewrite reg_item_eq, lookup_insert_ne by discriminate.
  destruct (row_attrs r !! "Pattern").
  - apply lookup_insert_eq.
  - apply lookup_empty.
Qed.

Lemma reg_item_registration (r r' : Row) :
  registration r = registration r' -> reg_item r = reg_item r'.
Proof.
  unfold registration, row_key. intros [= _ Hc Hp]. now rewrite !reg_item_eq, Hc, Hp.
Qed.

Lemma in_range_registration (b : string) (start : option string) (r r' : Row) :
  registration r = registration r' -> in_range b start r = in_range b start r'.
Proof. unfold registration, row_key, in_range. now intros [= -> -> _]. Qed.

(** The items a query returns depend on the registrations only. *)
Lemma page_items_registrations (b : string) (start : option string) (t t' : list Row) :
  map registration t = map registration t' ->
  map reg_item (rows_after b start t) = map reg_item (rows_after b start t').
Proof.
  revert t'. induction t as [|r t IH]; intros [|r' t']; cbn [map]; try discriminate.
  - reflexivity.
  - intros H. assert (Hr : registration r = registration r') by congruence.
    assert (Ht : map registration t = map registration t') by congruence.
    clear H. unfold rows_after. cbn [List.filter].
    rewrite (in_range_registration b start r r' Hr).
    destruct (in_range b start r'); cbn [map].
    + f_equal; [now apply reg_item_registration | now apply IH].
    + now apply IH.
Qed.

Lemma length_rows_registrations (b : string) (start : option string) (t t' : list Row) :
  map registration t = map registration t' ->
  length (rows_after b start t) = length (rows_after b start t').
Proof.
  intros H. apply (page_items_registrations b start) in H.
  apply (f_equal (@length _)) in H. now rewrite !length_map in H.
Qed.

Lemma run_query_request (b : string) (start : option string) (limit : option nat)
    (t : list Row) :
  run_query (query_request (AV_S b) (resume_of b start)) limit t =
  let (page, lek) := cut_page limit (rows_after b start t) in
  Ret (mkResponse (map reg_item page) lek).
Proof.
  unfold run_query, query_request.
  cbn [q_TableName q_KeyConditionExpression q_ExpressionAttributeNames
       q_ExpressionAttributeValues q_ExclusiveStartKey q_ProjectionExpression].
  change (negb (String.eqb table_name the_table)) with false. cbn match.
  rewrite !lookup_singleton_eq.
  destruct start as [c|]; cbn [resume_of option_map].
  - unfold key_item. cbn [fst snd]. rewrite parse_key_pair, String.eqb_refl.
    destruct (cut_page limit (rows_after b (Some c) t)). reflexivity.
  - destruct (cut_page limit (rows_after b None t)). reflexivity.
Qed.

Lemma db_query_request (b : string) (start : option string) (w : World) :
  db_query (query_request (AV_S b) (resume_of b start)) w =
  match query_faults (store w) with
  | Some e :: rest => (Raise e, repage (page_limits (store w)) rest w)
  | _ =>
      (let (page, lek) :=
         cut_page (head (page_limits (store w)))
                  (rows_after b start (table (store w))) in
       Ret (mkResponse (map reg_item page) lek),
       repage (tail (page_limits (store w))) (tail (query_faults (store w))) w)
  end.
Proof.
  unfold db_query, query.
  destruct (query_faults (store w)) as [|[e|] rest]; try reflexivity;
    now rewrite run_query_request.
Qed.

(** A page is everything that was left, or a proper prefix ending in the
    item whose key is the continuation token. *)
Lemma cut_page_cases (limit : option nat) (rows page : list Row) (lek : option Item) :
  cut_page limit rows = (page, lek) ->
  (page = rows /\ lek = None) \/
  (exists l1 r l2,
      rows = (l1 ++ r :: l2)%list /\ page = (l1 ++ [r])%list /\
      lek = Some (key_item (row_key r))).
Proof.
  unfold cut_page. destruct limit as [n|]; [|intros [= <- <-]; now left].
  destruct (Nat.leb (S n) (length rows)) eqn:E; [|intros [= <- <-]; now left].
  intros [= <- <-]. right. apply Nat.leb_le in E.
  destruct (last (take (S n) rows)) as [r|] eqn:Hlast.
  - apply last_Some in Hlast as [l1 Hl1].
    exists l1, r, (drop (S n) rows). split; [|split; [assumption|reflexivity]].
    rewrite <- (take_drop (S n) rows) at 1. rewrite Hl1.
    now rewrite <- app_assoc.
  - apply last_None in Hlast. apply (f_equal (@length _)) in Hlast.
    rewrite length_take in Hlast. cbn [length] in Hlast. lia.
Qed.

Section Paging.
Context {L : Lib}.

(** One turn of the [while True] loop. *)
Lemma query_loop_S (fuel : nat) (b key : string) (start : option string) (w : World) :
  query_loop (S fuel) (creation_event b key) (resume_of b start) w =
  match query_faults (store w) with
  | Some e :: rest => (Raise e, repage (page_limits (store w)) rest w)
  | _ =>
      let (page, lek) :=
        cut_page (head (page_limits (store w)))
                 (rows_after b start (table (store w))) in
      match for_each (map reg_item page) (process_item (creation_event b key))
                     (repage (tail (page_limits (store w)))
                             (tail (query_faults (store w))) w) with
      | (Ret _, w2) =>
          match lek with
          | Some k => query_loop fuel (creation_event b key) (Some k) w2
          | None => (Ret tt, w2)
          end
      | (Raise e, w2) => (Raise e, w2)
      | (Timeout, w2) => (Timeout, w2)
      end
  end.
Proof.
  cbn [query_loop]. unfold mbind at 1. unfold Py_bind at 1.
  rewrite bucket_name_creation_event. cbn [param_S].
  rewrite bind_ret. unfold mbind at 1. unfold Py_bind at 1.
  rewrite db_query_request.
  destruct (query_faults (store w)) as [|[e|] rest]; try reflexivity.
  - destruct (cut_page _ _) as [page lek]. cbn [Items LastEvaluatedKey].
    unfold mbind, Py_bind.
    destruct (for_each _ _ _) as [[[]|e|] w2]; try reflexivity.
    destruct lek; reflexivity.
  - destruct (cut_page _ _) as [page lek]. cbn [Items LastEvaluatedKey].
    unfold mbind, Py_bind.
    destruct (for_each _ _ _) as [[[]|e|] w2]; try reflexivity.
    destruct lek; reflexivity.
Qed.

(** A conditioned write on a registered channel changes no registration. *)
Lemma attempt_registrations (b ch key : string) (w w' : World) (o : outcome unit) :
  wf_table (table (store w)) ->
  In (b, ch) (map row_key (table (store w))) ->
  attempt b ch key w = (o, w') ->
  map registration (table (store w')) = map registration (table (store w)).
Proof.
  intros Hwf Hin. unfold attempt, say. cbn [store stdout].
  rewrite update_item_request.
  destruct (update_faults (store w)) as [|[e|] rest].
  - destruct (precondition_b _ _); intros [= <- <-]; cbn [store table];
      [now apply upsert_registrations|reflexivity].
  - destruct e; try (intros [= <- <-]; reflexivity).
    destruct (String.eqb code _); intros [= <- <-]; reflexivity.
  - destruct (precondition_b _ _); intros [= <- <-]; cbn [store table];
      [now apply upsert_registrations|reflexivity].
Qed.

Lemma process_row_registrations (b key : string) (r : Row) (w w' : World)
    (o : outcome unit) :
  wf_table (table (store w)) ->
  In (b, row_channel r) (map row_key (table (store w))) ->
  process_item (creation_event b key) (reg_item r) w = (o, w') ->
  map registration (table (store w')) = map registration (table (store w)).
Proof.
  intros Hwf Hin. rewrite process_item_eq, reg_item_Channel, reg_item_Pattern.
  destruct (row_attrs r !! "Pattern") as [[p|n|bb|]|]; try (intros [= <- <-]; reflexivity).
  destruct (re_compile p) as [rx|]; [|intros [= <- <-]; reflexivity].
  destruct (regex_search rx key); [|intros [= <- <-]; reflexivity].
  now apply attempt_registrations.
Qed.

Lemma for_each_rows_registrations (b key : string) (rows : list Row) :
  forall (w w' : World) (o : outcome unit),
  wf_table (table (store w)) ->
  (forall r, In r rows -> In (b, row_channel r) (map row_key (table (store w)))) ->
  for_each (map reg_item rows) (process_item (creation_event b key)) w = (o, w') ->
  map registration (table (store w')) = map registration (table (store w)).
Proof.
  induction rows as [|r rows IH]; intros w w' o Hwf Hin.
  - intros [= <- <-]. reflexivity.
  - cbn [map]. rewrite for_each_cons.
    destruct (process_item _ (reg_item r) w) as [o1 w1] eqn:E1.
    assert (H1 : map registration (table (store w1)) = map registration (table (store w))).
    { eapply process_row_registrations; [exact Hwf| |exact E1]. apply Hin. now left. }
    destruct o1 as [[]|e|]; try (intros [= <- <-]; exact H1).
    intros E2. rewrite <- H1. eapply IH; [| |exact E2].
    + eapply wf_table_registrations; [symmetry; exact H1|exact Hwf].
    + intros r' Hr'. rewrite map_row_key_registration, H1, <- map_row_key_registration.
      apply Hin. now right.
Qed.

Lemma rows_after_keys (b : string) (start : option string) (t : list Row) (r : Row) :
  In r (rows_after b start t) -> In (b, row_channel r) (map row_key t).
Proof.
  intros H. apply in_rows_after in H as (Hin & <- & _).
  apply in_map_iff. exists r. split; [reflexivity|assumption].
Qed.

(** The failure the next call of a kind will meet, if any. *)
Definition pending (faults : list (option exn)) : option exn :=
  match faults with
  | Some e :: _ => Some e
  | _ => None
  end.

Lemma query_loop_step (fuel : nat) (b key : string) (start : option string) (w : World) :
  query_loop (S fuel) (creation_event b key) (resume_of b start) w =
  match pending (query_faults (store w)) with
  | Some e =>
      (Raise e, repage (page_limits (store w)) (tail (query_faults (store w))) w)
  | None =>
      let (page, lek) :=
        cut_page (head (page_limits (store w)))
                 (rows_after b start (table (store w))) in
      match for_each (map reg_item page) (process_item (creation_event b key))
                     (repage (tail (page_limits (store w)))
                             (tail (query_faults (store w))) w) with
      | (Ret _, w2) =>
          match lek with
          | Some k => query_loop fuel (creation_event b key) (Some k) w2
          | None => (Ret tt, w2)
          end
      | (Raise e, w2) => (Raise e, w2)
      | (Timeout, w2) => (Timeout, w2)
      end
  end.
Proof.
  rewrite query_loop_S.
  destruct (query_faults (store w)) as [|[e|] rest]; reflexivity.
Qed.

Lemma pending_In (faults : list (option exn)) (e : exn) :
  pending faults = Some e -> In (Some e) faults.
Proof. destruct faults as [|[e'|] rest]; cbn; try discriminate. intros [= ->]. now left. Qed.

Lemma In_tail {A} (x : A) (l : list A) : In x (tail l) -> In x l.
Proof. destruct l; cbn; auto. Qed.

(** Paging is transparent: unless a query fails, the loop does what one
    pass over all the registrations of the bucket does, and differs only
    in what is left of the paging state. *)
Lemma query_loop_pages (b key : string) (fuel : nat) :
  forall (start : option string) (w : World),
  wf_table (table (store w)) ->
  length (rows_after b start (table (store w))) < fuel ->
  (exists pl qf,
      query_loop fuel (creation_event b key) (resume_of b start) w =
      let (o, w') :=
        for_each (map reg_item (rows_after b start (table (store w))))
                 (process_item (creation_event b key)) w in
      (o, repage pl qf w'))
  \/
  (exists e w',
      In (Some e) (query_faults (store w)) /\
      query_loop fuel (creation_event b key) (resume_of b start) w = (Raise e, w')).
Proof.
  induction fuel as [|fuel IH]; intros start w Hwf Hlen; [lia|].
  rewrite query_loop_step.
  destruct (pending (query_faults (store w))) as [e|] eqn:Hpend.
  { right. eexists e, _. split; [now apply pending_In|reflexivity]. }
  set (pl := tail (page_limits (store w))).
  set (qf := tail (query_faults (store w))).
  destruct (cut_page _ _) as [page lek] eqn:Hcut.
  rewrite for_each_repage.
  destruct (for_each (map reg_item page) _ w) as [o1 w2] eqn:Hfe.
  apply cut_page_cases in Hcut as [[-> ->] | (l1 & r & l2 & Hrows & -> & ->)].
  - left. exists pl, qf. rewrite Hfe. destruct o1 as [[]|e|]; reflexivity.
  - assert (Hsplit : rows_after b start (table (store w)) = ((l1 ++ [r]) ++ l2)%list).
    { rewrite Hrows, <- app_assoc. reflexivity. }
    rewrite Hsplit, map_app, for_each_app, Hfe.
    destruct o1 as [[]|e|]; [|left; exists pl, qf; reflexivity..].
    assert (Hregs : map registration (table (store w2)) =
                    map registration (table (store w))).
    { eapply for_each_rows_registrations; [exact Hwf| |exact Hfe].
      intros r' Hr'. apply (rows_after_keys b start). rewrite Hsplit.
      apply in_or_app. now left. }
    assert (Hb : row_bucket r = b).
    { assert (Hr : In r (rows_after b start (table (store w)))).
      { rewrite Hrows. apply in_or_app. right. now left. }
      now apply in_rows_after in Hr. }
    assert (Hnext : rows_after b (Some (row_channel r)) (table (store w)) = l2).
    { eapply rows_after_next; eassumption. }
    assert (Hkey : Some (key_item (row_key r)) = resume_of b (Some (row_channel r))).
    { unfold row_key. now rewrite Hb. }
    rewrite Hkey.
    destruct (IH (Some (row_channel r)) (repage pl qf w2)) as
      [(pl2 & qf2 & Heq) | (e & w3 & Hin & Heq)].
    + cbn [repage store table].
      eapply wf_table_registrations; [symmetry; exact Hregs|exact Hwf].
    + cbn [repage store table].
      rewrite (length_rows_registrations _ _ _ _ Hregs), Hnext.
      rewrite Hsplit, !length_app in Hlen. cbn [length] in Hlen. lia.
    + left. exists pl2, qf2. rewrite Heq. cbn [repage store table].
      rewrite for_each_repage.
      rewrite (page_items_registrations _ _ _ _ Hregs), Hnext.
      destruct (for_each (map reg_item l2) _ w2) as [o3 w3]. reflexivity.
    + right. exists e, w3. split; [|exact Heq].
      cbn [repage store query_faults] in Hin. now apply In_tail.
Qed.

End Paging.

(* --------------------------------------------------------------------- *)
(** ** Invariants of every run *)
(* --------------------------------------------------------------------- *)

(** [steps R m]: whatever [m] does and however it ends, the world it
    leaves is related by [R] to the world it started in. *)
Definition steps (R : World -> World -> Prop) {A} (m : Py A) : Prop :=
  forall w o w', m w = (o, w') -> R w w'.

Section Steps.
Variable R : World -> World -> Prop.
Hypothesis R_refl : forall w, R w w.
Hypothesis R_trans : forall w1 w2 w3, R w1 w2 -> R w2 w3 -> R w1 w3.

Lemma steps_ret {A} (a : A) : steps R (mret a : Py A).
Proof. intros w o w' [= <- <-]. apply R_refl. Qed.

Lemma steps_lift {A} (o : outcome A) : steps R (lift o).
Proof. intros w o' w' [= <- <-]. apply R_refl. Qed.

Lemma steps_raise {A} (e : exn) : steps R (raise e : Py A).
Proof. intros w o' w' [= <- <-]. apply R_refl. Qed.

Lemma steps_bind {A B} (m : Py A) (k : A -> Py B) :
  steps R m -> (forall a, steps R (k a)) -> steps R (m ≫= k).
Proof.
  intros Hm Hk w o w'. unfold mbind, Py_bind.
  destruct (m w) as [[a|e|] w1] eqn:E.
  - intros H. eapply R_trans; [eapply Hm, E|eapply Hk, H].
  - intros [= <- <-]. eapply Hm, E.
  - intros [= <- <-]. eapply Hm, E.
Qed.

Lemma steps_if {A} (b : bool) (m1 m2 : Py A) :
  steps R m1 -> steps R m2 -> steps R (if b then m1 else m2).
Proof. destruct b; auto. Qed.

Lemma steps_try {A} (body : Py A) (handler : string -> Py A) :
  steps R body -> (forall code, steps R (handler code)) ->
  steps R (try_except_ClientError body handler).
Proof.
  intros Hb Hh w o w'. unfold try_except_ClientError.
  destruct (body w) as [[a|e|] w1] eqn:E.
  - intros [= <- <-]. eapply Hb, E.
  - destruct e; try (intros [= <- <-]; eapply Hb, E).
    intros H. eapply R_trans; [eapply Hb, E|eapply Hh, H].
  - intros [= <- <-]. eapply Hb, E.
Qed.

Lemma steps_for_each {A} (l : list A) (body : A -> Py unit) :
  (forall x, steps R (body x)) -> steps R (for_each l body).
Proof.
  intros Hb. induction l as [|x l IH]; cbn [for_each].
  - apply steps_ret.
  - apply steps_bind; auto.
Qed.

Lemma steps_sub (x : json) (k : string) : steps R (sub x k).
Proof. apply steps_lift. Qed.

Lemma steps_item_sub (i : Item) (k : string) : steps R (item_sub i k).
Proof. unfold item_sub. destruct (i !! k); [apply steps_ret|apply steps_raise]. Qed.

Lemma steps_av_sub_S (v : AttributeValue) : steps R (av_sub_S v).
Proof. destruct v; first [apply steps_ret|apply steps_raise]. Qed.

(** After [param_S] the parameter is a string. *)
Lemma steps_bind_param_S {B} (v : json) (k : AttributeValue -> Py B) :
  (forall s, steps R (k (AV_S s))) -> steps R (param_S v ≫= k).
Proof.
  intros Hk. destruct v; cbn [param_S];
    try (intros w o w' [= <- <-]; apply R_refl).
  intros w o w'. rewrite bind_ret. apply Hk.
Qed.

Section Handler.
Context {L : Lib}.
Hypothesis R_print : forall line, steps R (print line).
Hypothesis R_query : forall req, steps R (db_query req).
Hypothesis R_update :
  forall bucket channel s,
    steps R (db_update_item (update_request bucket channel (AV_S s))).

Lemma steps_process_item (s3ev : json) (item : Item) :
  steps R (process_item s3ev item).
Proof.
  unfold process_item, object_key, bucket_name.
  repeat first
    [ apply steps_lift | apply steps_ret | apply steps_raise | apply steps_sub
    | apply steps_item_sub | apply steps_av_sub_S | apply R_print
    | apply R_update
    | apply steps_if | apply steps_try; [|intros ?]
    | apply steps_bind_param_S; intros ?
    | apply steps_bind; [|intros ?] ].
Qed.

Lemma steps_query_loop (fuel : nat) (s3ev : json) :
  forall resume, steps R (query_loop fuel s3ev resume).
Proof.
  induction fuel as [|fuel IH]; intros resume; cbn [query_loop].
  - intros w o w' [= <- <-]. apply R_refl.
  - unfold bucket_name.
    repeat first
      [ apply steps_sub | apply R_query
      | apply steps_for_each; intros ?; apply steps_process_item
      | apply steps_bind_param_S; intros ?
      | apply steps_bind; [|intros ?] ].
    destruct (LastEvaluatedKey _); [apply IH|apply steps_ret].
Qed.

Lemma steps_lambda_handler (fuel : nat) (event context : json) :
  steps R (lambda_handler fuel event context).
Proof.
  unfold lambda_handler, apply.
  apply steps_bind; [|intros s3ev; apply steps_bind; [|intros ?; apply steps_query_loop]].
  - intros w o w' H. destruct (normalize_effect_free event) as [o' Ho'].
    rewrite Ho' in H. injection H as <- <-. apply R_refl.
  - unfold banner, bucket_name, object_key.
    repeat first
      [ apply steps_sub | apply R_print
      | apply steps_bind; [|intros ?] ].
Qed.

End Handler.
End Steps.

(* --------------------------------------------------------------------- *)
(** ** Pointers never go back *)
(* --------------------------------------------------------------------- *)

(** [pointer_le p q]: a pointer [p] may become [q].  An absent pointer may
    become anything; a string may only become a string that is not
    smaller, byte-wise; a value of another type stays as it is. *)
Definition pointer_le (p q : option AttributeValue) : Prop :=
  match p with
  | None => True
  | Some (AV_S a) => exists c, q = Some (AV_S c) /\ Bytes.le a c
  | Some v => q = Some v
  end.

Lemma pointer_le_refl (p : option AttributeValue) : pointer_le p p.
Proof.
  destruct p as [[a|n|b|]|]; cbn; auto. exists a. split; [reflexivity|apply Bytes.le_refl].
Qed.

Lemma pointer_le_trans (p q r : option AttributeValue) :
  pointer_le p q -> pointer_le q r -> pointer_le p r.
Proof.
  destruct p as [[a|n|b|]|]; cbn; auto.
  - intros (c & -> & Hac). cbn. intros (d & -> & Hcd).
    exists d. split; [reflexivity|eapply Bytes.le_trans; eassumption].
  - intros ->. auto.
  - intros ->. auto.
  - intros ->. auto.
Qed.

(** The pointers of [w'] are those of [w], possibly advanced. *)
Definition advanced (w w' : World) : Prop :=
  forall k, pointer_le (pointer (table (store w)) k) (pointer (table (store w')) k).

Lemma advanced_refl (w : World) : advanced w w.
Proof. intros k. apply pointer_le_refl. Qed.

Lemma advanced_trans (w1 w2 w3 : World) :
  advanced w1 w2 -> advanced w2 w3 -> advanced w1 w3.
Proof. intros H1 H2 k. eapply pointer_le_trans; [apply H1|apply H2]. Qed.

Lemma advanced_same_table (w w' : World) :
  table (store w') = table (store w) -> advanced w w'.
Proof. intros H k. rewrite H. apply pointer_le_refl. Qed.

Lemma print_advanced (line : string) : steps advanced (print line).
Proof. intros w o w' [= <- <-]. now apply advanced_same_table. Qed.

Lemma db_query_advanced (req : QueryRequest) : steps advanced (db_query req).
Proof.
  intros w o w'. unfold db_query, query.
  destruct (query_faults (store w)) as [|[e|] rest]; intros [= <- <-];
    now apply advanced_same_table.
Qed.

(** A conditioned write that commits advances the pointer it is for. *)
Lemma precondition_advance (p : option AttributeValue) (key : string) :
  precondition_b p key = true -> pointer_le p (Some (AV_S key)).
Proof.
  destruct p as [[a|n|b|]|]; cbn; try discriminate; auto.
  intros H. exists key. split; [reflexivity|now apply Bytes.ltb_asym].
Qed.

Lemma parse_key_S (bucket channel : AttributeValue) (k : string * string) :
  parse_key (<["Bucket" := bucket]> (<["Channel" := channel]> ∅)) = Some k ->
  bucket = AV_S k.1 /\ channel = AV_S k.2.
Proof.
  unfold parse_key.
  rewrite lookup_insert_eq, lookup_insert_ne, lookup_insert_eq by discriminate.
  generalize (size (<["Bucket" := bucket]> (<["Channel" := channel]> (∅ : Item)))).
  intros n.
  destruct bucket as [b| | |]; try (intros H; discriminate H).
  destruct channel as [c| | |]; try (intros H; discriminate H).
  destruct (Nat.eqb n 2); intros H; [|discriminate H].
  injection H as <-. auto.
Qed.

Lemma run_update_advanced (bucket channel : AttributeValue) (s : string)
    (t t' : list Row) (k : string * string) :
  run_update (update_request bucket channel (AV_S s)) t = Ret t' ->
  pointer_le (pointer t k) (pointer t' k).
Proof.
  destruct (parse_key (ui_Key (update_request bucket channel (AV_S s)))) as [[b ch]|] eqn:Hk.
  - apply parse_key_S in Hk as [-> ->]. cbn [fst snd].
    rewrite run_update_request.
    destruct (precondition_b (pointer t (b, ch)) s) eqn:Hpre; [|discriminate].
    intros [= <-]. destruct (decide ((b, ch) = k)) as [<-|Hne].
    + rewrite pointer_upsert_eq. now apply precondition_advance.
    + rewrite pointer_upsert_ne by assumption. apply pointer_le_refl.
  - unfold run_update. rewrite Hk.
    destruct (negb _); discriminate.
Qed.

Lemma db_update_item_advanced (bucket channel : AttributeValue) (s : string) :
  steps advanced (db_update_item (update_request bucket channel (AV_S s))).
Proof.
  intros w o w'. unfold db_update_item, update_item.
  destruct (update_faults (store w)) as [|[e|] rest];
    try (intros [= <- <-]; now apply advanced_same_table).
  - destruct (run_update _ _) as [t'| |] eqn:E; intros [= <- <-];
      try (now apply advanced_same_table).
    intros k. cbn [store table]. eapply run_update_advanced, E.
  - destruct (run_update _ _) as [t'| |] eqn:E; intros [= <- <-];
      try (now apply advanced_same_table).
    intros k. cbn [store table]. eapply run_update_advanced, E.
Qed.

Section Monotone.
Context {L : Lib}.

(** Whatever the event, the paging, the failures and the outcome, an
    invocation only ever advances pointers. *)
Lemma lambda_handler_advanced (fuel : nat) (event context : json) :
  steps advanced (lambda_handler fuel event context).
Proof.
  apply steps_lambda_handler.
  - apply advanced_refl.
  - apply advanced_trans.
  - apply print_advanced.
  - apply db_query_advanced.
  - apply db_update_item_advanced.
Qed.

Lemma apply_advanced (fuel : nat) (s3ev : json) :
  steps advanced (apply fuel s3ev).
Proof.
  unfold apply. apply steps_query_loop.
  - apply advanced_refl.
  - apply advanced_trans.
  - apply print_advanced.
  - apply db_query_advanced.
  - apply db_update_item_advanced.
Qed.

End Monotone.

(* --------------------------------------------------------------------- *)
(** ** What a run that returns has done *)
(* --------------------------------------------------------------------- *)

(** The store never reports a failed precondition on its own: a failure
    it injects is some other error. *)
Definition honest (d : db) : Prop :=
  ~ In (Some (ClientError ConditionalCheckFailedException)) (update_faults d).

Section Effects.
Context {L : Lib}.

(** The registration's pattern is a valid regular expression that finds a
    match in [key]. *)
Definition row_matches (r : Row) (key : string) : bool :=
  match row_attrs r !! "Pattern" with
  | Some (AV_S p) =>
      match re_compile p with
      | Some rx => regex_search rx key
      | None => false
      end
  | _ => false
  end.

(** The effect on the world of processing registration [r] of bucket [b]
    for the new key, when the store answers the conditioned write. *)
Definition commit (b key : string) (w : World) (r : Row) : World :=
  if row_matches r key then
    let d := store w in
    let req := update_request (AV_S b) (AV_S (row_channel r)) (AV_S key) in
    if precondition_b (pointer (table d) (b, row_channel r)) key
    then mkWorld
           (mkDb (upsert (b, row_channel r) (insert "ObjectKey" (AV_S key)) (table d))
                 (writes d ++ [(req, Ret tt)]) (page_limits d) (query_faults d)
                 (tail (update_faults d)))
           ((stdout w ++ [line_updating (row_channel r)]) ++ [line_ok])
    else mkWorld
           (mkDb (table d)
                 (writes d ++ [(req, Raise (ClientError ConditionalCheckFailedException))])
                 (page_limits d) (query_faults d) (tail (update_faults d)))
           ((stdout w ++ [line_updating (row_channel r)]) ++ [line_current])
  else w.

Lemma honest_tail (d : db) (t : list Row) (ws : list (UpdateItemRequest * outcome unit)) :
  honest d ->
  honest (mkDb t ws (page_limits d) (query_faults d) (tail (update_faults d))).
Proof. unfold honest. cbn. intros H Hin. apply H. now apply In_tail. Qed.

Lemma commit_honest (b key : string) (w : World) (r : Row) :
  honest (store w) -> honest (store (commit b key w r)).
Proof.
  intros H. unfold commit. destruct (row_matches r key); [|assumption].
  destruct (precondition_b _ _); cbn [store]; now apply honest_tail.
Qed.

(** An attempt that returns, on an honest store, met no failure. *)
Lemma attempt_returns (b ch key : string) (w w' : World) :
  honest (store w) ->
  attempt b ch key w = (Ret tt, w') ->
  let d := store w in
  let req := update_request (AV_S b) (AV_S ch) (AV_S key) in
  w' =
  if precondition_b (pointer (table d) (b, ch)) key
  then mkWorld
         (mkDb (upsert (b, ch) (insert "ObjectKey" (AV_S key)) (table d))
               (writes d ++ [(req, Ret tt)]) (page_limits d) (query_faults d)
               (tail (update_faults d)))
         ((stdout w ++ [line_updating ch]) ++ [line_ok])
  else mkWorld
         (mkDb (table d)
               (writes d ++ [(req, Raise (ClientError ConditionalCheckFailedException))])
               (page_limits d) (query_faults d) (tail (update_faults d)))
         ((stdout w ++ [line_updating ch]) ++ [line_current]).
Proof.
  intros Hh. unfold attempt, say. cbn [store stdout].
  rewrite update_item_request.
  destruct (update_faults (store w)) as [|[e|] rest] eqn:Hf.
  - destruct (precondition_b _ _); intros [= <-]; reflexivity.
  - destruct e; try discriminate.
    destruct (String.eqb code ConditionalCheckFailedException) eqn:Hc; [|discriminate].
    apply String.eqb_eq in Hc. subst code. exfalso. apply Hh. rewrite Hf. now left.
  - destruct (precondition_b _ _); intros [= <-]; reflexivity.
Qed.

Lemma process_row_returns (b key : string) (r : Row) (w w' : World) :
  honest (store w) ->
  process_item (creation_event b key) (reg_item r) w = (Ret tt, w') ->
  w' = commit b key w r.
Proof.
  intros Hh. rewrite process_item_eq, reg_item_Channel, reg_item_Pattern.
  unfold commit, row_matches.
  destruct (row_attrs r !! "Pattern") as [[p|n|bb|]|]; try discriminate.
  destruct (re_compile p) as [rx|]; [|discriminate].
  destruct (regex_search rx key); [|now intros [= <-]].
  intros H. now apply attempt_returns in H.
Qed.

(** A pass over registrations that returns has committed each in turn. *)
Lemma for_each_rows_returns (b key : string) (rows : list Row) :
  forall w w',
  honest (store w) ->
  for_each (map reg_item rows) (process_item (creation_event b key)) w = (Ret tt, w') ->
  w' = fold_left (commit b key) rows w.
Proof.
  induction rows as [|r rows IH]; intros w w' Hh.
  - now intros [= <-].
  - cbn [map fold_left]. rewrite for_each_cons.
    destruct (process_item _ (reg_item r) w) as [[[]|e|] w1] eqn:E; try discriminate.
    apply process_row_returns in E; [|assumption]. subst w1.
    apply IH. now apply commit_honest.
Qed.

Lemma rows_after_length (b : string) (start : option string) (t : list Row) :
  length (rows_after b start t) <= length t.
Proof. apply List.filter_length_le. Qed.

(** An invocation of the updater that returns, on an honest store, has
    committed every registration of the bucket in turn. *)
Lemma apply_returns (b key : string) (fuel : nat) (w w' : World) :
  wf_table (table (store w)) ->
  length (table (store w)) < fuel ->
  honest (store w) ->
  apply fuel (creation_event b key) w = (Ret tt, w') ->
  exists pl qf,
    w' = repage pl qf
           (fold_left (commit b key) (rows_after b None (table (store w))) w).
Proof.
  intros Hwf Hfuel Hh Happ. unfold apply in Happ.
  destruct (query_loop_pages b key fuel None w Hwf) as
    [(pl & qf & Heq) | (e & w3 & _ & Heq)].
  - pose proof (rows_after_length b None (table (store w))). lia.
  - cbn [resume_of option_map] in Heq. rewrite Heq in Happ.
    destruct (for_each _ _ w) as [o w2] eqn:Hfe.
    injection Happ as -> <-.
    apply for_each_rows_returns in Hfe; [|assumption]. subst w2.
    now exists pl, qf.
  - cbn [resume_of option_map] in Heq. rewrite Heq in Happ. discriminate.
Qed.

(** *** Registrations are unique within a bucket *)

Lemma row_lt_irrefl (r : Row) : ~ row_lt r r.
Proof. apply key_lt_irrefl. Qed.

Lemma wf_table_NoDup (t : list Row) : wf_table t -> List.NoDup (map row_key t).
Proof.
  unfold wf_table. induction 1 as [|r t Hs IH Hall]; cbn [map]; constructor; auto.
  intros Hin. apply in_map_iff in Hin as (r' & Hk & Hr').
  rewrite List.Forall_forall in Hall. specialize (Hall r' Hr').
  unfold row_lt in Hall. rewrite Hk in Hall. now apply key_lt_irrefl in Hall.
Qed.

Lemma wf_find_row (t : list Row) (r : Row) :
  wf_table t -> In r t -> find_row (row_key r) t = Some r.
Proof.
  unfold wf_table. induction 1 as [|r' t Hs IH Hall]; [intros []|].
  intros [->|Hin]; cbn [find_row].
  - now rewrite decide_True.
  - rewrite decide_False; [auto|].
    intros Hk. rewrite List.Forall_forall in Hall. specialize (Hall r Hin).
    unfold row_lt in Hall. rewrite Hk in Hall. now apply key_lt_irrefl in Hall.
Qed.

(** *** The pointer after a run that returns *)

(** The pointer after a conditioned write of [key] was answered. *)
Definition pmax (p : option AttributeValue) (key : string) : option AttributeValue :=
  if precondition_b p key then Some (AV_S key) else p.

Lemma commit_pointer (b key : string) (w : World) (r : Row) (k : string * string) :
  pointer (table (store (commit b key w r))) k =
  if decide ((b, row_channel r) = k)
  then (if row_matches r key then pmax (pointer (table (store w)) k) key
        else pointer (table (store w)) k)
  else pointer (table (store w)) k.
Proof.
  unfold commit, pmax. destruct (row_matches r key); [|now destruct (decide _)].
  destruct (decide ((b, row_channel r) = k)) as [<-|Hne].
  - destruct (precondition_b _ _); cbn [store table]; [|reflexivity].
    apply pointer_upsert_eq.
  - destruct (precondition_b _ _); cbn [store table]; [|reflexivity].
    now apply pointer_upsert_ne.
Qed.

Lemma fold_commit_pointer_other (b key : string) (rows : list Row) (k : string * string) :
  forall w,
  (forall r, In r rows -> (b, row_channel r) <> k) ->
  pointer (table (store (fold_left (commit b key) rows w))) k =
  pointer (table (store w)) k.
Proof.
  induction rows as [|r rows IH]; intros w Hne; [reflexivity|].
  cbn [fold_left]. rewrite IH by (intros r' Hr'; apply Hne; now right).
  rewrite commit_pointer, decide_False; [reflexivity|]. apply Hne. now left.
Qed.

Lemma fold_commit_pointer_at (b key : string) (rows : list Row) (r : Row) :
  forall w,
  List.NoDup (map row_channel rows) ->
  In r rows ->
  pointer (table (store (fold_left (commit b key) rows w))) (b, row_channel r) =
  if row_matches r key
  then pmax (pointer (table (store w)) (b, row_channel r)) key
  else pointer (table (store w)) (b, row_channel r).
Proof.
  induction rows as [|r' rows IH]; intros w Hnd Hin; [destruct Hin|].
  cbn [map] in Hnd. apply List.NoDup_cons_iff in Hnd as [Hnotin Hnd].
  cbn [fold_left]. destruct Hin as [->|Hin].
  - rewrite fold_commit_pointer_other.
    + rewrite commit_pointer, decide_True by reflexivity. reflexivity.
    + intros r' Hr' [= Heq]. apply Hnotin. rewrite <- Heq.
      now apply in_map.
  - rewrite IH by assumption.
    rewrite commit_pointer, decide_False; [reflexivity|].
    intros [= Heq]. apply Hnotin. rewrite Heq. now apply in_map.
Qed.

Lemma rows_after_NoDup (b : string) (start : option string) (t : list Row) :
  wf_table t -> List.NoDup (map row_channel (rows_after b start t)).
Proof.
  intros Hwf. pose proof (rows_after_sorted b start t Hwf) as Hs.
  assert (Hb : forall r, In r (rows_after b start t) -> row_bucket r = b).
  { intros r Hr. now apply in_rows_after in Hr. }
  revert Hs Hb. generalize (rows_after b start t). unfold wf_table.
  induction 1 as [|r l Hs IH Hall]; intros Hb; cbn [map]; constructor.
  - intros Hin. apply in_map_iff in Hin as (r' & Hc & Hr').
    rewrite List.Forall_forall in Hall. specialize (Hall r' Hr').
    apply row_lt_same_bucket in Hall.
    + rewrite Hc, Bytes.ltb_irrefl in Hall. discriminate.
    + rewrite (Hb r), (Hb r'); [reflexivity|now right|now left].
  - apply IH. intros r' Hr'. apply Hb. now right.
Qed.

(** The pointer of every channel after an invocation that returned: the
    channels of the bucket whose pattern matches hold the greater of their
    old pointer and the new key; all the others are untouched. *)
Lemma apply_pointer (b key : string) (fuel : nat) (w w' : World) (k : string * string) :
  wf_table (table (store w)) ->
  length (table (store w)) < fuel ->
  honest (store w) ->
  apply fuel (creation_event b key) w = (Ret tt, w') ->
  pointer (table (store w')) k =
  match find_row k (table (store w)) with
  | Some r =>
      if String.eqb (row_bucket r) b && row_matches r key
      then pmax (pointer (table (store w)) k) key
      else pointer (table (store w)) k
  | None => pointer (table (store w)) k
  end.
Proof.
  intros Hwf Hfuel Hh Happ.
  destruct (apply_returns b key fuel w w' Hwf Hfuel Hh Happ) as (pl & qf & ->).
  cbn [repage store table].
  destruct (find_row k (table (store w))) as [r|] eqn:Hfind.
  - apply find_row_key in Hfind as [<- Hin].
    destruct (String.eqb_spec (row_bucket r) b) as [Hb|Hb]; cbn [andb].
    + unfold row_key. rewrite Hb.
      apply fold_commit_pointer_at; [now apply rows_after_NoDup|].
      apply in_rows_after. auto.
    + apply fold_commit_pointer_other. intros r' Hr' [= Hb' _]. congruence.
  - apply fold_commit_pointer_other. intros r' Hr' Hk.
    apply find_row_None in Hfind. apply Hfind. rewrite <- Hk.
    now apply (rows_after_keys b None).
Qed.

(** *** The writes and the report of a run that returns *)

(** The conditioned write for registration [r], with the answer the store
    gives it when the table is [t]. *)
Definition write_of (b key : string) (t : list Row) (r : Row)
  : UpdateItemRequest * outcome unit :=
  (update_request (AV_S b) (AV_S (row_channel r)) (AV_S key),
   if precondition_b (pointer t (b, row_channel r)) key
   then Ret tt
   else Raise (ClientError ConditionalCheckFailedException)).

(** The two lines printed for registration [r]. *)
Definition lines_of (b key : string) (t : list Row) (r : Row) : list string :=
  [line_updating (row_channel r);
   if precondition_b (pointer t (b, row_channel r)) key
   then line_ok else line_current].

Definition matching (key : string) (rows : list Row) : list Row :=
  List.filter (fun r => row_matches r key) rows.

Lemma commit_log (b key : string) (w : World) (r : Row) :
  writes (store (commit b key w r)) =
    (writes (store w) ++
     (if row_matches r key then [write_of b key (table (store w)) r] else []))%list /\
  stdout (commit b key w r) =
    (stdout w ++
     (if row_matches r key then lines_of b key (table (store w)) r else []))%list.
Proof.
  unfold commit, write_of, lines_of. destruct (row_matches r key).
  - destruct (precondition_b _ _); cbn [store writes stdout];
      rewrite <- app_assoc; auto.
  - now rewrite !app_nil_r.
Qed.

Lemma flat_map_ext_in' {A B} (f g : A -> list B) (l : list A) :
  (forall a, In a l -> f a = g a) -> flat_map f l = flat_map g l.
Proof.
  induction l as [|a l IH]; intros H; [reflexivity|]. cbn.
  rewrite (H a) by now left. f_equal. apply IH. intros x Hx. apply H. now right.
Qed.

Lemma fold_commit_log (b key : string) (rows : list Row) :
  forall w,
  List.NoDup (map row_channel rows) ->
  writes (store (fold_left (commit b key) rows w)) =
    (writes (store w) ++ map (write_of b key (table (store w))) (matching key rows))%list /\
  stdout (fold_left (commit b key) rows w) =
    (stdout w ++ flat_map (lines_of b key (table (store w))) (matching key rows))%list.
Proof.
  induction rows as [|r rows IH]; intros w Hnd.
  - cbn. now rewrite !app_nil_r.
  - cbn [map] in Hnd. apply List.NoDup_cons_iff in Hnd as [Hnotin Hnd].
    cbn [fold_left]. destruct (IH (commit b key w r) Hnd) as [Hw Hs].
    destruct (commit_log b key w r) as [Hw1 Hs1].
    assert (Hsame : forall r', In r' rows ->
              pointer (table (store (commit b key w r))) (b, row_channel r') =
              pointer (table (store w)) (b, row_channel r')).
    { intros r' Hr'. rewrite commit_pointer, decide_False; [reflexivity|].
      intros [= Heq]. apply Hnotin. rewrite Heq. now apply in_map. }
    assert (Hin : forall r', In r' (matching key rows) -> In r' rows).
    { intros r' Hr'. unfold matching in Hr'. now apply filter_In in Hr'. }
    assert (Hmap : map (write_of b key (table (store (commit b key w r))))
                       (matching key rows) =
                   map (write_of b key (table (store w))) (matching key rows)).
    { apply map_ext_in. intros r' Hr'. unfold write_of.
      now rewrite Hsame by (apply Hin, Hr'). }
    assert (Hflat : flat_map (lines_of b key (table (store (commit b key w r))))
                             (matching key rows) =
                    flat_map (lines_of b key (table (store w))) (matching key rows)).
    { apply flat_map_ext_in'. intros r' Hr'. unfold lines_of.
      now rewrite Hsame by (apply Hin, Hr'). }
    rewrite Hw, Hs, Hmap, Hflat, Hw1, Hs1, <- !app_assoc.
    unfold matching. cbn [List.filter].
    destruct (row_matches r key); cbn [app map flat_map]; split; reflexivity.
Qed.

(** The log and the output of an invocation that returned: one write and
    one pair of lines for each matching registration of the bucket, in the
    order of the table. *)
Lemma apply_log (b key : string) (fuel : nat) (w w' : World) :
  wf_table (table (store w)) ->
  length (table (store w)) < fuel ->
  honest (store w) ->
  apply fuel (creation_event b key) w = (Ret tt, w') ->
  let regs := matching key (rows_after b None (table (store w))) in
  writes (store w') =
    (writes (store w) ++ map (write_of b key (table (store w))) regs)%list /\
  stdout w' = (stdout w ++ flat_map (lines_of b key (table (store w))) regs)%list.
Proof.
  intros Hwf Hfuel Hh Happ.
  destruct (apply_returns b key fuel w w' Hwf Hfuel Hh Happ) as (pl & qf & ->).
  cbn [repage store writes stdout].
  apply fold_commit_log. now apply rows_after_NoDup.
Qed.

End Effects.

(* --------------------------------------------------------------------- *)
(** ** Invariants of every run of the updater on a well-formed table *)
(* --------------------------------------------------------------------- *)

Section Frame.
Context {L : Lib}.
Variables (b key : string).
Variable R : World -> World -> Prop.
Hypothesis R_refl : forall w, R w w.
Hypothesis R_trans : forall w1 w2 w3, R w1 w2 -> R w2 w3 -> R w1 w3.
Hypothesis R_registrations :
  forall w w', R w w' ->
    map registration (table (store w')) = map registration (table (store w)).
Hypothesis R_repage : forall pl qf w, R w (repage pl qf w).
Hypothesis R_attempt :
  forall w r o w',
    wf_table (table (store w)) ->
    In r (table (store w)) ->
    row_bucket r = b ->
    row_matches r key = true ->
    attempt b (row_channel r) key w = (o, w') ->
    R w w'.

Lemma process_row_invariant (r : Row) (w w' : World) (o : outcome unit) :
  wf_table (table (store w)) ->
  In r (table (store w)) ->
  row_bucket r = b ->
  process_item (creation_event b key) (reg_item r) w = (o, w') ->
  R w w'.
Proof.
  intros Hwf Hin Hb. rewrite process_item_eq, reg_item_Channel, reg_item_Pattern.
  pose proof (R_attempt w r) as Hatt. unfold row_matches in Hatt.
  destruct (row_attrs r !! "Pattern") as [[p|n|bb|]|];
    try (intros [= <- <-]; apply R_refl).
  destruct (re_compile p) as [rx|]; [|intros [= <- <-]; apply R_refl].
  destruct (regex_search rx key); [|intros [= <- <-]; apply R_refl].
  intros H. eapply Hatt; eauto.
Qed.

Lemma In_registrations (t t' : list Row) (r : Row) :
  map registration t = map registration t' ->
  In r t -> exists r', In r' t' /\ registration r' = registration r.
Proof.
  revert t'. induction t as [|x t IH]; intros [|x' t'] Heq; try discriminate;
    intros Hin; [destruct Hin|].
  cbn [map] in Heq.
  assert (Hx : registration x = registration x') by congruence.
  assert (Ht : map registration t = map registration t') by congruence.
  clear Heq. destruct Hin as [->|Hin].
  - exists x'. split; [now left|congruence].
  - destruct (IH t' Ht Hin) as (r' & Hr' & Hreg). exists r'. split; [now right|assumption].
Qed.

Lemma for_each_rows_invariant (rows : list Row) :
  forall w w' o,
  wf_table (table (store w)) ->
  (forall r, In r rows ->
     row_bucket r = b /\
     exists r', In r' (table (store w)) /\ registration r' = registration r) ->
  for_each (map reg_item rows) (process_item (creation_event b key)) w = (o, w') ->
  R w w'.
Proof.
  induction rows as [|r rows IH]; intros w w' o Hwf Hin.
  - intros [= <- <-]. apply R_refl.
  - cbn [map]. rewrite for_each_cons.
    destruct (process_item _ (reg_item r) w) as [o1 w1] eqn:E1.
    assert (H1 : R w w1).
    { destruct (Hin r) as (Hb & r' & Hr' & Hreg); [now left|].
      rewrite <- (reg_item_registration r' r Hreg) in E1.
      eapply process_row_invariant; [exact Hwf|exact Hr'| |exact E1].
      unfold registration, row_key in Hreg. congruence. }
    destruct o1 as [[]|e|]; try (intros [= <- <-]; exact H1).
    intros E2. eapply R_trans; [exact H1|].
    pose proof (R_registrations _ _ H1) as Hregs.
    eapply IH; [| |exact E2].
    + eapply wf_table_registrations; [symmetry; exact Hregs|exact Hwf].
    + intros r0 Hr0. destruct (Hin r0) as (Hb & r' & Hr' & Hreg); [now right|].
      split; [assumption|].
      destruct (In_registrations _ _ r' (eq_sym Hregs) Hr') as (r'' & Hr'' & Hreg'').
      exists r''. split; [assumption|congruence].
Qed.

(** The invariant holds however the loop ends: on a failed query or
    write, on an invalid registration, or out of fuel. *)
Lemma query_loop_invariant (fuel : nat) :
  forall (start : option string) (w w' : World) (o : outcome unit),
  wf_table (table (store w)) ->
  query_loop fuel (creation_event b key) (resume_of b start) w = (o, w') ->
  R w w'.
Proof.
  induction fuel as [|fuel IH]; intros start w w' o Hwf.
  - intros [= <- <-]. apply R_refl.
  - rewrite query_loop_step.
    destruct (pending (query_faults (store w))) as [e|].
    { intros [= <- <-]. apply R_repage. }
    destruct (cut_page _ _) as [page lek] eqn:Hcut.
    destruct (for_each _ _ _) as [o1 w2] eqn:Hfe.
    assert (Hpage : forall r, In r page -> In r (rows_after b start (table (store w)))).
    { apply cut_page_cases in Hcut as [[-> ->] | (l1 & r & l2 & Hrows & -> & ->)];
        [auto|].
      intros r' Hr'. rewrite Hrows. apply in_app_or in Hr' as [Hr'|[<-|[]]];
        apply in_or_app; [now left|right; now left]. }
    assert (H2 : R w w2).
    { eapply R_trans; [apply (R_repage (tail (page_limits (store w)))
                                        (tail (query_faults (store w))))|].
      eapply for_each_rows_invariant; [exact Hwf| |exact Hfe].
      intros r Hr. apply Hpage, in_rows_after in Hr as (Hin & Hb & _).
      split; [assumption|]. exists r. split; [exact Hin|reflexivity]. }
    destruct o1 as [[]|e|]; try (intros [= <- <-]; exact H2).
    destruct lek as [k|]; [|intros [= <- <-]; exact H2].
    apply cut_page_cases in Hcut as [[_ [=]] | (l1 & r & l2 & Hrows & _ & [= ->])].
    assert (Hb : row_bucket r = b).
    { assert (Hr : In r (rows_after b start (table (store w)))).
      { rewrite Hrows. apply in_or_app. right. now left. }
      now apply in_rows_after in Hr. }
    replace (Some (key_item (row_key r))) with (resume_of b (Some (row_channel r)))
      by (unfold row_key; now rewrite Hb).
    intros H. eapply R_trans; [exact H2|]. eapply IH; [|exact H].
    eapply wf_table_registrations; [symmetry; eapply R_registrations, H2|exact Hwf].
Qed.

End Frame.

(* --------------------------------------------------------------------- *)
(** ** What the updater never touches *)
(* --------------------------------------------------------------------- *)

Section Untouched.
Context {L : Lib}.
Variables (b key : string).

(** Channel [ch] of bucket [b] is registered in [t] with a pattern that
    matches [key]. *)
Definition matching_channel (t : list Row) (ch : string) : Prop :=
  exists r, In r t /\ row_key r = (b, ch) /\ row_matches r key = true.

(** [frame w w']: from [w] to [w'] no registration changed, every write
    sent and every channel announced was for a matching channel of the
    bucket, and the pointers of all other channels are as they were. *)
Definition frame (w w' : World) : Prop :=
  map registration (table (store w')) = map registration (table (store w)) /\
  (exists news,
      writes (store w') = (writes (store w) ++ news)%list /\
      Forall (fun x => exists ch,
                matching_channel (table (store w)) ch /\
                fst x = update_request (AV_S b) (AV_S ch) (AV_S key)) news) /\
  (exists lines,
      stdout w' = (stdout w ++ lines)%list /\
      Forall (fun l => l = line_ok \/ l = line_current \/
                exists ch, matching_channel (table (store w)) ch /\
                           l = line_updating ch) lines) /\
  (forall k, (forall ch, k = (b, ch) -> ~ matching_channel (table (store w)) ch) ->
             pointer (table (store w')) k = pointer (table (store w)) k).

Lemma row_matches_registration (r r' : Row) :
  registration r = registration r' -> row_matches r key = row_matches r' key.
Proof.
  intros H. apply (f_equal snd) in H. unfold registration in H. cbn [snd] in H.
  unfold row_matches. now rewrite H.
Qed.

Lemma matching_channel_registrations (t t' : list Row) (ch : string) :
  map registration t = map registration t' ->
  matching_channel t ch -> matching_channel t' ch.
Proof.
  intros Heq (r & Hin & Hk & Hm).
  destruct (In_registrations t t' r Heq Hin) as (r' & Hr' & Hreg).
  exists r'. split; [assumption|]. split.
  - unfold registration in Hreg. congruence.
  - now rewrite (row_matches_registration r' r Hreg).
Qed.

Lemma frame_refl (w : World) : frame w w.
Proof.
  split; [reflexivity|]. split; [|split].
  - exists []. split; [now rewrite app_nil_r|constructor].
  - exists []. split; [now rewrite app_nil_r|constructor].
  - reflexivity.
Qed.

Lemma frame_trans (w1 w2 w3 : World) : frame w1 w2 -> frame w2 w3 -> frame w1 w3.
Proof.
  intros (Hr1 & (n1 & Hw1 & Hn1) & (l1 & Hs1 & Hl1) & Hp1)
         (Hr2 & (n2 & Hw2 & Hn2) & (l2 & Hs2 & Hl2) & Hp2).
  assert (Hback : forall ch, matching_channel (table (store w2)) ch ->
                             matching_channel (table (store w1)) ch).
  { intros ch. now apply matching_channel_registrations. }
  split; [congruence|]. split; [|split].
  - exists (n1 ++ n2)%list. split; [rewrite Hw2, Hw1; now rewrite app_assoc|].
    apply Forall_app. split; [assumption|].
    eapply Forall_impl; [exact Hn2|]. intros x (ch & Hm & Hx). eauto.
  - exists (l1 ++ l2)%list. split; [rewrite Hs2, Hs1; now rewrite app_assoc|].
    apply Forall_app. split; [assumption|].
    eapply Forall_impl; [exact Hl2|].
    intros x [H|[H|(ch & Hm & Hx)]]; [now left|right; now left|].
    right. right. exists ch. split; [now apply Hback|assumption].
  - intros k Hk. rewrite Hp2, Hp1; [reflexivity|assumption|].
    intros ch Hch Hm. eapply Hk; eauto.
Qed.

Lemma frame_registrations (w w' : World) :
  frame w w' ->
  map registration (table (store w')) = map registration (table (store w)).
Proof. now intros [H _]. Qed.

Lemma frame_repage (pl : list nat) (qf : list (option exn)) (w : World) :
  frame w (repage pl qf w).
Proof.
  split; [reflexivity|]. split; [|split].
  - exists []. split; [cbn; now rewrite app_nil_r|constructor].
  - exists []. split; [cbn; now rewrite app_nil_r|constructor].
  - reflexivity.
Qed.

Lemma frame_attempt (w : World) (r : Row) (o : outcome unit) (w' : World) :
  wf_table (table (store w)) ->
  In r (table (store w)) ->
  row_bucket r = b ->
  row_matches r key = true ->
  attempt b (row_channel r) key w = (o, w') ->
  frame w w'.
Proof.
  intros Hwf Hin Hb Hm Hatt.
  assert (Hmc : matching_channel (table (store w)) (row_channel r)).
  { exists r. split; [assumption|]. split; [|assumption].
    unfold row_key. now rewrite Hb. }
  assert (Hkey : In (b, row_channel r) (map row_key (table (store w)))).
  { apply in_map_iff. exists r. split; [|assumption]. unfold row_key. now rewrite Hb. }
  assert (Hlines : forall last, (last = line_ok \/ last = line_current) ->
            Forall (fun l => l = line_ok \/ l = line_current \/
                      exists ch, matching_channel (table (store w)) ch /\
                                 l = line_updating ch)
                   [line_updating (row_channel r); last]).
  { intros last Hlast. constructor; [right; right; eauto|].
    constructor; [tauto|]. constructor. }
  assert (Hline : Forall (fun l => l = line_ok \/ l = line_current \/
                      exists ch, matching_channel (table (store w)) ch /\
                                 l = line_updating ch)
                   [line_updating (row_channel r)]).
  { constructor; [right; right; eauto|]. constructor. }
  assert (Hnew : forall ans : outcome unit,
            Forall (fun x : UpdateItemRequest * outcome unit => exists ch,
                      matching_channel (table (store w)) ch /\
                      fst x = update_request (AV_S b) (AV_S ch) (AV_S key))
                   [(update_request (AV_S b) (AV_S (row_channel r)) (AV_S key), ans)]).
  { intros ans. constructor; [simpl; eauto|]. constructor. }
  revert Hatt. unfold attempt, say. cbn [store stdout].
  rewrite update_item_request.
  assert (Hcommit :
    frame w (mkWorld
         (mkDb (upsert (b, row_channel r) (insert "ObjectKey" (AV_S key)) (table (store w)))
               (writes (store w) ++
                [(update_request (AV_S b) (AV_S (row_channel r)) (AV_S key), Ret tt)])
               (page_limits (store w)) (query_faults (store w))
               (tail (update_faults (store w))))
         ((stdout w ++ [line_updating (row_channel r)]) ++ [line_ok]))).
  { split; [|split; [|split]]; cbn [store table writes stdout].
    - now apply upsert_registrations.
    - eexists. split; [reflexivity|apply Hnew].
    - eexists. split; [now rewrite <- app_assoc|]. apply Hlines. now left.
    - intros k Hk. apply pointer_upsert_ne. intros <-. now apply (Hk (row_channel r)). }
  assert (Hkeep : forall (ans : outcome unit) uf lines,
    Forall (fun l => l = line_ok \/ l = line_current \/
              exists ch, matching_channel (table (store w)) ch /\
                         l = line_updating ch) lines ->
    frame w (mkWorld
         (mkDb (table (store w))
               (writes (store w) ++
                [(update_request (AV_S b) (AV_S (row_channel r)) (AV_S key), ans)])
               (page_limits (store w)) (query_faults (store w)) uf)
         (stdout w ++ lines))).
  { intros ans uf lines Hl. split; [|split; [|split]]; cbn [store table writes stdout].
    - reflexivity.
    - eexists. split; [reflexivity|apply Hnew].
    - eexists. split; [reflexivity|exact Hl].
    - reflexivity. }
  destruct (update_faults (store w)) as [|[e|] rest].
  - destruct (precondition_b _ _); intros [= <- <-]; [exact Hcommit|].
    rewrite <- app_assoc. apply Hkeep, Hlines. now right.
  - destruct e; try (intros [= <- <-]; apply Hkeep, Hline).
    destruct (String.eqb code _); intros [= <- <-].
    + rewrite <- app_assoc. apply Hkeep, Hlines. now right.
    + apply Hkeep, Hline.
  - destruct (precondition_b _ _); intros [= <- <-]; [exact Hcommit|].
    rewrite <- app_assoc. apply Hkeep, Hlines. now right.
Qed.

(** Every run of the updater on a well-formed table, however it ends,
    stays within the frame. *)
Lemma apply_frame (fuel : nat) (w w' : World) (o : outcome unit) :
  wf_table (table (store w)) ->
  apply fuel (creation_event b key) w = (o, w') ->
  frame w w'.
Proof.
  intros Hwf H. unfold apply in H.
  eapply (query_loop_invariant b key frame) with (start := None);
    [apply frame_refl|apply frame_trans|apply frame_registrations
    |apply frame_repage|apply frame_attempt|exact Hwf|exact H].
Qed.

(** In particular a run keeps the table well formed. *)
Lemma apply_wf (fuel : nat) (w w' : World) (o : outcome unit) :
  wf_table (table (store w)) ->
  apply fuel (creation_event b key) w = (o, w') ->
  wf_table (table (store w')).
Proof.
  intros Hwf H. apply apply_frame in H as [Hregs _]; [|assumption].
  eapply wf_table_registrations; [symmetry; exact Hregs|exact Hwf].
Qed.

End Untouched.

(* --------------------------------------------------------------------- *)
(** ** Sequences of invocations *)
(* --------------------------------------------------------------------- *)

(** The failures still to come are among those that were to come. *)
Definition faults_shrink (w w' : World) : Prop :=
  forall e, In e (update_faults (store w')) -> In e (update_faults (store w)).

Lemma faults_shrink_same (w w' : World) :
  update_faults (store w') = update_faults (store w) -> faults_shrink w w'.
Proof. intros H e. now rewrite H. Qed.

Lemma update_item_faults (req : UpdateItemRequest) (d d' : db) (o : outcome unit) :
  update_item req d = (o, d') ->
  update_faults d' = tail (update_faults d) \/ update_faults d' = update_faults d.
Proof.
  unfold update_item.
  destruct (update_faults d) as [|[e|] rest] eqn:Hf.
  - destruct (run_update req (table d)); intros [= <- <-]; cbn; auto.
  - intros [= <- <-]. cbn. auto.
  - destruct (run_update req (table d)); intros [= <- <-]; cbn; auto.
Qed.

Section Sequences.
Context {L : Lib}.

Lemma apply_faults_shrink (fuel : nat) (s3ev : json) :
  steps faults_shrink (apply fuel s3ev).
Proof.
  unfold apply. apply steps_query_loop.
  - intros w e. auto.
  - intros w1 w2 w3 H1 H2 e He. auto.
  - intros line w o w' [= <- <-]. now apply faults_shrink_same.
  - intros req w o w'. unfold db_query, query.
    destruct (query_faults (store w)) as [|[e|] rest]; intros [= <- <-];
      now apply faults_shrink_same.
  - intros bucket channel s w o w' H e He.
    unfold db_update_item in H.
    destruct (update_item _ (store w)) as [r d] eqn:E. injection H as <- <-.
    cbn [store] in He.
    destruct (update_item_faults _ _ _ _ E) as [Hu|Hu]; rewrite Hu in He;
      [now apply In_tail|assumption].
Qed.

Lemma apply_honest (fuel : nat) (s3ev : json) (w w' : World) (o : outcome unit) :
  apply fuel s3ev w = (o, w') -> honest (store w) -> honest (store w').
Proof.
  intros H Hh Hin. apply Hh. eapply apply_faults_shrink; eassumption.
Qed.

(** The events are delivered one after the other, whatever the outcome of
    each invocation. *)
Fixpoint deliver_all (fuel : nat) (events : list json) (w : World) : World :=
  match events with
  | [] => w
  | s3ev :: rest => deliver_all fuel rest (apply fuel s3ev w).2
  end.

(** Every invocation of the sequence returned. *)
Fixpoint all_returned (fuel : nat) (events : list json) (w : World) : Prop :=
  match events with
  | [] => True
  | s3ev :: rest =>
      (apply fuel s3ev w).1 = Ret tt /\
      all_returned fuel rest (apply fuel s3ev w).2
  end.

Lemma deliver_all_app (fuel : nat) (es1 es2 : list json) (w : World) :
  deliver_all fuel (es1 ++ es2) w = deliver_all fuel es2 (deliver_all fuel es1 w).
Proof. revert w. induction es1 as [|e es1 IH]; intros w; cbn; auto. Qed.

Lemma deliver_all_advanced (fuel : nat) (events : list json) (w : World) :
  advanced w (deliver_all fuel events w).
Proof.
  revert w. induction events as [|e es IH]; intros w; cbn [deliver_all].
  - apply advanced_refl.
  - eapply advanced_trans; [|apply IH].
    destruct (apply fuel e w) as [o w1] eqn:E. eapply apply_advanced, E.
Qed.

(** A creation event, as the pair of its identifiers. *)
Definition event_of (e : string * string) : json := creation_event e.1 e.2.

(** The registration [r] is in the event's collection and its pattern
    matches the event's object. *)
Definition concerns (r : Row) (e : string * string) : bool :=
  String.eqb (row_bucket r) e.1 && row_matches r e.2.

Lemma concerns_registration (r r' : Row) (e : string * string) :
  registration r = registration r' -> concerns r e = concerns r' e.
Proof.
  intros H. unfold concerns. rewrite (row_matches_registration _ _ _ H).
  unfold registration, row_key in H. now replace (row_bucket r') with (row_bucket r) by congruence.
Qed.

Lemma find_row_registrations (t t' : list Row) (k : string * string) (r : Row) :
  map registration t = map registration t' ->
  find_row k t = Some r ->
  exists r', find_row k t' = Some r' /\ registration r' = registration r.
Proof.
  revert t'. induction t as [|x t IH]; intros [|x' t'] Heq; try discriminate.
  cbn [map] in Heq.
  assert (Hx : registration x = registration x') by congruence.
  assert (Ht : map registration t = map registration t') by congruence.
  assert (Hk : row_key x = row_key x') by (unfold registration in Hx; congruence).
  cbn [find_row]. rewrite <- Hk.
  destruct (decide (row_key x = k)).
  - intros [= <-]. exists x'. auto.
  - now apply IH.
Qed.

Lemma length_registrations (t t' : list Row) :
  map registration t = map registration t' -> length t = length t'.
Proof. intros H. apply (f_equal (@length _)) in H. now rewrite !length_map in H. Qed.

(** After a sequence of invocations that all returned, the pointer of a
    registered channel is the result of folding [pmax] over the keys of
    the events that concern it. *)
Lemma deliver_all_pointer (fuel : nat) (k : string * string) (r : Row)
    (events : list (string * string)) :
  forall w,
  wf_table (table (store w)) ->
  honest (store w) ->
  length (table (store w)) < fuel ->
  all_returned fuel (map event_of events) w ->
  (exists r0, find_row k (table (store w)) = Some r0 /\
              registration r0 = registration r) ->
  pointer (table (store (deliver_all fuel (map event_of events) w))) k =
  fold_left pmax (map snd (List.filter (concerns r) events))
            (pointer (table (store w)) k).
Proof.
  induction events as [|[b key] events IH]; intros w Hwf Hh Hfuel Hall Hfind;
    [reflexivity|].
  cbn [map deliver_all all_returned] in *.
  change (event_of (b, key)) with (creation_event b key) in *.
  destruct (apply fuel (creation_event b key) w) as [o w1] eqn:E.
  cbn [fst snd] in Hall |- *. destruct Hall as [Ho Hall]. subst o.
  pose proof (apply_frame b key fuel w w1 _ Hwf E) as [Hregs _].
  destruct Hfind as (r0 & Hr0 & Hreg0).
  rewrite IH; [|eapply apply_wf; eassumption|eapply apply_honest; eassumption
               |now rewrite (length_registrations _ _ Hregs)|assumption|].
  - rewrite (apply_pointer b key fuel w w1 k Hwf Hfuel Hh E), Hr0.
    cbn [List.filter]. rewrite <- (concerns_registration r0 r (b, key) Hreg0).
    unfold concerns at 2. cbn [fst snd].
    destruct (String.eqb (row_bucket r0) b && row_matches r0 key); reflexivity.
  - destruct (find_row_registrations _ _ k r0 (eq_sym Hregs) Hr0) as (r1 & Hr1 & Hreg1).
    exists r1. split; [assumption|congruence].
Qed.

Lemma fold_pmax_S (keys : list string) (o : option string) :
  fold_left pmax keys (option_map AV_S o) =
  option_map AV_S (fold_left (fun o b => Some (Bytes.max_opt o b)) keys o).
Proof.
  revert o. induction keys as [|key keys IH]; intros o; [reflexivity|].
  cbn [fold_left]. rewrite <- IH. f_equal.
  destruct o as [a|]; cbn; [|reflexivity].
  unfold pmax, Bytes.max. cbn. destruct (String.ltb a key); reflexivity.
Qed.

Lemma fold_pmax_None (keys : list string) :
  fold_left pmax keys None = option_map AV_S (Bytes.maximum keys).
Proof. apply (fold_pmax_S keys None). Qed.

End Sequences.

(* --------------------------------------------------------------------- *)
(** ** Redelivery, failures in the middle of a pass, and single pages *)
(* --------------------------------------------------------------------- *)

Lemma append_String (c : ascii) (s t : string) :
  String c s +:+ t = String c (s +:+ t).
Proof. reflexivity. Qed.

Lemma length_append (s t : string) :
  String.length (s +:+ t) = String.length s + String.length t.
Proof.
  induction s as [|c s IH]; [reflexivity|].
  rewrite append_String. change (S (String.length (s +:+ t)) =
                                 S (String.length s + String.length t)).
  now rewrite IH.
Qed.

Lemma append_cancel_r (s1 s2 t : string) : s1 +:+ t = s2 +:+ t -> s1 = s2.
Proof.
  revert s2. induction s1 as [|c s1 IH]; intros [|c2 s2];
    rewrite ?append_String; change (EmptyString +:+ t) with t; intros H.
  - reflexivity.
  - apply (f_equal String.length) in H.
    change (String.length (String c2 (s2 +:+ t))) with (S (String.length (s2 +:+ t))) in H.
    rewrite length_append in H. lia.
  - apply (f_equal String.length) in H.
    change (String.length (String c (s1 +:+ t))) with (S (String.length (s1 +:+ t))) in H.
    rewrite length_append in H. lia.
  - injection H as -> H. f_equal. now apply IH.
Qed.

Lemma line_updating_inj (c1 c2 : string) :
  line_updating c1 = line_updating c2 -> c1 = c2.
Proof.
  unfold line_updating. intros H.
  apply (inj (String.append "    Updating ")) in H.
  now apply append_cancel_r in H.
Qed.

Lemma line_updating_not_ok (c : string) : line_updating c <> line_ok.
Proof.
  unfold line_updating, line_ok. rewrite !append_String. discriminate.
Qed.

Lemma line_updating_not_current (c : string) : line_updating c <> line_current.
Proof.
  unfold line_updating, line_current. rewrite !append_String. discriminate.
Qed.

Lemma update_request_channel (b c1 c2 key : string) :
  ui_Key (update_request (AV_S b) (AV_S c1) (AV_S key)) =
  ui_Key (update_request (AV_S b) (AV_S c2) (AV_S key)) -> c1 = c2.
Proof.
  cbn [ui_Key update_request]. intros H.
  apply (f_equal (fun m : Item => m !! "Channel")) in H.
  do 2 (rewrite lookup_insert_ne, lookup_insert_eq in H by discriminate).
  congruence.
Qed.

(** A write that raises has changed nothing but the log. *)
Lemma update_item_raises (req : UpdateItemRequest) (d d' : db) (e : exn) :
  update_item req d = (Raise e, d') ->
  table d' = table d /\ writes d' = (writes d ++ [(req, Raise e)])%list.
Proof.
  unfold update_item.
  destruct (update_faults d) as [|[e'|] rest].
  - destruct (run_update req (table d)); intros [= <- <-]; auto.
  - intros [= <- <-]. auto.
  - destruct (run_update req (table d)); intros [= <- <-]; auto.
Qed.

Lemma precondition_pmax (p : option AttributeValue) (key : string) :
  precondition_b (pmax p key) key = false.
Proof.
  unfold pmax. destruct (precondition_b p key) eqn:E; [|exact E].
  cbn. apply Bytes.ltb_irrefl.
Qed.

Section More.
Context {L : Lib}.

Lemma fold_commit_current (b key : string) (rows : list Row) :
  forall w,
  (forall r, In r rows -> row_matches r key = true ->
     precondition_b (pointer (table (store w)) (b, row_channel r)) key = false) ->
  table (store (fold_left (commit b key) rows w)) = table (store w).
Proof.
  induction rows as [|r rows IH]; intros w Hpre; [reflexivity|].
  cbn [fold_left].
  assert (Ht : table (store (commit b key w r)) = table (store w)).
  { unfold commit. destruct (row_matches r key) eqn:Hm; [|reflexivity].
    rewrite (Hpre r) by (auto; now left). reflexivity. }
  rewrite IH; [exact Ht|]. intros r' Hr' Hm'. rewrite Ht. apply Hpre; [now right|assumption].
Qed.

(** After an invocation that returned, no matching registration of the
    bucket satisfies the precondition any more. *)
Lemma apply_saturates (b key : string) (fuel : nat) (w w1 : World) (r : Row) :
  wf_table (table (store w)) ->
  length (table (store w)) < fuel ->
  honest (store w) ->
  apply fuel (creation_event b key) w = (Ret tt, w1) ->
  In r (table (store w1)) ->
  row_bucket r = b ->
  row_matches r key = true ->
  precondition_b (pointer (table (store w1)) (b, row_channel r)) key = false.
Proof.
  intros Hwf Hfuel Hh Happ Hin Hb Hm.
  pose proof (apply_frame b key fuel w w1 _ Hwf Happ) as [Hregs _].
  pose proof (apply_wf b key fuel w w1 _ Hwf Happ) as Hwf1.
  pose proof (wf_find_row _ _ Hwf1 Hin) as Hfind1.
  destruct (find_row_registrations _ _ _ _ Hregs Hfind1) as (r0 & Hr0 & Hreg0).
  replace (b, row_channel r) with (row_key r) by (unfold row_key; now rewrite Hb).
  rewrite (apply_pointer b key fuel w w1 (row_key r) Hwf Hfuel Hh Happ), Hr0.
  assert (Hc : String.eqb (row_bucket r0) b && row_matches r0 key = true).
  { rewrite (row_matches_registration key r0 r Hreg0), Hm, andb_true_r.
    apply String.eqb_eq. unfold registration, row_key in Hreg0. congruence. }
  rewrite Hc. apply precondition_pmax.
Qed.

(** When no query fails, the invocation is the pass over the
    registrations of the bucket: the ones before [r], then [r], then the
    ones after it if [r] let the pass go on. *)
Lemma apply_around (b key : string) (fuel : nat) (w w1 : World)
    (l1 l2 : list Row) (r : Row) :
  wf_table (table (store w)) ->
  length (table (store w)) < fuel ->
  Forall (fun f => f = None) (query_faults (store w)) ->
  rows_after b None (table (store w)) = (l1 ++ r :: l2)%list ->
  for_each (map reg_item l1) (process_item (creation_event b key)) w = (Ret tt, w1) ->
  exists pl qf,
    apply fuel (creation_event b key) w =
    let (o, w') :=
      match process_item (creation_event b key) (reg_item r) w1 with
      | (Ret _, w2) =>
          for_each (map reg_item l2) (process_item (creation_event b key)) w2
      | other => other
      end in
    (o, repage pl qf w').
Proof.
  intros Hwf Hfuel Hnf Hrows Hl1. unfold apply.
  destruct (query_loop_pages b key fuel None w Hwf) as
    [(pl & qf & Heq) | (e & w3 & Hin & _)].
  - pose proof (rows_after_length b None (table (store w))). lia.
  - exists pl, qf. cbn [resume_of option_map] in Heq. rewrite Heq, Hrows.
    rewrite map_app, for_each_app, Hl1. cbn [map]. rewrite for_each_cons.
    destruct (process_item _ (reg_item r) w1) as [[[]|e|] w2]; reflexivity.
  - rewrite List.Forall_forall in Hnf. specialize (Hnf _ Hin). discriminate.
Qed.

(** With nothing to cut pages, one query answers everything. *)
Lemma apply_single_page (b key : string) (fuel : nat) (w : World) :
  Forall (fun f => f = None) (query_faults (store w)) ->
  page_limits (store w) = [] ->
  apply (S fuel) (creation_event b key) w =
  for_each (map reg_item (rows_after b None (table (store w))))
           (process_item (creation_event b key))
           (repage [] (tail (query_faults (store w))) w).
Proof.
  intros Hnf Hpl. unfold apply.
  change None with (resume_of b None) at 1. rewrite query_loop_step.
  assert (Hp : pending (query_faults (store w)) = None).
  { destruct (query_faults (store w)) as [|[e|] rest]; try reflexivity.
    apply List.Forall_inv in Hnf. discriminate. }
  rewrite Hp, Hpl. cbn [head tail cut_page].
  destruct (for_each _ _ _) as [[[]|e|] w2]; reflexivity.
Qed.

End More.

(* ===================================================================== *)
(** * The properties of the specification *)
(* ===================================================================== *)

(** A payload delivered through SNS: one record, whose [Sns.Message] is
    the serialized inner payload. *)
Definition sns_event (message : string) : json :=
  JObj [("Records", JArr [JObj [("Sns", JObj [("Message", JStr message)])]])].

Ltac py_run :=
  repeat first
    [ rewrite bind_assoc
    | rewrite bind_sub | rewrite bind_sub0 | rewrite bind_lift
    | rewrite bind_ret
    | match goal with
      | H : ?x = _ |- context [ match ?x with _ => _ end ] => rewrite H
      | H : ?x = _ |- context [ if ?x then _ else _ ] => rewrite H
      end
    | progress cbn [py_assert] ].

Section Claims.
Context {L : Lib}.

(** C5.  [normalize] raises [AssertionError] (the spec's
    MalformedEventError) whenever the record count of the payload is not
    one; when the single record is an SNS envelope it re-parses the inner
    payload once, raises [AssertionError] when the inner record count is
    not one, and otherwise returns the [s3] part of the inner record; when
    the single record is not an envelope it returns the [s3] part of the
    record itself.  In both cases the bucket name and the object key of the
    result are the ones of the selected record, unchanged. *)
Theorem normalize_record_count (event : json) (w : World) :
  (forall records n,
      py_getitem event (IStr "Records") = Ret records ->
      py_len records = Ret n ->
      n <> 1%Z ->
      normalize event w = (Raise AssertionError, w)) /\
  (forall records record inner irecords n,
      single_record event records record ->
      envelope_of record inner ->
      py_getitem inner (IStr "Records") = Ret irecords ->
      py_len irecords = Ret n ->
      n <> 1%Z ->
      normalize event w = (Raise AssertionError, w)) /\
  (forall records record inner irecords irecord s3ev bucket name object key,
      single_record event records record ->
      envelope_of record inner ->
      single_record inner irecords irecord ->
      py_getitem irecord (IStr "s3") = Ret s3ev ->
      py_getitem s3ev (IStr "bucket") = Ret bucket ->
      py_getitem bucket (IStr "name") = Ret name ->
      py_getitem s3ev (IStr "object") = Ret object ->
      py_getitem object (IStr "key") = Ret key ->
      normalize event w = (Ret s3ev, w) /\
      bucket_name s3ev w = (Ret name, w) /\
      object_key s3ev w = (Ret key, w)) /\
  (forall records record s3ev bucket name object key,
      single_record event records record ->
      py_in "Sns" record = Ret false ->
      py_getitem record (IStr "s3") = Ret s3ev ->
      py_getitem s3ev (IStr "bucket") = Ret bucket ->
      py_getitem bucket (IStr "name") = Ret name ->
      py_getitem s3ev (IStr "object") = Ret object ->
      py_getitem object (IStr "key") = Ret key ->
      normalize event w = (Ret s3ev, w) /\
      bucket_name s3ev w = (Ret name, w) /\
      object_key s3ev w = (Ret key, w)).
Proof.
  assert (Hids : forall s3ev bucket name object key,
    py_getitem s3ev (IStr "bucket") = Ret bucket ->
    py_getitem bucket (IStr "name") = Ret name ->
    py_getitem s3ev (IStr "object") = Ret object ->
    py_getitem object (IStr "key") = Ret key ->
    bucket_name s3ev w = (Ret name, w) /\ object_key s3ev w = (Ret key, w)).
  { intros s3ev bucket name object key Hb Hn Ho Hk.
    unfold bucket_name, object_key. rewrite !bind_sub, Hb, Ho.
    unfold sub, lift. now rewrite Hn, Hk. }
  split; [|split; [|split]].
  - intros records n. apply normalize_bad_count.
  - intros records record inner irecords n. apply normalize_envelope_bad_count.
  - intros records record inner irecords irecord s3ev bucket name object key
      H1 H2 H3 Hs3 Hb Hn Ho Hk.
    split; [|now apply (Hids s3ev bucket name object key)].
    rewrite (normalize_envelope _ _ _ _ _ _ w H1 H2 H3). now rewrite Hs3.
  - intros records record s3ev bucket name object key H1 H2 Hs3 Hb Hn Ho Hk.
    split; [|now apply (Hids s3ev bucket name object key)].
    rewrite (normalize_direct _ _ _ w H1 H2). now rewrite Hs3.
Qed.

(** C8.  [normalize] has no effect and its result does not depend on the
    world it runs in: it leaves the store and the output as they are, so
    two runs on the same payload give the same outcome.  The identifiers
    of the result are those of the payload, byte for byte, both for a
    direct payload and for one unwrapped from an envelope. *)
Theorem normalize_pure :
  (forall event, exists o, forall w, normalize event w = (o, w)) /\
  (forall bucket key w,
      normalize (direct_event bucket key) w = (Ret (creation_event bucket key), w) /\
      bucket_name (creation_event bucket key) w = (Ret (JStr bucket), w) /\
      object_key (creation_event bucket key) w = (Ret (JStr key), w)) /\
  (forall message bucket key w,
      json_loads message = Ret (direct_event bucket key) ->
      normalize (sns_event message) w = (Ret (creation_event bucket key), w)).
Proof.
  split; [exact normalize_effect_free|]. split.
  - intros bucket key w. repeat split.
  - intros message bucket key w Hload.
    rewrite (normalize_envelope (sns_event message)
               (JArr [JObj [("Sns", JObj [("Message", JStr message)])]])
               (JObj [("Sns", JObj [("Message", JStr message)])])
               (direct_event bucket key)
               (JArr [JObj [("s3", creation_event bucket key)]])
               (JObj [("s3", creation_event bucket key)]) w).
    + reflexivity.
    + repeat split.
    + split; [reflexivity|].
      exists (JObj [("Message", JStr message)]), (JStr message).
      repeat split. exact Hload.
    + repeat split.
Qed.

(** C10.  When the record selected for extraction is a dict without the
    key ['s3'], the handler raises [KeyError('s3')], not [AssertionError],
    before printing or sending anything.  This is so for the record of a
    direct payload and for the single record of the payload unwrapped from
    an envelope, also when that inner record is itself an envelope: it is
    not unwrapped a second time. *)
Theorem missing_s3_is_KeyError (fuel : nat) (event context : json) (w : World) :
  (forall records record,
      single_record event records record ->
      py_in "Sns" record = Ret false ->
      lacks_s3 record ->
      lambda_handler fuel event context w = (Raise (KeyError (JStr "s3")), w)) /\
  (forall records record inner irecords irecord,
      single_record event records record ->
      envelope_of record inner ->
      single_record inner irecords irecord ->
      lacks_s3 irecord ->
      lambda_handler fuel event context w = (Raise (KeyError (JStr "s3")), w)) /\
  (forall records record inner irecords irecord inner2,
      single_record event records record ->
      envelope_of record inner ->
      single_record inner irecords irecord ->
      envelope_of irecord inner2 ->
      lacks_s3 irecord ->
      lambda_handler fuel event context w = (Raise (KeyError (JStr "s3")), w)) /\
  KeyError (JStr "s3") <> AssertionError.
Proof.
  split; [|split; [|split]].
  - intros records record H1 H2 H3. apply lambda_handler_normalize_raise.
    rewrite (normalize_direct _ _ _ w H1 H2). now rewrite lacks_s3_KeyError.
  - intros records record inner irecords irecord H1 H2 H3 H4.
    apply lambda_handler_normalize_raise.
    rewrite (normalize_envelope _ _ _ _ _ _ w H1 H2 H3). now rewrite lacks_s3_KeyError.
  - intros records record inner irecords irecord inner2 H1 H2 H3 _ H4.
    apply lambda_handler_normalize_raise.
    rewrite (normalize_envelope _ _ _ _ _ _ w H1 H2 H3). now rewrite lacks_s3_KeyError.
  - discriminate.
Qed.

(** C1.  Over any sequence of invocations of the updater, whatever the
    events and however each invocation ends, no stored pointer ever goes
    back in the byte-wise order.  When the table is well formed, the store
    honest, and every invocation of a sequence of creation events returned,
    a registered channel whose pointer was absent ends with the byte-wise
    greatest object key among the events of its collection that its pattern
    matches, and with no pointer when there is no such event. *)
Theorem pointer_monotone_greatest (fuel : nat) :
  (forall (events more : list json) (w : World) (k : string * string),
      pointer_le (pointer (table (store (deliver_all fuel events w))) k)
                 (pointer (table (store (deliver_all fuel (events ++ more) w))) k)) /\
  (forall (events : list (string * string)) (w : World) (k : string * string) (r : Row),
      wf_table (table (store w)) ->
      honest (store w) ->
      length (table (store w)) < fuel ->
      all_returned fuel (map event_of events) w ->
      find_row k (table (store w)) = Some r ->
      pointer (table (store w)) k = None ->
      exists m,
        Bytes.greatest (map snd (List.filter (concerns r) events)) m /\
        pointer (table (store (deliver_all fuel (map event_of events) w))) k =
        option_map AV_S m).
Proof.
  split.
  - intros events more w k. rewrite deliver_all_app. apply deliver_all_advanced.
  - intros events w k r Hwf Hh Hfuel Hall Hfind Hnone.
    exists (Bytes.maximum (map snd (List.filter (concerns r) events))).
    split; [apply Bytes.maximum_greatest|].
    rewrite (deliver_all_pointer fuel k r events w Hwf Hh Hfuel Hall) by eauto.
    rewrite Hnone. apply fold_pmax_None.
Qed.

(** C2.  The conditioned write the handler builds for channel [ch] of
    bucket [b] commits exactly when the stored pointer of [(b, ch)] is
    absent or strictly less than the new key, byte-wise, at the time the
    store answers: then the pointer becomes the new key; otherwise the
    store answers ConditionalCheckFailedException and the table is as it
    was.  An invocation that returns has sent exactly one such write for
    each registration of the bucket whose pattern matches, in table order,
    and no other write. *)
Theorem conditioned_write_exact :
  (forall (b ch key : string) (d : db),
      pending (update_faults d) = None ->
      let req := update_request (AV_S b) (AV_S ch) (AV_S key) in
      (precondition (pointer (table d) (b, ch)) key ->
         exists d', update_item req d = (Ret tt, d') /\
                    pointer (table d') (b, ch) = Some (AV_S key)) /\
      (~ precondition (pointer (table d) (b, ch)) key ->
         exists d', update_item req d =
                      (Raise (ClientError ConditionalCheckFailedException), d') /\
                    table d' = table d)) /\
  (forall (b key : string) (fuel : nat) (w w' : World),
      wf_table (table (store w)) ->
      length (table (store w)) < fuel ->
      honest (store w) ->
      apply fuel (creation_event b key) w = (Ret tt, w') ->
      let regs := matching key (rows_after b None (table (store w))) in
      List.NoDup (map row_channel regs) /\
      map fst (drop (length (writes (store w))) (writes (store w'))) =
      map (fun r => update_request (AV_S b) (AV_S (row_channel r)) (AV_S key)) regs /\
      take (length (writes (store w))) (writes (store w')) = writes (store w)).
Proof.
  split.
  - intros b ch key d Hpend req. subst req. rewrite update_item_request.
    assert (Hf : match update_faults d with Some e :: _ => False | _ => True end).
    { destruct (update_faults d) as [|[e|] rest]; cbn in Hpend; auto. discriminate. }
    split.
    + intros Hpre. apply precondition_spec in Hpre.
      destruct (update_faults d) as [|[e|] rest]; try contradiction;
        rewrite Hpre; eexists; (split; [reflexivity|]); cbn [table];
        apply pointer_upsert_eq.
    + intros Hpre. rewrite <- precondition_spec in Hpre.
      apply not_true_is_false in Hpre.
      destruct (update_faults d) as [|[e|] rest]; try contradiction;
        rewrite Hpre; eexists; (split; [reflexivity|]); reflexivity.
  - intros b key fuel w w' Hwf Hfuel Hh Happ regs.
    destruct (apply_log b key fuel w w' Hwf Hfuel Hh Happ) as [Hw _].
    fold regs in Hw. split; [|split].
    + pose proof (rows_after_NoDup b None _ Hwf) as Hnd. subst regs.
      revert Hnd. generalize (rows_after b None (table (store w))).
      induction l as [|r l IH]; intros Hnd; [constructor|].
      cbn [map] in Hnd. apply List.NoDup_cons_iff in Hnd as [Hnotin Hnd].
      unfold matching. cbn [List.filter].
      destruct (row_matches r key); [|now apply IH].
      cbn [map]. constructor; [|now apply IH].
      intros Hin. apply Hnotin. apply in_map_iff in Hin as (r' & Hc & Hr').
      apply filter_In in Hr' as [Hr' _]. apply in_map_iff. eauto.
    + rewrite Hw, drop_app_length, map_map. reflexivity.
    + rewrite Hw. apply take_app_length.
Qed.

(** C3, amended.  When the same creation event is applied twice in a row
    and both invocations return, the second leaves the table as the first
    left it, and reports every matching channel of the bucket as already
    current: for each it prints the channel and "Already up to date.", its
    conditioned write is answered ConditionalCheckFailedException, and the
    precondition fails because the stored pointer is present and not
    strictly less than the event's key. *)
Theorem redelivery_idempotent (b key : string) (fuel : nat) (w w1 w2 : World) :
  wf_table (table (store w)) ->
  length (table (store w)) < fuel ->
  honest (store w) ->
  apply fuel (creation_event b key) w = (Ret tt, w1) ->
  apply fuel (creation_event b key) w1 = (Ret tt, w2) ->
  let regs := matching key (rows_after b None (table (store w1))) in
  table (store w2) = table (store w1) /\
  stdout w2 =
    (stdout w1 ++
     flat_map (fun r => [line_updating (row_channel r); line_current]) regs)%list /\
  writes (store w2) =
    (writes (store w1) ++
     map (fun r => (update_request (AV_S b) (AV_S (row_channel r)) (AV_S key),
                    Raise (ClientError ConditionalCheckFailedException))) regs)%list /\
  (forall r, In r regs ->
     ~ precondition (pointer (table (store w1)) (b, row_channel r)) key).
Proof.
  intros Hwf Hfuel Hh H1 H2 regs.
  pose proof (apply_frame b key fuel w w1 _ Hwf H1) as [Hregs _].
  pose proof (apply_wf b key fuel w w1 _ Hwf H1) as Hwf1.
  pose proof (apply_honest fuel _ w w1 _ H1 Hh) as Hh1.
  assert (Hfuel1 : length (table (store w1)) < fuel).
  { now rewrite (length_registrations _ _ Hregs). }
  assert (Hsat : forall r, In r (rows_after b None (table (store w1))) ->
            row_matches r key = true ->
            precondition_b (pointer (table (store w1)) (b, row_channel r)) key = false).
  { intros r Hr Hm. apply in_rows_after in Hr as (Hin & Hb & _).
    exact (apply_saturates b key fuel w w1 r Hwf Hfuel Hh H1 Hin Hb Hm). }
  assert (Hregs_in : forall r, In r regs ->
            precondition_b (pointer (table (store w1)) (b, row_channel r)) key = false).
  { intros r Hr. unfold regs, matching in Hr. apply filter_In in Hr as [Hr Hm]. auto. }
  destruct (apply_log b key fuel w1 w2 Hwf1 Hfuel1 Hh1 H2) as [Hw Hs].
  fold regs in Hw, Hs.
  destruct (apply_returns b key fuel w1 w2 Hwf1 Hfuel1 Hh1 H2) as (pl & qf & Heq).
  split; [|split; [|split]].
  - rewrite Heq. cbn [repage store table]. now apply fold_commit_current.
  - rewrite Hs. f_equal. apply flat_map_ext_in'. intros r Hr.
    unfold lines_of. now rewrite Hregs_in.
  - rewrite Hw. f_equal. apply map_ext_in. intros r Hr.
    unfold write_of. now rewrite Hregs_in.
  - intros r Hr Hpre. apply precondition_spec in Hpre.
    rewrite Hregs_in in Hpre by assumption. discriminate.
Qed.

(** C4.  Let the registrations of the bucket be [l1], then [r], then [l2],
    let the pass over [l1] have returned, and let [r] match.  When the
    store answers the conditioned write for [r] with
    ConditionalCheckFailedException, the handler prints "Already up to
    date.", raises nothing, and goes on with [l2].  When the store raises
    any other error [e], the invocation raises exactly [e]; nothing of
    [l2] is processed: the world is the one the failed write left, whose
    table is the one the earlier writes produced. *)
Theorem write_failure_handling (b key : string) (fuel : nat) (w w1 : World)
    (l1 l2 : list Row) (r : Row) (ans : outcome unit) (d : db) :
  wf_table (table (store w)) ->
  length (table (store w)) < fuel ->
  Forall (fun f => f = None) (query_faults (store w)) ->
  rows_after b None (table (store w)) = (l1 ++ r :: l2)%list ->
  for_each (map reg_item l1) (process_item (creation_event b key)) w = (Ret tt, w1) ->
  row_matches r key = true ->
  update_item (update_request (AV_S b) (AV_S (row_channel r)) (AV_S key))
              (store w1) = (ans, d) ->
  let announced := (stdout w1 ++ [line_updating (row_channel r)])%list in
  (ans = Raise (ClientError ConditionalCheckFailedException) ->
     exists pl qf,
       apply fuel (creation_event b key) w =
       let (o, w') :=
         for_each (map reg_item l2) (process_item (creation_event b key))
                  (mkWorld d (announced ++ [line_current])) in
       (o, repage pl qf w')) /\
  (forall e, ans = Raise e ->
     e <> ClientError ConditionalCheckFailedException ->
     (exists pl qf,
        apply fuel (creation_event b key) w =
        (Raise e, repage pl qf (mkWorld d announced))) /\
     table d = table (store w1) /\
     writes d =
       (writes (store w1) ++
        [(update_request (AV_S b) (AV_S (row_channel r)) (AV_S key), Raise e)])%list).
Proof.
  intros Hwf Hfuel Hnf Hrows Hl1 Hm Hans announced.
  destruct (apply_around b key fuel w w1 l1 l2 r Hwf Hfuel Hnf Hrows Hl1)
    as (pl & qf & Heq).
  assert (Hproc : process_item (creation_event b key) (reg_item r) w1 =
                  attempt b (row_channel r) key w1).
  { rewrite process_item_eq, reg_item_Channel, reg_item_Pattern.
    unfold row_matches in Hm.
    destruct (row_attrs r !! "Pattern") as [[p|n|bb|]|]; try discriminate.
    destruct (re_compile p) as [rx|]; [|discriminate]. now rewrite Hm. }
  rewrite Hproc in Heq. unfold attempt, say in Heq. cbn [store stdout] in Heq.
  rewrite Hans in Heq. fold announced in Heq.
  split.
  - intros ->. exists pl, qf. rewrite Heq.
    unfold ConditionalCheckFailedException. rewrite String.eqb_refl. reflexivity.
  - intros e -> Hne. split; [|now apply update_item_raises in Hans].
    exists pl, qf. rewrite Heq. destruct e; try reflexivity.
    destruct (String.eqb_spec code ConditionalCheckFailedException) as [->|_];
      [contradiction|reflexivity].
Qed.

(** C6.  For a registration of the event's bucket whose pattern does not
    match the object key, every run of the updater on a well-formed table,
    however it ends, sends no write for the channel, leaves its stored
    pointer as it was, and never announces the channel in its output. *)
Theorem non_match_untouched (b key : string) (fuel : nat) (w w' : World)
    (o : outcome unit) (r : Row) :
  wf_table (table (store w)) ->
  In r (table (store w)) ->
  row_bucket r = b ->
  row_matches r key = false ->
  apply fuel (creation_event b key) w = (o, w') ->
  pointer (table (store w')) (row_key r) = pointer (table (store w)) (row_key r) /\
  (exists news,
      writes (store w') = (writes (store w) ++ news)%list /\
      forall x, In x news ->
        ui_Key (fst x) <>
        ui_Key (update_request (AV_S b) (AV_S (row_channel r)) (AV_S key))) /\
  (exists lines,
      stdout w' = (stdout w ++ lines)%list /\
      ~ In (line_updating (row_channel r)) lines).
Proof.
  intros Hwf Hin Hb Hm Happ.
  assert (Hno : ~ matching_channel b key (table (store w)) (row_channel r)).
  { intros (r' & Hr' & Hk & Hm').
    assert (Hk' : row_key r' = row_key r).
    { rewrite Hk. unfold row_key. now rewrite Hb. }
    pose proof (wf_find_row _ _ Hwf Hr') as F1.
    pose proof (wf_find_row _ _ Hwf Hin) as F2.
    rewrite Hk' in F1. congruence. }
  destruct (apply_frame b key fuel w w' o Hwf Happ)
    as (_ & (news & Hw & Hnews) & (lines & Hs & Hlines) & Hp).
  split; [|split].
  - apply Hp. intros ch Hk Hmc. apply Hno.
    unfold row_key in Hk. injection Hk as _ <-. exact Hmc.
  - exists news. split; [exact Hw|]. intros x Hx Hkey.
    rewrite List.Forall_forall in Hnews. destruct (Hnews x Hx) as (ch & Hmc & Hreq).
    rewrite Hreq in Hkey. apply update_request_channel in Hkey. subst ch.
    now apply Hno.
  - exists lines. split; [exact Hs|]. intros Hl.
    rewrite List.Forall_forall in Hlines.
    destruct (Hlines _ Hl) as [H|[H|(ch & Hmc & H)]].
    + now apply line_updating_not_ok in H.
    + now apply line_updating_not_current in H.
    + apply line_updating_inj in H. subst ch. now apply Hno.
Qed.

(** What can be observed of a world apart from the paging state. *)
Definition observable (w : World) :=
  (table (store w), writes (store w), update_faults (store w), stdout w).

(** C7.  On a well-formed table and when no query fails, however the
    store cuts the answer into pages, the invocation has the outcome and
    leaves the table, the log of writes and the output of the invocation
    in which a single query returns every registration of the bucket; and
    that invocation is one pass over those registrations. *)
Theorem pagination_transparent (b key : string) (fuel : nat) (w : World)
    (pages : list nat) :
  wf_table (table (store w)) ->
  length (table (store w)) < fuel ->
  Forall (fun f => f = None) (query_faults (store w)) ->
  let paged := apply fuel (creation_event b key)
                     (repage pages (query_faults (store w)) w) in
  let single := apply 1 (creation_event b key)
                      (repage [] (query_faults (store w)) w) in
  paged.1 = single.1 /\
  observable paged.2 = observable single.2 /\
  single =
    for_each (map reg_item (rows_after b None (table (store w))))
             (process_item (creation_event b key))
             (repage [] (tail (query_faults (store w))) w).
Proof.
  intros Hwf Hfuel Hnf paged single.
  assert (Hsingle : single =
    for_each (map reg_item (rows_after b None (table (store w))))
             (process_item (creation_event b key))
             (repage [] (tail (query_faults (store w))) w)).
  { subst single. now rewrite apply_single_page. }
  split; [|split; [|exact Hsingle]].
  - rewrite Hsingle. subst paged. unfold apply.
    destruct (query_loop_pages b key fuel None
                (repage pages (query_faults (store w)) w)) as
      [(pl & qf & Heq) | (e & w3 & Hin & _)].
    + exact Hwf.
    + cbn [repage store table].
      pose proof (rows_after_length b None (table (store w))). lia.
    + cbn [resume_of option_map] in Heq. rewrite Heq.
      cbn [repage store table]. rewrite !for_each_repage.
      destruct (for_each _ _ w) as [o1 w1]. reflexivity.
    + cbn [repage store query_faults] in Hin.
      rewrite List.Forall_forall in Hnf. specialize (Hnf _ Hin). discriminate.
  - rewrite Hsingle. subst paged. unfold apply.
    destruct (query_loop_pages b key fuel None
                (repage pages (query_faults (store w)) w)) as
      [(pl & qf & Heq) | (e & w3 & Hin & _)].
    + exact Hwf.
    + cbn [repage store table].
      pose proof (rows_after_length b None (table (store w))). lia.
    + cbn [resume_of option_map] in Heq. rewrite Heq.
      cbn [repage store table]. rewrite !for_each_repage.
      destruct (for_each _ _ w) as [o1 w1]. reflexivity.
    + cbn [repage store query_faults] in Hin.
      rewrite List.Forall_forall in Hnf. specialize (Hnf _ Hin). discriminate.
Qed.

(** C9.  Let the registrations of the bucket be [l1], then [r], then [l2],
    and let the pass over [l1] have returned.  When the pattern of [r] is a
    string that is not a valid regular expression, the invocation raises
    the engine's [re.error]: not an [AssertionError], and not caught as an
    already-current channel, since nothing is printed for [r].  Nothing of
    [l2] is processed, and the world is the one the pass over [l1] left,
    with its writes. *)
Theorem invalid_pattern_propagates (b key : string) (fuel : nat) (w w1 : World)
    (l1 l2 : list Row) (r : Row) (p : string) :
  wf_table (table (store w)) ->
  length (table (store w)) < fuel ->
  Forall (fun f => f = None) (query_faults (store w)) ->
  rows_after b None (table (store w)) = (l1 ++ r :: l2)%list ->
  for_each (map reg_item l1) (process_item (creation_event b key)) w = (Ret tt, w1) ->
  row_attrs r !! "Pattern" = Some (AV_S p) ->
  re_compile p = None ->
  (exists pl qf,
      apply fuel (creation_event b key) w = (Raise re_error, repage pl qf w1)) /\
  re_error <> AssertionError.
Proof.
  intros Hwf Hfuel Hnf Hrows Hl1 Hp Hre.
  split; [|discriminate].
  destruct (apply_around b key fuel w w1 l1 l2 r Hwf Hfuel Hnf Hrows Hl1)
    as (pl & qf & Heq).
  exists pl, qf. rewrite Heq.
  now rewrite process_item_eq, reg_item_Channel, reg_item_Pattern, Hp, Hre.
Qed.

End Claims.

(* ===================================================================== *)
(** * Further properties of the updater *)
(* ===================================================================== *)

(** An item without its pointer: its key and every attribute but
    [ObjectKey]. *)
Definition other_attrs (r : Row) : string * string * Item :=
  (row_key r, delete "ObjectKey" (row_attrs r)).

Lemma other_attrs_registration (r r' : Row) :
  other_attrs r = other_attrs r' -> registration r = registration r'.
Proof.
  unfold other_attrs, registration. intros H.
  assert (Hk : row_key r = row_key r') by congruence.
  assert (Hd : delete "ObjectKey" (row_attrs r) = delete "ObjectKey" (row_attrs r'))
    by congruence.
  rewrite Hk. f_equal.
  apply (f_equal (fun m : Item => m !! "Pattern")) in Hd.
  now rewrite !lookup_delete_ne in Hd by discriminate.
Qed.

Lemma map_other_attrs_registration (t t' : list Row) :
  map other_attrs t = map other_attrs t' -> map registration t = map registration t'.
Proof.
  revert t'. induction t as [|r t IH]; intros [|r' t'] H; try discriminate;
    [reflexivity|].
  cbn [map] in H. cbn [map].
  assert (Hr : other_attrs r = other_attrs r') by congruence.
  assert (Ht : map other_attrs t = map other_attrs t') by congruence.
  f_equal; [now apply other_attrs_registration|now apply IH].
Qed.

(** Setting the pointer of an item that exists changes nothing else. *)
Lemma upsert_other_attrs (k : string * string) (v : AttributeValue) (t : list Row) :
  wf_table t ->
  In k (map row_key t) ->
  map other_attrs (upsert k (insert "ObjectKey" v) t) = map other_attrs t.
Proof.
  induction t as [|r t IH]; intros Hwf Hin; [destruct Hin|].
  apply StronglySorted_cons in Hwf as [Hall Hwf]. cbn [upsert].
  destruct (key_compare k (row_key r)) eqn:E.
  - cbn [map]. f_equal. unfold other_attrs, row_key. cbn.
    now rewrite delete_insert_eq.
  - exfalso. destruct Hin as [Hin|Hin].
    + rewrite Hin, key_compare_refl in E. discriminate.
    + apply in_map_iff in Hin as (r' & <- & Hr').
      rewrite Forall_forall in Hall. apply list_elem_of_In in Hr'.
      specialize (Hall r' Hr'). unfold row_lt in Hall.
      eapply key_lt_irrefl, key_lt_trans; [exact E|exact Hall].
  - cbn [map]. f_equal. apply IH; [assumption|].
    destruct Hin as [Hin|Hin]; [|assumption].
    rewrite Hin, key_compare_refl in E. discriminate.
Qed.

Section Further.
Context {L : Lib}.

(** *** The loop ends *)

Lemma attempt_ends (b ch key : string) (w : World) :
  (attempt b ch key w).1 <> Timeout.
Proof.
  unfold attempt, say. cbn [store stdout]. rewrite update_item_request.
  destruct (update_faults (store w)) as [|[e|] rest].
  - destruct (precondition_b _ _); discriminate.
  - destruct e; try discriminate. destruct (String.eqb code _); discriminate.
  - destruct (precondition_b _ _); discriminate.
Qed.

Lemma process_item_ends (b key : string) (item : Item) (w : World) :
  (process_item (creation_event b key) item w).1 <> Timeout.
Proof.
  rewrite process_item_eq.
  destruct (item !! "Channel") as [chv|]; [|discriminate].
  destruct (item !! "Pattern") as [[p|n|bb|]|]; try discriminate.
  destruct (re_compile p) as [rx|]; [|discriminate].
  destruct (regex_search rx key); [|discriminate].
  destruct chv; try discriminate. apply attempt_ends.
Qed.

Lemma for_each_ends (b key : string) (items : list Item) (w : World) :
  (for_each items (process_item (creation_event b key)) w).1 <> Timeout.
Proof.
  revert w. induction items as [|item items IH]; intros w; [discriminate|].
  rewrite for_each_cons.
  pose proof (process_item_ends b key item w) as H.
  destruct (process_item _ item w) as [[[]|e|] w1]; [apply IH|discriminate|].
  now cbn in H.
Qed.

(** X1.  The [while True] loop of the updater ends: on a well-formed
    table, whatever the page limits and the failures of the store, an
    invocation given more fuel than the table has items returns or raises;
    it never runs out of fuel. *)
Theorem apply_terminates (b key : string) (fuel : nat) (w : World) :
  wf_table (table (store w)) ->
  length (table (store w)) < fuel ->
  (apply fuel (creation_event b key) w).1 <> Timeout.
Proof.
  intros Hwf Hfuel. unfold apply.
  destruct (query_loop_pages b key fuel None w Hwf) as
    [(pl & qf & Heq) | (e & w3 & _ & Heq)].
  - pose proof (rows_after_length b None (table (store w))). lia.
  - cbn [resume_of option_map] in Heq. rewrite Heq.
    pose proof (for_each_ends b key
                  (map reg_item (rows_after b None (table (store w)))) w) as H.
    destruct (for_each _ _ w) as [o w1]. exact H.
  - cbn [resume_of option_map] in Heq. rewrite Heq. discriminate.
Qed.

(** *** Only the pointer changes *)

Definition keeps_other_attrs (w w' : World) : Prop :=
  map other_attrs (table (store w')) = map other_attrs (table (store w)).

Lemma attempt_keeps_other_attrs (b key : string) (w : World) (r : Row)
    (o : outcome unit) (w' : World) :
  wf_table (table (store w)) ->
  In r (table (store w)) ->
  row_bucket r = b ->
  row_matches r key = true ->
  attempt b (row_channel r) key w = (o, w') ->
  keeps_other_attrs w w'.
Proof.
  intros Hwf Hin Hb _. unfold attempt, say, keeps_other_attrs. cbn [store stdout].
  rewrite update_item_request.
  assert (Hkey : In (b, row_channel r) (map row_key (table (store w)))).
  { apply in_map_iff. exists r. split; [|assumption]. unfold row_key. now rewrite Hb. }
  destruct (update_faults (store w)) as [|[e|] rest].
  - destruct (precondition_b _ _); intros [= <- <-]; cbn [store table];
      [now apply upsert_other_attrs|reflexivity].
  - destruct e; try (intros [= <- <-]; reflexivity).
    destruct (String.eqb code _); intros [= <- <-]; reflexivity.
  - destruct (precondition_b _ _); intros [= <- <-]; cbn [store table];
      [now apply upsert_other_attrs|reflexivity].
Qed.

(** X2.  Whatever the outcome, an invocation of the updater on a
    well-formed table neither adds nor removes an item, keeps the items in
    their order with their keys, and changes no attribute of any item
    other than [ObjectKey]. *)
Theorem only_object_key_changes (b key : string) (fuel : nat) (w w' : World)
    (o : outcome unit) :
  wf_table (table (store w)) ->
  apply fuel (creation_event b key) w = (o, w') ->
  map other_attrs (table (store w')) = map other_attrs (table (store w)).
Proof.
  intros Hwf H. unfold apply in H.
  eapply (query_loop_invariant b key keeps_other_attrs) with (start := None);
    [ | | | |apply attempt_keeps_other_attrs|exact Hwf|exact H].
  - intros w0. reflexivity.
  - intros w1 w2 w3 H1 H2. unfold keeps_other_attrs in *. congruence.
  - intros w0 w0' H0. symmetry. apply map_other_attrs_registration. symmetry. exact H0.
  - intros pl qf w0. reflexivity.
Qed.

(** *** Other buckets *)

Definition keeps_other_buckets (b : string) (w w' : World) : Prop :=
  forall k : string * string, k.1 <> b ->
    find_row k (table (store w')) = find_row k (table (store w)).

Lemma attempt_keeps_other_buckets (b key : string) (w : World) (ch : string)
    (o : outcome unit) (w' : World) :
  attempt b ch key w = (o, w') -> keeps_other_buckets b w w'.
Proof.
  unfold attempt, say, keeps_other_buckets. cbn [store stdout].
  rewrite update_item_request.
  assert (Hne : forall k : string * string, k.1 <> b -> (b, ch) <> k).
  { intros k Hk <-. now apply Hk. }
  destruct (update_faults (store w)) as [|[e|] rest].
  - destruct (precondition_b _ _); intros [= <- <-] k Hk; cbn [store table];
      [now apply find_row_upsert_ne, Hne|reflexivity].
  - destruct e; try (intros [= <- <-] k Hk; reflexivity).
    destruct (String.eqb code _); intros [= <- <-] k Hk; reflexivity.
  - destruct (precondition_b _ _); intros [= <- <-] k Hk; cbn [store table];
      [now apply find_row_upsert_ne, Hne|reflexivity].
Qed.

(** X3.  Whatever the outcome, an invocation for an object of bucket [b]
    leaves every item of every other bucket exactly as it was, pointer
    included. *)
Theorem other_buckets_untouched (b key : string) (fuel : nat) (w w' : World)
    (o : outcome unit) (r : Row) :
  wf_table (table (store w)) ->
  In r (table (store w)) ->
  row_bucket r <> b ->
  apply fuel (creation_event b key) w = (o, w') ->
  find_row (row_key r) (table (store w')) = Some r.
Proof.
  intros Hwf Hin Hb H.
  assert (Hinv : keeps_other_attrs w w' /\ keeps_other_buckets b w w').
  { unfold apply in H.
    eapply (query_loop_invariant b key
              (fun w0 w1 => keeps_other_attrs w0 w1 /\ keeps_other_buckets b w0 w1))
      with (start := None); [ | | | | |exact Hwf|exact H].
    - intros w0. split; [reflexivity|intros k _; reflexivity].
    - intros w1 w2 w3 [H1 K1] [H2 K2]. split.
      + unfold keeps_other_attrs in *. congruence.
      + intros k Hk. rewrite K2, K1; auto.
    - intros w0 w0' [H0 _]. symmetry. apply map_other_attrs_registration.
      symmetry. exact H0.
    - intros pl qf w0. split; [reflexivity|intros k _; reflexivity].
    - intros w0 r0 o0 w0' Hwf0 Hin0 Hb0 Hm0 Hatt. split.
      + eapply attempt_keeps_other_attrs; eassumption.
      + eapply attempt_keeps_other_buckets; eassumption. }
  destruct Hinv as [_ Hk]. rewrite Hk by exact Hb. now apply wf_find_row.
Qed.

(** *** Registrations that cannot be used *)

(** X4.  Let the registrations of the bucket be [l1], then [r], then [l2],
    and let the pass over [l1] have returned.  When [r] has no [Pattern]
    attribute, or one that is not a string, the invocation raises
    [AssertionError] (lines 108-109); nothing is printed or sent for [r],
    nothing of [l2] is processed, and the writes made for [l1] stay. *)
Theorem unusable_registration_aborts (b key : string) (fuel : nat) (w w1 : World)
    (l1 l2 : list Row) (r : Row) :
  wf_table (table (store w)) ->
  length (table (store w)) < fuel ->
  Forall (fun f => f = None) (query_faults (store w)) ->
  rows_after b None (table (store w)) = (l1 ++ r :: l2)%list ->
  for_each (map reg_item l1) (process_item (creation_event b key)) w = (Ret tt, w1) ->
  (forall p, row_attrs r !! "Pattern" <> Some (AV_S p)) ->
  exists pl qf,
    apply fuel (creation_event b key) w = (Raise AssertionError, repage pl qf w1).
Proof.
  intros Hwf Hfuel Hnf Hrows Hl1 Hp.
  destruct (apply_around b key fuel w w1 l1 l2 r Hwf Hfuel Hnf Hrows Hl1)
    as (pl & qf & Heq).
  exists pl, qf. rewrite Heq.
  rewrite process_item_eq, reg_item_Channel, reg_item_Pattern.
  destruct (row_attrs r !! "Pattern") as [[p|n|bb|]|]; try reflexivity.
  now destruct (Hp p).
Qed.

(** *** After an invocation that returned *)

(** X5.  After an invocation that returned, every registration of the
    bucket whose pattern matches the key has a pointer, and when that
    pointer is a string it is not smaller than the key, byte-wise: a
    matching channel never stays behind the object just created. *)
Theorem matching_channels_caught_up (b key : string) (fuel : nat) (w w1 : World)
    (r : Row) :
  wf_table (table (store w)) ->
  length (table (store w)) < fuel ->
  honest (store w) ->
  apply fuel (creation_event b key) w = (Ret tt, w1) ->
  In r (table (store w1)) ->
  row_bucket r = b ->
  row_matches r key = true ->
  exists v,
    row_attrs r !! "ObjectKey" = Some v /\
    forall s, v = AV_S s -> Bytes.le key s.
Proof.
  intros Hwf Hfuel Hh Happ Hin Hb Hm.
  pose proof (apply_saturates b key fuel w w1 r Hwf Hfuel Hh Happ Hin Hb Hm) as Hsat.
  pose proof (apply_wf b key fuel w w1 _ Hwf Happ) as Hwf1.
  replace (b, row_channel r) with (row_key r) in Hsat
    by (unfold row_key; now rewrite Hb).
  rewrite pointer_find, (wf_find_row _ _ Hwf1 Hin) in Hsat.
  destruct (row_attrs r !! "ObjectKey") as [v|]; [|discriminate].
  exists v. split; [reflexivity|]. intros s ->. exact Hsat.
Qed.

End Further.

(* --------------------------------------------------------------------- *)
(** ** The order of deliveries *)
(* --------------------------------------------------------------------- *)

Lemma pmax_swap (p : option AttributeValue) (a b : string) :
  pmax (pmax p a) b = pmax (pmax p b) a.
Proof.
  unfold pmax. destruct p as [[s|n|bb|]|]; cbn; try reflexivity.
  - destruct (String.ltb s a) eqn:Hsa, (String.ltb s b) eqn:Hsb; cbn;
      rewrite ?Hsa, ?Hsb; try reflexivity.
    + destruct (String.ltb a b) eqn:Hab, (String.ltb b a) eqn:Hba; try reflexivity.
      * apply Bytes.ltb_asym in Hab. congruence.
      * now rewrite (Bytes.ltb_total _ _ Hab Hba).
    + destruct (String.ltb a b) eqn:Hab; [|reflexivity].
      pose proof (Bytes.ltb_trans _ _ _ Hsa Hab). congruence.
    + destruct (String.ltb b a) eqn:Hba; [|reflexivity].
      pose proof (Bytes.ltb_trans _ _ _ Hsb Hba). congruence.
  - destruct (String.ltb a b) eqn:Hab, (String.ltb b a) eqn:Hba; try reflexivity.
    + apply Bytes.ltb_asym in Hab. congruence.
    + now rewrite (Bytes.ltb_total _ _ Hab Hba).
Qed.

Lemma fold_pmax_Permutation (f : string * string -> bool)
    (es es' : list (string * string)) :
  Permutation es es' ->
  forall p, fold_left pmax (map snd (List.filter f es)) p =
            fold_left pmax (map snd (List.filter f es')) p.
Proof.
  induction 1 as [|x l l' _ IH|x y l|l l' l'' _ IH1 _ IH2]; intros p.
  - reflexivity.
  - cbn [List.filter]. destruct (f x); cbn [map fold_left]; apply IH.
  - cbn [List.filter]. destruct (f x), (f y); cbn [map fold_left]; try reflexivity.
    now rewrite pmax_swap.
  - now rewrite IH1.
Qed.

Section Order.
Context {L : Lib}.

(** X6.  The pointer of a registered channel does not depend on the order
    in which creation events are delivered: two sequences with the same
    events, whose invocations all returned from the same well-formed table
    with a store that refuses only writes whose condition fails, leave the
    same pointer, whatever the pointer was at the start. *)
Theorem delivery_order_irrelevant (fuel : nat) (k : string * string) (r : Row)
    (events events' : list (string * string)) (w : World) :
  wf_table (table (store w)) ->
  honest (store w) ->
  length (table (store w)) < fuel ->
  Permutation events events' ->
  all_returned fuel (map event_of events) w ->
  all_returned fuel (map event_of events') w ->
  find_row k (table (store w)) = Some r ->
  pointer (table (store (deliver_all fuel (map event_of events) w))) k =
  pointer (table (store (deliver_all fuel (map event_of events') w))) k.
Proof.
  intros Hwf Hh Hfuel Hperm Hall Hall' Hfind.
  rewrite (deliver_all_pointer fuel k r events w), (deliver_all_pointer fuel k r events' w);
    try assumption; try (exists r; split; [assumption|reflexivity]).
  now apply fold_pmax_Permutation.
Qed.

End Order.

(* --------------------------------------------------------------------- *)
(** ** The handler as a whole, and the bootstrap entry point *)
(* --------------------------------------------------------------------- *)

(** The five lines of lines 87-91 for a bucket name and a key. *)
Definition banner_lines (b key : string) : list string :=
  ["========================================";
   "Bucket:  " +:+ b;
   "Key:     " +:+ key;
   "========================================";
   EmptyString].

(** Line 138 *)
Definition usage_line : string :=
  "Usage: python3 latestfiles_update.py <bucket-name> <object-key>".

(** [sys.exit()] raises [SystemExit]. *)
Definition SystemExit : exn := OtherError "SystemExit".

Section Whole.
Context {L : Lib}.

(** Lines 136-151, run with [sys.argv = argv].  The arguments are read
    only when there are three of them, so the default of [nth] is never
    used. *)
Definition main (fuel : nat) (argv : list string) : Py unit :=
  (if negb (Nat.eqb (length argv) 3)
   then print usage_line;; raise SystemExit
   else mret tt);;
  lambda_handler fuel
    (JObj [("Records",
            JArr [JObj [("s3",
                         JObj [("bucket", JObj [("name", JStr (nth 1 argv EmptyString))]);
                               ("object", JObj [("key", JStr (nth 2 argv EmptyString))])])]])])
    JNull.

Lemma banner_creation (b key : string) (w : World) :
  banner (creation_event b key) w =
  (Ret tt, mkWorld (store w) (stdout w ++ banner_lines b key)).
Proof.
  unfold banner, bucket_name, object_key, creation_event, banner_lines.
  unfold mbind, Py_bind, print, sub, lift. cbn. now rewrite <- !app_assoc.
Qed.

Lemma lambda_handler_direct (fuel : nat) (b key : string) (context : json) (w : World) :
  lambda_handler fuel (direct_event b key) context w =
  apply fuel (creation_event b key)
        (mkWorld (store w) (stdout w ++ banner_lines b key)).
Proof.
  unfold lambda_handler, mbind, Py_bind.
  change (normalize (direct_event b key) w) with (Ret (creation_event b key), w).
  cbn beta iota. now rewrite banner_creation.
Qed.

(** X7.  Delivery through SNS changes nothing: for a serialized payload
    that has one record, itself not an envelope, the handler called with
    the SNS notification carrying it behaves as the handler called with the
    payload itself, in outcome, table, writes and output; the context
    argument plays no part. *)
Theorem envelope_transparent (fuel : nat) (message : string)
    (inner irecords irecord context context' : json) (w : World) :
  json_loads message = Ret inner ->
  single_record inner irecords irecord ->
  py_in "Sns" irecord = Ret false ->
  lambda_handler fuel (sns_event message) context w =
  lambda_handler fuel inner context' w.
Proof.
  intros Hload Hsingle Hin. unfold lambda_handler, mbind, Py_bind.
  rewrite (normalize_envelope (sns_event message)
             (JArr [JObj [("Sns", JObj [("Message", JStr message)])]])
             (JObj [("Sns", JObj [("Message", JStr message)])])
             inner irecords irecord w).
  - now rewrite (normalize_direct inner irecords irecord w Hsingle Hin).
  - repeat split.
  - split; [reflexivity|].
    exists (JObj [("Message", JStr message)]), (JStr message).
    repeat split. exact Hload.
  - exact Hsingle.
Qed.

(** X8.  The complete output of an invocation that returned, for a direct
    payload with string identifiers: the five banner lines with the bucket
    name and the key, then for every registration of the bucket whose
    pattern matches, in key order, the line [Updating <channel>...]
    followed by [OK] when its pointer was absent or smaller, and by
    [Already up to date.] otherwise. *)
Theorem lambda_handler_output (b key : string) (fuel : nat) (context : json)
    (w w' : World) :
  wf_table (table (store w)) ->
  length (table (store w)) < fuel ->
  honest (store w) ->
  lambda_handler fuel (direct_event b key) context w = (Ret tt, w') ->
  stdout w' =
  (stdout w ++ banner_lines b key ++
   flat_map (lines_of b key (table (store w)))
            (matching key (rows_after b None (table (store w)))))%list.
Proof.
  intros Hwf Hfuel Hh H. rewrite lambda_handler_direct in H.
  destruct (apply_log b key fuel
              (mkWorld (store w) (stdout w ++ banner_lines b key)) w'
              Hwf Hfuel Hh H) as [_ Hout].
  rewrite Hout. cbn [store stdout]. now rewrite <- app_assoc.
Qed.

Lemma main_three (fuel : nat) (prog b key : string) (w : World) :
  main fuel [prog; b; key] w = lambda_handler fuel (direct_event b key) JNull w.
Proof. reflexivity. Qed.

(** X9.  Run with a number of command-line words other than three, the
    script prints its usage line and exits: it sends nothing to the store
    and prints no banner. *)
Theorem main_usage (fuel : nat) (argv : list string) (w : World) :
  length argv <> 3 ->
  main fuel argv w = (Raise SystemExit, mkWorld (store w) (stdout w ++ [usage_line])).
Proof.
  intros Hlen. unfold main.
  destruct (Nat.eqb_spec (length argv) 3) as [E|_]; [contradiction|].
  reflexivity.
Qed.

(** X10.  The bootstrap run populates initial pointers: run with a bucket
    name and a key on a well-formed table, when it returned (the store
    refusing only writes whose condition fails), every registration of
    that bucket whose pattern matches the key and that had no pointer now
    points to the key, and the output starts with the banner for the two
    arguments. *)
Theorem main_populates (fuel : nat) (prog b key : string) (w w' : World) (r : Row) :
  wf_table (table (store w)) ->
  length (table (store w)) < fuel ->
  honest (store w) ->
  main fuel [prog; b; key] w = (Ret tt, w') ->
  In r (table (store w)) ->
  row_bucket r = b ->
  row_matches r key = true ->
  row_attrs r !! "ObjectKey" = None ->
  pointer (table (store w')) (b, row_channel r) = Some (AV_S key) /\
  exists lines, stdout w' = (stdout w ++ banner_lines b key ++ lines)%list.
Proof.
  intros Hwf Hfuel Hh H Hin Hb Hm Hnone.
  rewrite main_three, lambda_handler_direct in H. split.
  - rewrite (apply_pointer b key fuel
               (mkWorld (store w) (stdout w ++ banner_lines b key)) w'
               (b, row_channel r) Hwf Hfuel Hh H).
    cbn [store].
    replace (b, row_channel r) with (row_key r) by (unfold row_key; now rewrite Hb).
    rewrite (wf_find_row _ _ Hwf Hin), Hb, String.eqb_refl, Hm. cbn [andb].
    rewrite pointer_find, (wf_find_row _ _ Hwf Hin), Hnone. reflexivity.
  - destruct (apply_log b key fuel
                (mkWorld (store w) (stdout w ++ banner_lines b key)) w'
                Hwf Hfuel Hh H) as [_ Hout].
    eexists. rewrite Hout. cbn [store stdout]. now rewrite <- app_assoc.
Qed.

(** X16.  No request reaches the store for a record whose bucket name is
    not a string: the updater then raises, or has no fuel left, with the
    store and the output exactly as they were. *)
Theorem bucket_name_not_a_string (fuel : nat) (s3ev : json) (w w' : World)
    (o : outcome unit) :
  (forall s, (bucket_name s3ev w).1 <> Ret (JStr s)) ->
  apply fuel s3ev w = (o, w') ->
  w' = w /\ o <> Ret tt.
Proof.
  intros Hname. unfold apply. destruct fuel as [|fuel]; cbn [query_loop].
  - intros [= <- <-]. split; [reflexivity|discriminate].
  - unfold mbind at 1, Py_bind at 1.
    assert (Hn : bucket_name s3ev w = ((bucket_name s3ev w).1, w)).
    { unfold bucket_name, sub, lift, mbind, Py_bind.
      destruct (py_getitem s3ev (IStr "bucket")) as [bucket|e|]; reflexivity. }
    rewrite Hn. destruct (bucket_name s3ev w).1 as [name|e|] eqn:E;
      try (intros [= <- <-]; split; [reflexivity|discriminate]).
    unfold mbind at 1, Py_bind at 1.
    destruct name as [| | | |s| |];
      try (intros [= <- <-]; split; [reflexivity|discriminate]).
    now destruct (Hname s).
Qed.

End Whole.

(* ===================================================================== *)
(** * The properties on concrete tables *)
(* ===================================================================== *)

Module Scenario.
Import Small.

(** The bucket of the spec's scenario, with three channels. *)
Definition bucket : string := "example.com".

Definition r_alpha : Row :=
  mkRow bucket "alpha" (<["Pattern" := AV_S "^builds/"]> ∅).
Definition r_bad : Row :=
  mkRow bucket "bad" (<["Pattern" := AV_S "("]> ∅).
Definition r_docs : Row :=
  mkRow bucket "docs" (<["Pattern" := AV_S "^docs/"]> ∅).
Definition r_stable : Row :=
  mkRow bucket "stable" (<["Pattern" := AV_S "^builds/"]> ∅).
Definition r_stable_v1 : Row :=
  mkRow bucket "stable"
        (<["ObjectKey" := AV_S "builds/v1.zip"]> (<["Pattern" := AV_S "^builds/"]> ∅)).

Definition world_of (t : list Row) : World :=
  mkWorld (mkDb t [] [] [] []) [].

Definition fresh : World := world_of [r_docs; r_stable].
Definition advanced_v1 : World := world_of [r_docs; r_stable_v1].
Definition with_bad : World := world_of [r_alpha; r_bad; r_stable].

(** The same table, answered one item per page. *)
Definition paged : World :=
  mkWorld (mkDb [r_alpha; r_docs; r_stable] [] [0; 0; 0] [] []) [].

(** The same table, whose next write will be throttled. *)
Definition throttled : World :=
  mkWorld (mkDb [r_docs; r_stable] [] [] []
                [Some (ClientError "ProvisionedThroughputExceededException")]) [].

Definition v0 : json := creation_event bucket "builds/v0.zip".
Definition v1 : json := creation_event bucket "builds/v1.zip".

Ltac sorted :=
  repeat first
    [ apply SSorted_nil | apply SSorted_cons
    | apply List.Forall_nil | apply List.Forall_cons
    | (vm_compute; reflexivity) ].

Lemma wf_fresh : wf_table (table (store fresh)).
Proof. unfold wf_table. cbn [fresh world_of store table]. sorted. Qed.

Lemma wf_advanced_v1 : wf_table (table (store advanced_v1)).
Proof. unfold wf_table. cbn [advanced_v1 world_of store table]. sorted. Qed.

Lemma wf_with_bad : wf_table (table (store with_bad)).
Proof. unfold wf_table. cbn [with_bad world_of store table]. sorted. Qed.

Lemma wf_paged : wf_table (table (store paged)).
Proof. unfold wf_table. cbn [paged store table]. sorted. Qed.

Lemma wf_throttled : wf_table (table (store throttled)).
Proof. unfold wf_table. cbn [throttled store table]. sorted. Qed.

Lemma honest_no_faults (t : list Row) : honest (store (world_of t)).
Proof. intros []. Qed.

(** The scenario of the spec: [v1] on a fresh channel updates it, then
    [v0] finds it already current and leaves the pointer. *)
Example scenario_v1_then_v0 :
  let w1 := (apply 3 v1 fresh).2 in
  let w2 := (apply 3 v0 w1).2 in
  (apply 3 v1 fresh).1 = Ret tt /\
  pointer (table (store w1)) (bucket, "stable") = Some (AV_S "builds/v1.zip") /\
  stdout w1 = ["    Updating stable..."; "        OK"] /\
  (apply 3 v0 w1).1 = Ret tt /\
  pointer (table (store w2)) (bucket, "stable") = Some (AV_S "builds/v1.zip") /\
  stdout w2 = ["    Updating stable..."; "        OK";
               "    Updating stable..."; "        Already up to date."].
Proof. vm_compute. repeat split. Qed.

(** *** C1 on the scenario *)

Definition deliveries : list (string * string) :=
  [(bucket, "builds/v1.zip"); (bucket, "docs/index.html");
   (bucket, "builds/v0.zip"); ("other.org", "builds/v9.zip");
   (bucket, "builds/v1.zip")].

Lemma pointer_monotone_greatest_witness :
  exists m,
    Bytes.greatest (map snd (List.filter (concerns r_stable) deliveries)) m /\
    pointer (table (store (deliver_all 3 (map event_of deliveries) fresh)))
            (bucket, "stable") = option_map AV_S m.
Proof.
  apply (proj2 (pointer_monotone_greatest 3)).
  - exact wf_fresh.
  - apply honest_no_faults.
  - cbn. lia.
  - vm_compute. repeat split.
  - reflexivity.
  - reflexivity.
Defined.

(** *** C2 on the scenario *)

Lemma conditioned_write_exact_witness :
  (exists d',
      update_item (update_request (AV_S bucket) (AV_S "stable") (AV_S "builds/v1.zip"))
                  (store fresh) = (Ret tt, d') /\
      pointer (table d') (bucket, "stable") = Some (AV_S "builds/v1.zip")) /\
  (exists d',
      update_item (update_request (AV_S bucket) (AV_S "stable") (AV_S "builds/v0.zip"))
                  (store advanced_v1) =
        (Raise (ClientError ConditionalCheckFailedException), d') /\
      table d' = table (store advanced_v1)) /\
  map fst (drop 0 (writes (store (apply 3 v1 fresh).2))) =
  [update_request (AV_S bucket) (AV_S "stable") (AV_S "builds/v1.zip")].
Proof.
  split; [|split].
  - apply (proj1 conditioned_write_exact bucket "stable" "builds/v1.zip" (store fresh)).
    + reflexivity.
    + left. reflexivity.
  - apply (proj1 conditioned_write_exact bucket "stable" "builds/v0.zip"
             (store advanced_v1)).
    + reflexivity.
    + intros [H|(s & H & Hlt)]; [discriminate H|].
      vm_compute in H. injection H as <-. vm_compute in Hlt. discriminate Hlt.
  - destruct (proj2 conditioned_write_exact bucket "builds/v1.zip" 3 fresh
                (apply 3 v1 fresh).2) as (_ & H & _).
    + exact wf_fresh.
    + cbn. lia.
    + apply honest_no_faults.
    + vm_compute. reflexivity.
    + exact H.
Defined.

(** *** C3 on the scenario *)

Lemma redelivery_idempotent_witness :
  table (store (apply 3 v0 (apply 3 v0 advanced_v1).2).2) =
  table (store (apply 3 v0 advanced_v1).2).
Proof.
  apply (redelivery_idempotent bucket "builds/v0.zip" 3 advanced_v1
           (apply 3 v0 advanced_v1).2 (apply 3 v0 (apply 3 v0 advanced_v1).2).2).
  - exact wf_advanced_v1.
  - cbn. lia.
  - apply honest_no_faults.
  - vm_compute. reflexivity.
  - vm_compute. reflexivity.
Defined.

(** C3 as stated fails: the second invocation finds a matching channel
    already current although its stored pointer is not the event's key.
    On the table of the spec's scenario, where [stable] already points to
    [builds/v1.zip], both invocations for [builds/v0.zip] return and
    report [stable] as already current, while the pointer they find is
    [builds/v1.zip]. *)
Lemma redelivery_pointer_not_equal :
  ~ (forall (b key : string) (fuel : nat) (w w1 w2 : World) (r : Row),
       wf_table (table (store w)) ->
       length (table (store w)) < fuel ->
       honest (store w) ->
       apply fuel (creation_event b key) w = (Ret tt, w1) ->
       apply fuel (creation_event b key) w1 = (Ret tt, w2) ->
       In r (matching key (rows_after b None (table (store w1)))) ->
       pointer (table (store w1)) (b, row_channel r) = Some (AV_S key)).
Proof.
  intros H.
  specialize (H bucket "builds/v0.zip" 3 advanced_v1
                (apply 3 v0 advanced_v1).2
                (apply 3 v0 (apply 3 v0 advanced_v1).2).2 r_stable_v1).
  assert (Hp : pointer (table (store (apply 3 v0 advanced_v1).2)) (bucket, "stable")
               = Some (AV_S "builds/v1.zip")) by (vm_compute; reflexivity).
  cbn [row_channel r_stable_v1] in H. rewrite Hp in H.
  assert (Hneq : Some (AV_S "builds/v1.zip") = Some (AV_S "builds/v0.zip") -> False)
    by discriminate.
  apply Hneq, H.
  - exact wf_advanced_v1.
  - cbn. lia.
  - apply honest_no_faults.
  - vm_compute. reflexivity.
  - vm_compute. reflexivity.
  - vm_compute. left. reflexivity.
Qed.

(** *** C4 on the scenario: a throttled write *)

Definition throttling : exn := ClientError "ProvisionedThroughputExceededException".

Lemma write_failure_handling_witness :
  exists pl qf,
    apply 3 v1 throttled =
    (Raise throttling,
     repage pl qf
       (mkWorld (update_item
                   (update_request (AV_S bucket) (AV_S "stable") (AV_S "builds/v1.zip"))
                   (store throttled)).2
                ["    Updating stable..."])).
Proof.
  destruct (write_failure_handling bucket "builds/v1.zip" 3 throttled throttled
              [r_docs] [] r_stable (Raise throttling)
              (update_item
                 (update_request (AV_S bucket) (AV_S "stable") (AV_S "builds/v1.zip"))
                 (store throttled)).2) as [_ H].
  - exact wf_throttled.
  - cbn. lia.
  - constructor.
  - reflexivity.
  - vm_compute. reflexivity.
  - vm_compute. reflexivity.
  - vm_compute. reflexivity.
  - destruct (H throttling) as [Hraise _]; [reflexivity|discriminate|].
    exact Hraise.
Defined.

(** *** C5, C8 and C10 on concrete payloads *)

Definition quoted (s : string) : string :=
  String "034"%char s +:+ String "034"%char EmptyString.

(** The serialized payload [{"Records":[{"s3":{}},{"s3":{}}]}]. *)
Definition two_records : string :=
  "{" +:+ quoted "Records" +:+ ":[{" +:+ quoted "s3" +:+ ":{}},{"
      +:+ quoted "s3" +:+ ":{}}]}".

(** The serialized direct payload for [builds/v1.zip]. *)
Definition direct_v1 : string :=
  "{" +:+ quoted "Records" +:+ ":[{" +:+ quoted "s3" +:+ ":{"
      +:+ quoted "bucket" +:+ ":{" +:+ quoted "name" +:+ ":" +:+ quoted "example.com"
      +:+ "}," +:+ quoted "object" +:+ ":{" +:+ quoted "key" +:+ ":"
      +:+ quoted "builds/v1.zip" +:+ "}}}]}".

(** The serialized payload [{"Records":[{"Sns":{"Message":"{}"}}]}]. *)
Definition enveloped_again : string :=
  "{" +:+ quoted "Records" +:+ ":[{" +:+ quoted "Sns" +:+ ":{"
      +:+ quoted "Message" +:+ ":" +:+ quoted "{}" +:+ "}}]}".

Example json_loads_direct_v1 :
  json_loads direct_v1 = Ret (direct_event bucket "builds/v1.zip").
Proof. vm_compute. reflexivity. Qed.

(** The spec's scenario: an envelope whose inner payload has two records. *)
Lemma normalize_record_count_witness :
  normalize (sns_event two_records) fresh = (Raise AssertionError, fresh).
Proof.
  destruct (normalize_record_count (sns_event two_records) fresh) as (_ & H & _).
  apply (H (JArr [JObj [("Sns", JObj [("Message", JStr two_records)])]])
           (JObj [("Sns", JObj [("Message", JStr two_records)])])
           (JObj [("Records", JArr [JObj [("s3", JObj [])]; JObj [("s3", JObj [])]])])
           (JArr [JObj [("s3", JObj [])]; JObj [("s3", JObj [])]])
           2%Z).
  - repeat split.
  - split; [reflexivity|].
    exists (JObj [("Message", JStr two_records)]), (JStr two_records).
    repeat split; vm_compute; reflexivity.
  - reflexivity.
  - reflexivity.
  - discriminate.
Defined.

Lemma normalize_pure_witness :
  normalize (sns_event direct_v1) fresh =
  (Ret (creation_event bucket "builds/v1.zip"), fresh).
Proof.
  apply (proj2 (proj2 normalize_pure)). vm_compute. reflexivity.
Defined.

Lemma missing_s3_is_KeyError_witness :
  lambda_handler 3 (sns_event enveloped_again) JNull fresh =
  (Raise (KeyError (JStr "s3")), fresh).
Proof.
  destruct (missing_s3_is_KeyError 3 (sns_event enveloped_again) JNull fresh)
    as (_ & _ & H & _).
  apply (H (JArr [JObj [("Sns", JObj [("Message", JStr enveloped_again)])]])
           (JObj [("Sns", JObj [("Message", JStr enveloped_again)])])
           (JObj [("Records", JArr [JObj [("Sns", JObj [("Message", JStr "{}")])]])])
           (JArr [JObj [("Sns", JObj [("Message", JStr "{}")])]])
           (JObj [("Sns", JObj [("Message", JStr "{}")])])
           (JObj [])).
  - repeat split.
  - split; [reflexivity|].
    exists (JObj [("Message", JStr enveloped_again)]), (JStr enveloped_again).
    repeat split; vm_compute; reflexivity.
  - repeat split.
  - split; [reflexivity|].
    exists (JObj [("Message", JStr "{}")]), (JStr "{}").
    repeat split.
  - exists [("Sns", JObj [("Message", JStr "{}")])]. split; reflexivity.
Defined.

(** *** C6 on the scenario: [docs] does not match a build *)

Lemma non_match_untouched_witness :
  pointer (table (store (apply 3 v1 fresh).2)) (row_key r_docs) =
  pointer (table (store fresh)) (row_key r_docs) /\
  (exists news,
      writes (store (apply 3 v1 fresh).2) = (writes (store fresh) ++ news)%list /\
      forall x, In x news ->
        ui_Key (fst x) <>
        ui_Key (update_request (AV_S bucket) (AV_S (row_channel r_docs))
                               (AV_S "builds/v1.zip"))) /\
  (exists lines,
      stdout (apply 3 v1 fresh).2 = (stdout fresh ++ lines)%list /\
      ~ In (line_updating (row_channel r_docs)) lines).
Proof.
  apply (non_match_untouched bucket "builds/v1.zip" 3 fresh (apply 3 v1 fresh).2
           (apply 3 v1 fresh).1 r_docs).
  - exact wf_fresh.
  - left. reflexivity.
  - reflexivity.
  - vm_compute. reflexivity.
  - vm_compute. reflexivity.
Defined.

(** *** C7 on the scenario: three pages of one item *)

Lemma pagination_transparent_witness :
  (apply 4 v1 paged).1 =
  (apply 1 v1 (repage [] (query_faults (store paged)) paged)).1 /\
  observable (apply 4 v1 paged).2 =
  observable (apply 1 v1 (repage [] (query_faults (store paged)) paged)).2.
Proof.
  destruct (pagination_transparent bucket "builds/v1.zip" 4 paged [0; 0; 0])
    as (H1 & H2 & _).
  - exact wf_paged.
  - cbn. lia.
  - constructor.
  - split; [exact H1|exact H2].
Defined.

(** *** C9 on the scenario: an invalid pattern after a write *)

Lemma invalid_pattern_propagates_witness :
  exists pl qf,
    apply 4 v1 with_bad =
    (Raise re_error,
     repage pl qf
       (for_each (map reg_item [r_alpha])
                 (process_item v1) with_bad).2).
Proof.
  apply (invalid_pattern_propagates bucket "builds/v1.zip" 4 with_bad
           (for_each (map reg_item [r_alpha]) (process_item v1) with_bad).2
           [r_alpha] [r_stable] r_bad "(").
  - exact wf_with_bad.
  - cbn. lia.
  - constructor.
  - reflexivity.
  - vm_compute. reflexivity.
  - reflexivity.
  - reflexivity.
Defined.

(** *** The further properties on the scenario *)

(** A registration of another bucket, and one without a pattern. *)
Definition r_other : Row :=
  mkRow "other.org" "stable"
        (<["ObjectKey" := AV_S "builds/v0.zip"]> (<["Pattern" := AV_S "^builds/"]> ∅)).
Definition r_broken : Row := mkRow bucket "broken" ∅.

Definition two_buckets : World := world_of [r_docs; r_stable; r_other].
Definition with_broken : World := world_of [r_alpha; r_broken; r_stable].

Lemma wf_two_buckets : wf_table (table (store two_buckets)).
Proof. unfold wf_table. cbn [two_buckets world_of store table]. sorted. Qed.

Lemma wf_with_broken : wf_table (table (store with_broken)).
Proof. unfold wf_table. cbn [with_broken world_of store table]. sorted. Qed.

Lemma apply_terminates_witness : (apply 4 v1 paged).1 <> Timeout.
Proof.
  apply (apply_terminates bucket "builds/v1.zip" 4 paged).
  - exact wf_paged.
  - cbn. lia.
Defined.

Lemma only_object_key_changes_witness :
  map other_attrs (table (store (apply 3 v1 fresh).2)) =
  map other_attrs (table (store fresh)).
Proof.
  apply (only_object_key_changes bucket "builds/v1.zip" 3 fresh
           (apply 3 v1 fresh).2 (apply 3 v1 fresh).1).
  - exact wf_fresh.
  - vm_compute. reflexivity.
Defined.

Lemma other_buckets_untouched_witness :
  find_row (row_key r_other) (table (store (apply 4 v1 two_buckets).2)) = Some r_other.
Proof.
  apply (other_buckets_untouched bucket "builds/v1.zip" 4 two_buckets
           (apply 4 v1 two_buckets).2 (apply 4 v1 two_buckets).1 r_other).
  - exact wf_two_buckets.
  - right. right. left. reflexivity.
  - discriminate.
  - vm_compute. reflexivity.
Defined.

Lemma unusable_registration_aborts_witness :
  exists pl qf,
    apply 4 v1 with_broken =
    (Raise AssertionError,
     repage pl qf
       (for_each (map reg_item [r_alpha]) (process_item v1) with_broken).2).
Proof.
  apply (unusable_registration_aborts bucket "builds/v1.zip" 4 with_broken
           (for_each (map reg_item [r_alpha]) (process_item v1) with_broken).2
           [r_alpha] [r_stable] r_broken).
  - exact wf_with_broken.
  - cbn. lia.
  - constructor.
  - reflexivity.
  - vm_compute. reflexivity.
  - intros p H. vm_compute in H. discriminate H.
Defined.

Lemma matching_channels_caught_up_witness :
  exists v,
    row_attrs r_stable_v1 !! "ObjectKey" = Some v /\
    forall s, v = AV_S s -> Bytes.le "builds/v1.zip" s.
Proof.
  apply (matching_channels_caught_up bucket "builds/v1.zip" 3 fresh
           (apply 3 v1 fresh).2 r_stable_v1).
  - exact wf_fresh.
  - cbn. lia.
  - apply honest_no_faults.
  - vm_compute. reflexivity.
  - vm_compute. right. left. reflexivity.
  - reflexivity.
  - vm_compute. reflexivity.
Defined.

Lemma delivery_order_irrelevant_witness :
  pointer (table (store (deliver_all 3
             (map event_of [(bucket, "builds/v1.zip"); (bucket, "builds/v0.zip")])
             fresh))) (bucket, "stable") =
  pointer (table (store (deliver_all 3
             (map event_of [(bucket, "builds/v0.zip"); (bucket, "builds/v1.zip")])
             fresh))) (bucket, "stable").
Proof.
  apply (delivery_order_irrelevant 3 (bucket, "stable") r_stable).
  - exact wf_fresh.
  - apply honest_no_faults.
  - cbn. lia.
  - apply perm_swap.
  - vm_compute. repeat split.
  - vm_compute. repeat split.
  - reflexivity.
Defined.

Lemma envelope_transparent_witness :
  lambda_handler 3 (sns_event direct_v1) JNull fresh =
  lambda_handler 3 (direct_event bucket "builds/v1.zip") (JStr "context") fresh.
Proof.
  apply (envelope_transparent 3 direct_v1 (direct_event bucket "builds/v1.zip")
           (JArr [JObj [("s3", creation_event bucket "builds/v1.zip")]])
           (JObj [("s3", creation_event bucket "builds/v1.zip")])).
  - vm_compute. reflexivity.
  - repeat split.
  - reflexivity.
Defined.

Lemma lambda_handler_output_witness :
  stdout (lambda_handler 3 (direct_event bucket "builds/v1.zip") JNull fresh).2 =
  (stdout fresh ++ banner_lines bucket "builds/v1.zip" ++
   flat_map (lines_of bucket "builds/v1.zip" (table (store fresh)))
            (matching "builds/v1.zip" (rows_after bucket None (table (store fresh)))))%list.
Proof.
  apply (lambda_handler_output bucket "builds/v1.zip" 3 JNull fresh).
  - exact wf_fresh.
  - cbn. lia.
  - apply honest_no_faults.
  - vm_compute. reflexivity.
Defined.

Lemma main_usage_witness :
  main 3 ["latestfiles_update.py"; bucket] fresh =
  (Raise SystemExit, mkWorld (store fresh) (stdout fresh ++ [usage_line])).
Proof.
  apply (main_usage 3 ["latestfiles_update.py"; bucket] fresh).
  cbn. lia.
Defined.

Lemma main_populates_witness :
  pointer (table (store
     (main 3 ["latestfiles_update.py"; bucket; "builds/v1.zip"] fresh).2))
          (bucket, row_channel r_stable) = Some (AV_S "builds/v1.zip") /\
  exists lines,
    stdout (main 3 ["latestfiles_update.py"; bucket; "builds/v1.zip"] fresh).2 =
    (stdout fresh ++ banner_lines bucket "builds/v1.zip" ++ lines)%list.
Proof.
  apply (main_populates 3 "latestfiles_update.py" bucket "builds/v1.zip" fresh
           (main 3 ["latestfiles_update.py"; bucket; "builds/v1.zip"] fresh).2
           r_stable).
  - exact wf_fresh.
  - cbn. lia.
  - apply honest_no_faults.
  - vm_compute. reflexivity.
  - right. left. reflexivity.
  - reflexivity.
  - vm_compute. reflexivity.
  - reflexivity.
Defined.

(** The bootstrap run on the scenario: the banner, then the report. *)
Example bootstrap_v1 :
  let w1 := (main 3 ["latestfiles_update.py"; bucket; "builds/v1.zip"] fresh).2 in
  stdout w1 =
    ["========================================";
     "Bucket:  example.com";
     "Key:     builds/v1.zip";
     "========================================";
     EmptyString;
     "    Updating stable...";
     "        OK"] /\
  pointer (table (store w1)) (bucket, "stable") = Some (AV_S "builds/v1.zip") /\
  pointer (table (store w1)) (bucket, "docs") = None.
Proof. vm_compute. repeat split. Qed.

(** A record whose bucket name is a number. *)
Definition numbered : json :=
  JObj [("bucket", JObj [("name", JInt 5)]);
        ("object", JObj [("key", JStr "builds/v1.zip")])].

Lemma bucket_name_not_a_string_witness :
  (apply 3 numbered fresh).2 = fresh /\ (apply 3 numbered fresh).1 <> Ret tt.
Proof.
  apply (bucket_name_not_a_string 3 numbered fresh).
  - intros s H. vm_compute in H. discriminate H.
  - vm_compute. reflexivity.
Defined.

End Scenario.

End LatestFiles.

(* ===================================================================== *)
(** * The Discord notifier: [drnsf_s3_deploy_to_discord.py] *)
(* ===================================================================== *)

Module Discord.
Import Python.

(** ** The environment of the script

    The script reads [os.environ] and calls [requests.post].  A request is
    recorded as it is handed to [requests]; what the network answers is
    given by a list of replies, one for each request to come (a response
    with status 200 when the list is exhausted). *)

Record Request : Type := mkRequest {
  rq_url : string;
  rq_params : list (string * string);
  rq_json : json;
  rq_headers : list (string * string)
}.

Inductive reply : Type :=
  | Status (code : Z)
  | Failure (e : exn).

Record World : Type := mkWorld {
  environ : gmap string string;
  sent : list Request;
  replies : list reply
}.

(** Code that may read the environment, post a request and raise. *)
Definition Run (A : Type) : Type := World -> outcome A * World.

#[global] Instance Run_ret : MRet Run := fun A a w => (Ret a, w).

#[global] Instance Run_bind : MBind Run := fun A B k m w =>
  match m w with
  | (Ret a, w') => k a w'
  | (Raise e, w') => (Raise e, w')
  | (Timeout, w') => (Timeout, w')
  end.

Definition lift {A} (o : outcome A) : Run A := fun w => (o, w).

Definition raise {A} (e : exn) : Run A := fun w => (Raise e, w).

Definition sub (x : json) (k : string) : Run json := lift (py_getitem x (IStr k)).
Definition sub0 (x : json) : Run json := lift (py_getitem x (IInt 0)).

Definition AttributeError : exn := OtherError "AttributeError".
Definition HTTPError : exn := OtherError "HTTPError".

(** ['name' in os.environ] and [os.environ['name']] *)
Definition environ_has (name : string) : Run bool :=
  fun w => (Ret (bool_decide (is_Some (environ w !! name))), w).

Definition environ_get (name : string) : Run string :=
  fun w => match environ w !! name with
           | Some v => (Ret v, w)
           | None => (Raise (KeyError (JStr name)), w)
           end.

(** [requests.post(url, params=..., json=..., headers=...)]: the status
    code of the response, or the exception of [requests]. *)
Definition requests_post (url : string) (params : list (string * string))
    (body : json) (headers : list (string * string)) : Run Z :=
  fun w =>
    let w' := mkWorld (environ w)
                      (sent w ++ [mkRequest url params body headers])
                      (tail (replies w)) in
    match replies w with
    | [] => (Ret 200%Z, w')
    | Status code :: _ => (Ret code, w')
    | Failure e :: _ => (Raise e, w')
    end.

(** [response.raise_for_status()]: [HTTPError] for a status from 400 to
    599. *)
Definition raise_for_status (code : Z) : Run unit :=
  if ((400 <=? code)%Z && (code <? 600)%Z)%bool then raise HTTPError else mret tt.

(** [s.split(sep)] for a separator of one character. *)
Fixpoint split_on (sep : ascii) (s : string) : list string :=
  match s with
  | EmptyString => [EmptyString]
  | String c rest =>
      if Ascii.eqb c sep then EmptyString :: split_on sep rest
      else match split_on sep rest with
           | [] => [String c EmptyString]
           | part :: parts => String c part :: parts
           end
  end.

(** [v.split(sep)] on a Python value: only a [str] has the method. *)
Definition py_split (v : json) (sep : ascii) : outcome json :=
  match v with
  | JStr s => Ret (JArr (map JStr (split_on sep s)))
  | _ => Raise AttributeError
  end.

(** Lines 80-85, run when the module is loaded: the value of
    [req_headers]. *)
Definition module_init : Run (list (string * string)) :=
  has ← environ_has "DISCORD_WEBHOOK";
  lift (py_assert has);;
  has ← environ_has "ADMIN_EMAIL";
  lift (py_assert has);;
  admin ← environ_get "ADMIN_EMAIL";
  mret [("From", admin)].

Section Handler.
Context {L : Lib}.

(** Lines 88-94: check the record count, unwrap an SNS envelope, select
    the [s3] part of the record. *)
Definition normalize (event : json) : Run json :=
  records ← sub event "Records";
  n ← lift (py_len records);
  lift (py_assert (n =? 1)%Z);;
  records ← sub event "Records";
  record ← sub0 records;
  is_sns ← lift (py_in "Sns" record);
  event ← (if is_sns : bool then
             records ← sub event "Records";
             record ← sub0 records;
             sns ← sub record "Sns";
             message ← sub sns "Message";
             event ← lift (py_json_loads message);
             records ← sub event "Records";
             n ← lift (py_len records);
             lift (py_assert (n =? 1)%Z);;
             mret event
           else mret event);
  records ← sub event "Records";
  record ← sub0 records;
  sub record "s3".

(** Line 103: [s3ev['object']['key'].split('/')[-1]] *)
Definition title (s3ev : json) : Run json :=
  object ← sub s3ev "object";
  key ← sub object "key";
  parts ← lift (py_split key "/");
  lift (py_getitem parts (IInt (-1))).

(** Lines 104-107: ['https://{}/{}'.format(s3ev['bucket']['name'],
    s3ev['object']['key'])] *)
Definition url (s3ev : json) : Run json :=
  bucket ← sub s3ev "bucket";
  name ← sub bucket "name";
  object ← sub s3ev "object";
  key ← sub object "key";
  mret (JStr ("https://" +:+ format_value name +:+ "/" +:+ format_value key)).

(** Lines 87-112, with the module's [req_headers]. *)
Definition lambda_handler (req_headers : list (string * string))
    (event context : json) : Run unit :=
  s3ev ← normalize event;
  webhook ← environ_get "DISCORD_WEBHOOK";
  t ← title s3ev;
  u ← url s3ev;
  status ← requests_post webhook [("wait", "true")]
             (JObj [("embeds", JArr [JObj [("title", t); ("url", u)]])])
             req_headers;
  raise_for_status status.

(** The module is loaded, then the handler is called. *)
Definition cold_start (event context : json) : Run unit :=
  req_headers ← module_init;
  lambda_handler req_headers event context.

(** The record that lines 88-94 select, or the exception they raise. *)
Definition obind {A B} (o : outcome A) (k : A -> outcome B) : outcome B :=
  match o with
  | Ret a => k a
  | Raise e => Raise e
  | Timeout => Timeout
  end.

Definition selected (event : json) : outcome json :=
  obind (py_getitem event (IStr "Records")) (fun records =>
  obind (py_len records) (fun n =>
  obind (py_assert (n =? 1)%Z) (fun _ =>
  obind (py_getitem records (IInt 0)) (fun record =>
  obind (py_in "Sns" record) (fun is_sns =>
  obind (if is_sns : bool then
           obind (py_getitem record (IStr "Sns")) (fun sns =>
           obind (py_getitem sns (IStr "Message")) (fun message =>
           obind (py_json_loads message) (fun inner =>
           obind (py_getitem inner (IStr "Records")) (fun irecords =>
           obind (py_len irecords) (fun n =>
           obind (py_assert (n =? 1)%Z) (fun _ => Ret inner))))))
         else Ret event) (fun event =>
  obind (py_getitem event (IStr "Records")) (fun records =>
  obind (py_getitem records (IInt 0)) (fun record =>
  py_getitem record (IStr "s3"))))))))).

End Handler.

Ltac by_outcomes :=
  repeat (cbn beta iota; try reflexivity;
          match goal with
          | |- context [match ?o with Ret _ => _ | Raise _ => _ | Timeout => _ end] =>
              lazymatch o with
              | py_getitem _ _ => idtac
              | py_len _ => idtac
              | py_assert _ => idtac
              | py_in _ _ => idtac
              | py_json_loads _ => idtac
              | py_split _ _ => idtac
              end;
              destruct o as [?|?|]
          | |- context [if ?b then _ else _] => is_var b; destruct b
          end).

Section Properties.
Context {L : Lib}.

Lemma run_normalize_selected (event : json) (w : World) :
  normalize event w = (selected event, w).
Proof.
  unfold normalize, selected, obind, sub, sub0, lift, mbind, mret, Run_bind, Run_ret.
  by_outcomes.
Qed.

Lemma updater_normalize_selected (event : json) (w : LatestFiles.World) :
  LatestFiles.normalize event w = (selected event, w).
Proof.
  unfold LatestFiles.normalize, selected, obind, LatestFiles.sub, LatestFiles.sub0,
    LatestFiles.lift, mbind, mret, LatestFiles.Py_bind, LatestFiles.Py_ret.
  by_outcomes.
Qed.

(** X11.  Both scripts read a payload in the same way: on every payload,
    lines 80-86 of the updater and lines 88-94 of the notifier select the
    same record or raise the same exception, and neither has an effect. *)
Theorem same_record_selected (event : json) (w : LatestFiles.World) (wd : World) :
  (LatestFiles.normalize event w).1 = (normalize event wd).1 /\
  (LatestFiles.normalize event w).2 = w /\
  (normalize event wd).2 = wd.
Proof.
  rewrite updater_normalize_selected, run_normalize_selected. repeat split.
Qed.

(** *** The title *)

Lemma split_on_last (sep : ascii) (s : string) :
  exists init t,
    split_on sep s = (init ++ [t])%list /\
    ~ In sep (list_ascii_of_string t) /\
    ((init = [] /\ s = t) \/ (init <> [] /\ exists p, s = p +:+ String sep t)).
Proof.
  induction s as [|c rest (init & t & Hsplit & Hno & Hcases)].
  - exists [], EmptyString. split; [reflexivity|]. split; [intros []|]. left. auto.
  - cbn [split_on]. destruct (Ascii.eqb_spec c sep) as [->|Hne].
    + exists (EmptyString :: init), t. rewrite Hsplit.
      split; [reflexivity|]. split; [assumption|].
      right. split; [discriminate|]. destruct Hcases as [[_ ->]|[_ (p & ->)]].
      * exists EmptyString. reflexivity.
      * exists (String sep p). reflexivity.
    + rewrite Hsplit. destruct Hcases as [[-> ->]|[Hi (p & ->)]].
      * cbn [app]. exists [], (String c t). split; [reflexivity|]. split.
        -- cbn [list_ascii_of_string]. intros [H|H]; [congruence|auto].
        -- left. auto.
      * destruct init as [|h i]; [contradiction|]. cbn [app].
        exists (String c h :: i), t. split; [reflexivity|]. split; [assumption|].
        right. split; [discriminate|]. exists (String c p). reflexivity.
Qed.

Lemma seq_get_minus_one {A} (init : list A) (t : A) :
  seq_get (init ++ [t]) (-1) = Some t.
Proof.
  unfold seq_get. rewrite List.length_app. cbn [length].
  change (-1 <? 0)%Z with true. cbn iota.
  replace (-1 + Z.of_nat (length init + 1))%Z with (Z.of_nat (length init)) by lia.
  destruct (Z.ltb_spec (Z.of_nat (length init)) 0); [lia|].
  rewrite Nat2Z.id, List.nth_error_app2 by lia.
  now rewrite Nat.sub_diag.
Qed.

Lemma title_of_split (s3ev object : json) (key : string) (init : list string)
    (t : string) (w : World) :
  py_getitem s3ev (IStr "object") = Ret object ->
  py_getitem object (IStr "key") = Ret (JStr key) ->
  split_on "/" key = (init ++ [t])%list ->
  title s3ev w = (Ret (JStr t), w).
Proof.
  intros Hobj Hkey Hsplit.
  unfold title, sub, lift, mbind, Run_bind. rewrite Hobj, Hkey.
  cbn [py_split py_getitem]. rewrite Hsplit, map_app. cbn [map].
  now rewrite seq_get_minus_one.
Qed.

(** X12.  The title of the notification is the last segment of the object
    key: it contains no ['/'], and the key is the title itself or ends
    with ['/'] followed by the title.  Computing it has no effect. *)
Theorem title_is_last_segment (s3ev object : json) (key : string) (w : World) :
  py_getitem s3ev (IStr "object") = Ret object ->
  py_getitem object (IStr "key") = Ret (JStr key) ->
  exists t,
    title s3ev w = (Ret (JStr t), w) /\
    ~ In "/"%char (list_ascii_of_string t) /\
    (key = t \/ exists p, key = p +:+ "/" +:+ t).
Proof.
  intros Hobj Hkey.
  destruct (split_on_last "/" key) as (init & t & Hsplit & Hno & Hcases).
  exists t. split; [|split; [exact Hno|]].
  - exact (title_of_split s3ev object key init t w Hobj Hkey Hsplit).
  - destruct Hcases as [[_ ->]|[_ (p & ->)]]; [now left|right; now exists p].
Qed.

(** *** The request *)

Lemma title_effect_free (s3ev : json) :
  exists o, forall w, title s3ev w = (o, w).
Proof.
  unfold title, sub, lift, mbind, Run_bind.
  destruct (py_getitem s3ev (IStr "object")) as [object| |]; eauto.
  destruct (py_getitem object (IStr "key")) as [key| |]; eauto.
  destruct (py_split key "/") as [parts| |]; eauto.
Qed.

Lemma url_effect_free (s3ev : json) :
  exists o, forall w, url s3ev w = (o, w).
Proof.
  unfold url, sub, lift, mbind, mret, Run_bind, Run_ret.
  destruct (py_getitem s3ev (IStr "bucket")) as [bucket| |]; eauto.
  destruct (py_getitem bucket (IStr "name")) as [name| |]; eauto.
  destruct (py_getitem s3ev (IStr "object")) as [object| |]; eauto.
  destruct (py_getitem object (IStr "key")) as [key| |]; eauto.
Qed.

(** What [raise_for_status] makes of a reply. *)
Definition outcome_of (r : option reply) : outcome unit :=
  match r with
  | None => Ret tt
  | Some (Status code) =>
      if ((400 <=? code)%Z && (code <? 600)%Z)%bool then Raise HTTPError else Ret tt
  | Some (Failure e) => Raise e
  end.

Lemma post_and_check (hook : string) (body : json) (headers : list (string * string))
    (w : World) :
  (requests_post hook [("wait", "true")] body headers ≫= raise_for_status) w =
  (outcome_of (head (replies w)),
   mkWorld (environ w)
           (sent w ++ [mkRequest hook [("wait", "true")] body headers])
           (tail (replies w))).
Proof.
  unfold mbind, Run_bind, requests_post, raise_for_status, outcome_of.
  destruct (replies w) as [|[code|e] rest]; cbn [head tail]; try reflexivity.
  destruct ((400 <=? code)%Z && (code <? 600)%Z)%bool; reflexivity.
Qed.

(** X13.  For a payload whose record has a string key and a bucket name,
    with the webhook configured, the handler posts exactly one request:
    to the webhook, with parameter [wait=true], the module's headers, and
    one embed whose title is the last segment of the key and whose URL is
    [https://<bucket name>/<key>].  It returns when the response has a
    status below 400 or from 600, raises [HTTPError] for a status from 400
    to 599, and raises what [requests] raised when no response came. *)
Theorem notification_posted (req_headers : list (string * string))
    (event context s3ev object bucket name : json) (key hook : string) (w : World) :
  normalize event w = (Ret s3ev, w) ->
  environ w !! "DISCORD_WEBHOOK" = Some hook ->
  py_getitem s3ev (IStr "object") = Ret object ->
  py_getitem object (IStr "key") = Ret (JStr key) ->
  py_getitem s3ev (IStr "bucket") = Ret bucket ->
  py_getitem bucket (IStr "name") = Ret name ->
  exists t,
    title s3ev w = (Ret (JStr t), w) /\
    lambda_handler req_headers event context w =
    (outcome_of (head (replies w)),
     mkWorld (environ w)
       (sent w ++
        [mkRequest hook [("wait", "true")]
           (JObj [("embeds",
                   JArr [JObj [("title", JStr t);
                               ("url", JStr ("https://" +:+ format_value name
                                             +:+ "/" +:+ key))]])])
           req_headers])
       (tail (replies w))).
Proof.
  intros Hnorm Hhook Hobj Hkey Hbucket Hname.
  destruct (split_on_last "/" key) as (init & t & Hsplit & _).
  pose proof (title_of_split s3ev object key init t w Hobj Hkey Hsplit) as Ht.
  exists t. split; [exact Ht|].
  unfold lambda_handler.
  unfold mbind at 1, Run_bind at 1. rewrite Hnorm.
  unfold mbind at 1, Run_bind at 1, environ_get. rewrite Hhook.
  unfold mbind at 1, Run_bind at 1. rewrite Ht.
  unfold mbind at 1, Run_bind at 1.
  assert (Hurl : url s3ev w =
                 (Ret (JStr ("https://" +:+ format_value name +:+ "/" +:+ key)), w)).
  { unfold url, sub, lift, mbind, mret, Run_bind, Run_ret.
    now rewrite Hbucket, Hname, Hobj, Hkey. }
  rewrite Hurl. apply post_and_check.
Qed.

(** X14.  A payload that the handler does not accept leads to no request:
    when reading the payload raises (a wrong record count, no ['s3'], an
    undecodable envelope) the handler raises the same exception, and when
    the key of the record is not a string it raises [AttributeError]; in
    both cases nothing has been sent. *)
Theorem rejected_payload_sends_nothing (req_headers : list (string * string))
    (event context : json) (w : World) :
  (forall e, normalize event w = (Raise e, w) ->
             lambda_handler req_headers event context w = (Raise e, w)) /\
  (forall s3ev object key hook,
      normalize event w = (Ret s3ev, w) ->
      environ w !! "DISCORD_WEBHOOK" = Some hook ->
      py_getitem s3ev (IStr "object") = Ret object ->
      py_getitem object (IStr "key") = Ret key ->
      (forall s, key <> JStr s) ->
      lambda_handler req_headers event context w = (Raise AttributeError, w)).
Proof.
  split.
  - intros e Hnorm. unfold lambda_handler, mbind, Run_bind. now rewrite Hnorm.
  - intros s3ev object key hook Hnorm Hhook Hobj Hkey Hstr.
    unfold lambda_handler.
    unfold mbind at 1, Run_bind at 1. rewrite Hnorm.
    unfold mbind at 1, Run_bind at 1, environ_get. rewrite Hhook.
    unfold mbind at 1, Run_bind at 1.
    assert (Ht : title s3ev w = (Raise AttributeError, w)).
    { unfold title, sub, lift, mbind, Run_bind. rewrite Hobj, Hkey.
      destruct key; try reflexivity. now destruct (Hstr s). }
    now rewrite Ht.
Qed.

Lemma module_init_cases (w : World) :
  module_init w =
  (match environ w !! "DISCORD_WEBHOOK", environ w !! "ADMIN_EMAIL" with
   | Some _, Some admin => Ret [("From", admin)]
   | _, _ => Raise AssertionError
   end, w).
Proof.
  unfold module_init, environ_has, environ_get, lift, mbind, mret, Run_bind, Run_ret.
  destruct (environ w !! "DISCORD_WEBHOOK") as [hook|];
    destruct (environ w !! "ADMIN_EMAIL") as [admin|]; reflexivity.
Qed.

(** X15.  From the loading of the module to the end of the handler, on any
    payload and whatever the outcome, the notifier leaves the environment
    as it is and sends either nothing or exactly one request, and that
    request goes to the configured webhook with [wait=true] and the
    configured address in its [From] header.  Without one of the two
    environment variables nothing is sent. *)
Theorem at_most_one_post (event context : json) (w w' : World) (o : outcome unit) :
  cold_start event context w = (o, w') ->
  environ w' = environ w /\
  (sent w' = sent w \/
   exists hook admin body,
     environ w !! "DISCORD_WEBHOOK" = Some hook /\
     environ w !! "ADMIN_EMAIL" = Some admin /\
     sent w' = (sent w ++ [mkRequest hook [("wait", "true")] body
                                     [("From", admin)]])%list).
Proof.
  unfold cold_start. unfold mbind at 1, Run_bind at 1. rewrite module_init_cases.
  destruct (environ w !! "DISCORD_WEBHOOK") as [hook|] eqn:Hhook;
    [|intros [= <- <-]; auto].
  destruct (environ w !! "ADMIN_EMAIL") as [admin|] eqn:Hadmin;
    [|intros [= <- <-]; auto].
  unfold lambda_handler.
  unfold mbind at 1, Run_bind at 1. rewrite run_normalize_selected.
  destruct (selected event) as [s3ev|e|]; [|intros [= <- <-]; auto..].
  unfold mbind at 1, Run_bind at 1, environ_get. rewrite Hhook.
  destruct (title_effect_free s3ev) as [ot Ht].
  unfold mbind at 1, Run_bind at 1. rewrite Ht.
  destruct ot as [t|e|]; [|intros [= <- <-]; auto..].
  destruct (url_effect_free s3ev) as [ou Hu].
  unfold mbind at 1, Run_bind at 1. rewrite Hu.
  destruct ou as [u|e|]; [|intros [= <- <-]; auto..].
  rewrite post_and_check. intros [= <- <-]. cbn [environ sent].
  split; [reflexivity|]. right.
  exists hook, admin, (JObj [("embeds", JArr [JObj [("title", t); ("url", u)]])]).
  repeat split.
Qed.

End Properties.

(** ** The notifier on the example of the script's header *)

Module Scenario.
Import Small.

Definition webhook : string := "https://discord.example/api/webhooks/1/token".
Definition admin : string := "admin@example.com".

Definition configured (rs : list reply) : World :=
  mkWorld (<["ADMIN_EMAIL" := admin]> (<["DISCORD_WEBHOOK" := webhook]> ∅)) [] rs.

Definition unconfigured : World :=
  mkWorld (<["DISCORD_WEBHOOK" := webhook]> ∅) [] [].

Definition foo_bar : json := LatestFiles.direct_event "example.com" "foo/bar.zip".
Definition s3_foo_bar : json := LatestFiles.creation_event "example.com" "foo/bar.zip".

(** The example of the header: bucket [example.com], key [foo/bar.zip],
    reported as [https://example.com/foo/bar.zip] under the title
    [bar.zip]. *)
Example header_example :
  cold_start foo_bar JNull (configured []) =
  (Ret tt,
   mkWorld (environ (configured []))
     [mkRequest webhook [("wait", "true")]
        (JObj [("embeds",
                JArr [JObj [("title", JStr "bar.zip");
                            ("url", JStr "https://example.com/foo/bar.zip")]])])
        [("From", admin)]]
     []).
Proof. vm_compute. reflexivity. Qed.

(** Without [ADMIN_EMAIL] the module does not load. *)
Example header_example_unconfigured :
  cold_start foo_bar JNull unconfigured = (Raise AssertionError, unconfigured).
Proof. vm_compute. reflexivity. Qed.

Lemma title_is_last_segment_witness :
  exists t,
    title s3_foo_bar (configured []) = (Ret (JStr t), configured []) /\
    ~ In "/"%char (list_ascii_of_string t) /\
    ("foo/bar.zip" = t \/ exists p, "foo/bar.zip" = p +:+ "/" +:+ t).
Proof.
  apply (title_is_last_segment s3_foo_bar (JObj [("key", JStr "foo/bar.zip")])
           "foo/bar.zip" (configured [])).
  - reflexivity.
  - reflexivity.
Defined.

Lemma notification_posted_witness :
  exists t,
    title s3_foo_bar (configured [Status 404]) =
      (Ret (JStr t), configured [Status 404]) /\
    lambda_handler [("From", admin)] foo_bar JNull (configured [Status 404]) =
    (outcome_of (head (replies (configured [Status 404]))),
     mkWorld (environ (configured [Status 404]))
       (sent (configured [Status 404]) ++
        [mkRequest webhook [("wait", "true")]
           (JObj [("embeds",
                   JArr [JObj [("title", JStr t);
                               ("url", JStr ("https://" +:+ format_value (JStr "example.com")
                                             +:+ "/" +:+ "foo/bar.zip"))]])])
           [("From", admin)]])
       (tail (replies (configured [Status 404])))).
Proof.
  apply (notification_posted [("From", admin)] foo_bar JNull s3_foo_bar
           (JObj [("key", JStr "foo/bar.zip")])
           (JObj [("name", JStr "example.com")])
           (JStr "example.com") "foo/bar.zip" webhook (configured [Status 404])).
  - reflexivity.
  - reflexivity.
  - reflexivity.
  - reflexivity.
  - reflexivity.
  - reflexivity.
Defined.

(** A payload with two records, and one whose key is a number. *)
Definition two_records_event : json :=
  JObj [("Records", JArr [JObj [("s3", s3_foo_bar)]; JObj [("s3", s3_foo_bar)]])].

Definition s3_numeric : json :=
  JObj [("bucket", JObj [("name", JStr "example.com")]);
        ("object", JObj [("key", JInt 7)])].

Definition numeric_event : json := JObj [("Records", JArr [JObj [("s3", s3_numeric)]])].

Lemma rejected_payload_sends_nothing_witness :
  lambda_handler [("From", admin)] two_records_event JNull (configured []) =
    (Raise AssertionError, configured []) /\
  lambda_handler [("From", admin)] numeric_event JNull (configured []) =
    (Raise AttributeError, configured []).
Proof.
  split.
  - apply (proj1 (rejected_payload_sends_nothing [("From", admin)] two_records_event
                    JNull (configured []))).
    reflexivity.
  - apply (proj2 (rejected_payload_sends_nothing [("From", admin)] numeric_event
                    JNull (configured []))
             s3_numeric (JObj [("key", JInt 7)]) (JInt 7) webhook).
    + reflexivity.
    + reflexivity.
    + reflexivity.
    + reflexivity.
    + discriminate.
Defined.

Lemma at_most_one_post_witness :
  environ (cold_start foo_bar JNull (configured [Status 500])).2 =
    environ (configured [Status 500]) /\
  (sent (cold_start foo_bar JNull (configured [Status 500])).2 =
     sent (configured [Status 500]) \/
   exists hook admin0 body,
     environ (configured [Status 500]) !! "DISCORD_WEBHOOK" = Some hook /\
     environ (configured [Status 500]) !! "ADMIN_EMAIL" = Some admin0 /\
     sent (cold_start foo_bar JNull (configured [Status 500])).2 =
       (sent (configured [Status 500]) ++
        [mkRequest hook [("wait", "true")] body [("From", admin0)]])%list).
Proof.
  apply (at_most_one_post foo_bar JNull (configured [Status 500])
           (cold_start foo_bar JNull (configured [Status 500])).2
           (cold_start foo_bar JNull (configured [Status 500])).1).
  vm_compute. reflexivity.
Defined.

End Scenario.

End Discord.
